(** * Accesorios-compras: the catalog scrapers

    A shallow embedding of the three Go scrapers of the repository and the
    properties of their normalisation, scheduling and aggregation code:

    - [Api]: the WooCommerce Store API scraper with the dynamic-pagination
      worker pool (JSON products, prices in minor currency units);
    - [Regex]: the my-shop scraper that reads detail pages with regular
      expressions;
    - [Goquery]: the my-shop scraper that reads detail pages with CSS
      selectors (catalogo-myshop/scraper/main.go).

    Strings are byte strings, as in Go.  [float64] is the kernel's binary64
    type, so price arithmetic and comparisons are the IEEE ones.  Network
    replies, the matches of regular expressions and the results of selector
    queries are inputs of the model. *)

From Stdlib Require Import ZArith List String Ascii Bool Lia Floats.
From Stdlib Require Import Permutation Sorted OrderedTypeEx.
From stdpp Require Import gmap strings list.
Import ListNotations.

Open Scope string_scope.
Open Scope list_scope.
Open Scope nat_scope.

(** ** Go library functions used by the scrapers *)

Module Go.

(** The ASCII part of [unicode.IsSpace]: tab, line feed, vertical tab,
    form feed, carriage return and space. *)
Definition isSpace (c : ascii) : bool :=
  let n := nat_of_ascii c in
  (Nat.leb 9 n && Nat.leb n 13) || Nat.eqb n 32.

Fixpoint dropSpaces (l : list ascii) : list ascii :=
  match l with
  | c :: l' => if isSpace c then dropSpaces l' else l
  | [] => []
  end.

(** [strings.TrimSpace] on ASCII white space. *)
Definition TrimSpace (s : string) : string :=
  string_of_list_ascii
    (rev (dropSpaces (rev (dropSpaces (list_ascii_of_string s))))).

(** One pass of [strings.Fields]: [cur] is the field being read, reversed. *)
Fixpoint fieldsFrom (cur : list ascii) (l : list ascii) : list string :=
  let flush rest :=
    match cur with
    | [] => rest
    | _ => string_of_list_ascii (rev cur) :: rest
    end in
  match l with
  | [] => flush []
  | c :: l' => if isSpace c then flush (fieldsFrom [] l')
               else fieldsFrom (c :: cur) l'
  end.

Definition Fields (s : string) : list string :=
  fieldsFrom [] (list_ascii_of_string s).

(** [strings.Split(s, sep)] for a one-byte separator. *)
Fixpoint splitFrom (sep : ascii) (cur : list ascii) (l : list ascii)
  : list string :=
  match l with
  | [] => [string_of_list_ascii (rev cur)]
  | c :: l' =>
      if Ascii.eqb c sep
      then string_of_list_ascii (rev cur) :: splitFrom sep [] l'
      else splitFrom sep (c :: cur) l'
  end.

Definition Split (s : string) (sep : ascii) : list string :=
  splitFrom sep [] (list_ascii_of_string s).

(** [strings.ReplaceAll(s, ",", "")]. *)
Definition removeCommas (s : string) : string :=
  string_of_list_ascii
    (List.filter (fun c => negb (Ascii.eqb c ","%char))
                 (list_ascii_of_string s)).

(** [strings.Contains]: byte-wise substring search. *)
Definition Contains (s sub : string) : bool :=
  match String.index 0 sub s with
  | Some _ => true
  | None => false
  end.

Definition HasPrefix (s p : string) : bool := String.prefix p s.

Definition toLower (c : ascii) : ascii :=
  let n := nat_of_ascii c in
  if Nat.leb 65 n && Nat.leb n 90 then ascii_of_nat (n + 32) else c.

Definition lowerString (s : string) : string :=
  string_of_list_ascii (List.map toLower (list_ascii_of_string s)).

(** [strings.EqualFold(s, t)] for a [t] made of ASCII letters other than
    k and s (the only ASCII letters that Unicode simple folding relates to
    a character outside ASCII): equality up to ASCII letter case. *)
Definition EqualFold (s t : string) : bool :=
  String.eqb (lowerString s) (lowerString t).

Definition isDigit (c : ascii) : bool :=
  let n := nat_of_ascii c in Nat.leb 48 n && Nat.leb n 57.

Definition digitVal (c : ascii) : Z := Z.of_nat (nat_of_ascii c) - 48.

(** The value of a non-empty run of decimal digits. *)
Fixpoint digitsFrom (acc : Z) (l : list ascii) : option Z :=
  match l with
  | [] => Some acc
  | c :: l' => if isDigit c then digitsFrom (10 * acc + digitVal c) l'
               else None
  end.

Definition parseDigits (l : list ascii) : option Z :=
  match l with
  | [] => None
  | _ => digitsFrom 0 l
  end.

Definition minInt64 : Z := - 2 ^ 63.
Definition maxInt64 : Z := 2 ^ 63 - 1.

(** [strconv.Atoi] on a 64-bit platform: an optional sign and decimal
    digits; [None] stands for a syntax or range error. *)
Definition Atoi (s : string) : option Z :=
  let signed :=
    match list_ascii_of_string s with
    | "-"%char :: l => option_map Z.opp (parseDigits l)
    | "+"%char :: l => parseDigits l
    | l => parseDigits l
    end in
  match signed with
  | Some n => if (minInt64 <=? n)%Z && (n <=? maxInt64)%Z then Some n
              else None
  | None => None
  end.

(** The conversion [float64(n)] of an integer: rounding to nearest even. *)
Definition float64_of_int (n : Z) : float :=
  SF2Prim (binary_normalize prec emax n 0 false).

(** [math.Round]: the nearest integer, halves away from zero.  A finite
    float is [m * 2^e]; with [e < 0] its integer part is [m / 2^(-e)]. *)
Definition Round (x : float) : float :=
  match Prim2SF x with
  | S754_finite s m e =>
      if (0 <=? e)%Z then x
      else
        let d := (2 ^ (- e))%Z in
        let q := (Z.pos m / d)%Z in
        let r := (Z.pos m mod d)%Z in
        let q' := if (d <=? 2 * r)%Z then (q + 1)%Z else q in
        let a := float64_of_int q' in
        if s then (- a)%float else a
  | _ => x
  end.

(** The square-and-multiply loop of [math.Pow]: the result is
    [a1 * 2^ae], the running power of the base is [x1 * 2^xe] with
    [x1] in [[0.5, 1)], and [i] is what is left of the exponent. *)
Fixpoint powLoop (fuel : nat) (i : Z) (x1 : float) (xe : Z)
         (a1 : float) (ae : Z) : float * Z :=
  match fuel with
  | O => (a1, ae)
  | S fuel' =>
      if (i =? 0)%Z then (a1, ae)
      else if (xe <? - 4096)%Z || (4096 <? xe)%Z then (a1, (ae + xe)%Z)
      else
        let '(a1', ae') :=
          if Z.odd i then ((a1 * x1)%float, (ae + xe)%Z) else (a1, ae) in
        let x2 := (x1 * x1)%float in
        let xe2 := (2 * xe)%Z in
        let '(x3, xe3) :=
          if (x2 <? 0.5)%float then ((x2 + x2)%float, (xe2 - 1)%Z)
          else (x2, xe2) in
        powLoop fuel' (i / 2)%Z x3 xe3 a1' ae'
  end.

(** [math.Pow(10, float64(n))] for an integer [n], as [convertPrice] calls
    it: the special cases of an exponent 0, 1 or beyond the 64-bit range,
    then the loop over the bits of the exponent. *)
Definition Pow10 (n : Z) : float :=
  let y := float64_of_int n in
  if (y =? 0)%float then 1%float
  else if (y =? 1)%float then 10%float
  else
    match Prim2SF (abs y) with
    | S754_finite _ m e =>
        let yi := if (0 <=? e)%Z then (Z.pos m * 2 ^ e)%Z
                  else (Z.pos m / 2 ^ (- e))%Z in
        if (2 ^ 63 <=? yi)%Z
        then (if (0 <? y)%float then infinity else 0%float)
        else
          let '(x1, xe) := Z.frexp 10%float in
          let '(a1, ae) := powLoop 64 yi x1 xe 1%float 0%Z in
          if (y <? 0)%float then Z.ldexp (1 / a1)%float (- ae)%Z
          else Z.ldexp a1 ae
    | _ => 1%float
    end.

Definition isLetter (c : ascii) : bool :=
  let n := nat_of_ascii c in
  (Nat.leb 65 n && Nat.leb n 90) || (Nat.leb 97 n && Nat.leb n 122).

Definition toUpper (c : ascii) : ascii :=
  let n := nat_of_ascii c in
  if Nat.leb 97 n && Nat.leb n 122 then ascii_of_nat (n - 32) else c.

(** [strings.Title] on ASCII text: a letter is capitalised when it follows
    a byte that is not a letter, a digit or an underscore. *)
Definition isSeparator (c : ascii) : bool :=
  Nat.ltb (nat_of_ascii c) 128
  && negb (isLetter c || isDigit c || Ascii.eqb c "_"%char).

Fixpoint titleFrom (prev : ascii) (l : list ascii) : list ascii :=
  match l with
  | [] => []
  | c :: l' => (if isSeparator prev then toUpper c else c) :: titleFrom c l'
  end.

Definition Title (s : string) : string :=
  string_of_list_ascii (titleFrom " "%char (list_ascii_of_string s)).

(** [strings.Join(parts, " ")]. *)
Fixpoint joinSpace (parts : list string) : string :=
  match parts with
  | [] => ""
  | [x] => x
  | x :: rest => x +:+ " " +:+ joinSpace rest
  end.

Fixpoint takeWhile (f : ascii -> bool) (l : list ascii) : list ascii :=
  match l with
  | c :: l' => if f c then c :: takeWhile f l' else []
  | [] => []
  end.

Fixpoint dropWhile (f : ascii -> bool) (l : list ascii) : list ascii :=
  match l with
  | c :: l' => if f c then dropWhile f l' else l
  | [] => []
  end.

(** [strconv.ParseFloat(s, 64)] on the literals [digits], [digits.digits],
    [digits.] and [.digits] with a mantissa below [2^53] and at most 22
    decimals, where Go takes its exact path and returns
    [float64(mantissa) / 10^decimals].  On any other string this function
    is 0, which is also what a caller that drops the error gets from
    [ParseFloat] for a string that is no number.  It stands for the
    parser in the worked examples. *)
Definition parseDecimal (s : string) : float :=
  let l := list_ascii_of_string s in
  let ip := takeWhile isDigit l in
  let rest := dropWhile isDigit l in
  let exact (fp : list ascii) : float :=
    match digitsFrom 0 (ip ++ fp) with
    | Some mant =>
        if (mant <? 2 ^ 53)%Z && Nat.leb (length fp) 22
           && negb (Nat.eqb (length (ip ++ fp)) 0)
        then (float64_of_int mant
              / float64_of_int (10 ^ Z.of_nat (length fp)))%float
        else 0%float
    | None => 0%float
    end in
  match rest with
  | [] => exact []
  | c :: fp => if Ascii.eqb c "."%char then exact fp else 0%float
  end.

(** The double quote, for the patterns that contain one. *)
Definition quote : string := String (ascii_of_nat 34) "".

(** [math.Pow(x, float64(n))] for a finite base [x] above 1 and an integer
    [n], as the retry loops call it with the bases 2 and 3: the special
    cases and the loop are those of [Pow10]. *)
Definition PowOf (x : float) (n : Z) : float :=
  let y := float64_of_int n in
  if (y =? 0)%float then 1%float
  else if (y =? 1)%float then x
  else
    match Prim2SF (abs y) with
    | S754_finite _ m e =>
        let yi := if (0 <=? e)%Z then (Z.pos m * 2 ^ e)%Z
                  else (Z.pos m / 2 ^ (- e))%Z in
        if (2 ^ 63 <=? yi)%Z
        then (if (0 <? y)%float then infinity else 0%float)
        else
          let '(x1, xe) := Z.frexp x in
          let '(a1, ae) := powLoop 64 yi x1 xe 1%float 0%Z in
          if (y <? 0)%float then Z.ldexp (1 / a1)%float (- ae)%Z
          else Z.ldexp a1 ae
    | _ => 1%float
    end.

(** The conversion [int64(f)] of a float: the fraction is dropped.  What
    a value outside the 64-bit range or a NaN gives depends on the
    platform; this is the answer of amd64. *)
Definition int64_of_float (f : float) : Z :=
  match Prim2SF f with
  | S754_zero _ => 0%Z
  | S754_finite s m e =>
      let a := if (0 <=? e)%Z then (Z.pos m * 2 ^ e)%Z
               else (Z.pos m / 2 ^ (- e))%Z in
      let v := if s then (- a)%Z else a in
      if (minInt64 <=? v)%Z && (v <=? maxInt64)%Z then v else minInt64
  | _ => minInt64
  end.

(** [strings.TrimPrefix]. *)
Definition TrimPrefix (s p : string) : string :=
  if HasPrefix s p
  then String.substring (String.length p)
                        (String.length s - String.length p) s
  else s.

(** The decimal digits of a number that is not negative, most significant
    first; 19 digits are enough for a 64-bit integer. *)
Fixpoint decimalDigits (fuel : nat) (n : Z) (acc : list ascii)
  : list ascii :=
  let acc' := ascii_of_nat (48 + Z.to_nat (n mod 10)) :: acc in
  match fuel with
  | O => acc'
  | S fuel' => if (n <? 10)%Z then acc' else decimalDigits fuel' (n / 10)%Z acc'
  end.

(** The verb [%d] of [fmt.Sprintf] on an [int]. *)
Definition Itoa (n : Z) : string :=
  if (n <? 0)%Z
  then String "-"%char (string_of_list_ascii (decimalDigits 19 (- n) []))
  else string_of_list_ascii (decimalDigits 19 n []).

End Go.

(** ** The output record, shared by the three scrapers *)

Record Product := mkProduct {
  Nombre : string;
  Precio : float;
  PrecioOriginal : float;
  EnOferta : bool;
  Stock : string;
  Imagen : string;
  Imagen64 : string;
  Link : string;
  Categoria : string;
  Subcategorias : list string
}.

(** The comparison [less] that all three [run] functions hand to
    [sort.Slice]: category first, then name.  Go compares strings byte-wise,
    which is [String.ltb]. *)
Definition productLess (p q : Product) : bool :=
  if negb (String.eqb (Categoria p) (Categoria q))
  then String.ltb (Categoria p) (Categoria q)
  else String.ltb (Nombre p) (Nombre q).

(** [insertionSortLessFunc] of Go's [sort] package, the routine [sort.Slice]
    runs on a slice of at most 12 elements: each element moves left while
    it is less than its left neighbour.  [insertBack] works on the sorted
    prefix held in reverse, so its head is the left neighbour. *)
Section InsertionSort.
Context {A : Type} (less : A -> A -> bool).

Fixpoint insertBack (x : A) (revPrefix : list A) : list A :=
  match revPrefix with
  | y :: r => if less x y then y :: insertBack x r else x :: revPrefix
  | [] => [x]
  end.

Definition insertionSort (l : list A) : list A :=
  rev (fold_left (fun revPrefix x => insertBack x revPrefix) l []).
End InsertionSort.

(** What [sort.Slice(products, less)] guarantees at every length: the slice
    is rearranged, and no element is less than an earlier one. *)
Definition sortedBy {A : Type} (less : A -> A -> bool) (l : list A) : Prop :=
  StronglySorted (fun a b => less b a = false) l.

Definition sortsWith {A : Type} (less : A -> A -> bool)
           (sorter : list A -> list A) : Prop :=
  forall l, Permutation (sorter l) l /\ sortedBy less (sorter l).

(** ** The WooCommerce Store API scraper *)

Module Api.

Record APIPrices := mkAPIPrices {
  Price : string;
  RegularPrice : string;
  SalePrice : string;
  CurrencyMinorUnit : Z
}.

Record APIImage := mkAPIImage { Src : string; Srcset : string }.

Record APICategory := mkAPICategory {
  ID : Z;
  CategoryName : string;   (* the JSON field `name` *)
  Slug : string;
  Parent : Z;
  Count : Z
}.

Record APIStockAvail := mkAPIStockAvail { Text : string; Class : string }.

Record APIProduct := mkAPIProduct {
  Name : string;
  Permalink : string;
  OnSale : bool;
  Prices : APIPrices;
  Images : list APIImage;
  Categories : list APICategory;
  StockAvailability : APIStockAvail
}.

Record task := mkTask { slug : string; categoryName : string; page : Z }.

Definition maxRetries : Z := 3.
Definition perPage : Z := 20.

(** Wrap-around of [atomic.Int32] and of [int]. *)
Definition wrapInt32 (z : Z) : Z := ((z + 2 ^ 31) mod 2 ^ 32 - 2 ^ 31)%Z.
Definition wrapInt64 (z : Z) : Z := ((z + 2 ^ 63) mod 2 ^ 64 - 2 ^ 63)%Z.

Definition ignoreSlugs (s : string) : bool := String.eqb s "uncategorized".

(** [convertPrice]: a minor-unit price string to a decimal amount. *)
Definition convertPrice (priceStr : string) (minorUnit : Z) : float :=
  if String.eqb priceStr "" then 0%float
  else
    match Go.Atoi priceStr with
    | None => 0%float
    | Some val =>
        let divisor := Go.Pow10 minorUnit in
        (Go.Round (Go.float64_of_int val / divisor * 100) / 100)%float
    end.

(** [extractSrcsetURL]: the first entry of the srcset whose width
    descriptor is [width]. *)
Fixpoint firstWithWidth (entries : list string) (width : string) : string :=
  match entries with
  | [] => ""
  | entry :: rest =>
      match Go.Fields (Go.TrimSpace entry) with
      | [url; w] => if String.eqb w width then url
                    else firstWithWidth rest width
      | _ => firstWithWidth rest width
      end
  end.

Definition extractSrcsetURL (srcset width : string) : string :=
  firstWithWidth (Go.Split srcset ","%char) width.

(** The body of the loop of [parseProducts], block by block. *)

(** [imagen] and [imagen64]: the first image and its 100w rendition. *)
Definition productImages (ap : APIProduct) : string * string :=
  match Images ap with
  | img :: _ =>
      let imagen := Src img in
      let imagen64 := extractSrcsetURL (Srcset img) "100w" in
      (imagen, if String.eqb imagen64 "" then imagen else imagen64)
  | [] => ("", "")
  end.

(** Price: use sale_price if on sale, otherwise price. *)
Definition productPrice (ap : APIProduct) : float :=
  let precio := convertPrice (Price (Prices ap))
                             (CurrencyMinorUnit (Prices ap)) in
  if OnSale ap && negb (String.eqb (SalePrice (Prices ap)) "")
  then convertPrice (SalePrice (Prices ap)) (CurrencyMinorUnit (Prices ap))
  else precio.

Definition parseProduct (ap : APIProduct) (categoryName : string) : Product :=
  {| Nombre := Name ap;
     Precio := productPrice ap;
     PrecioOriginal := convertPrice (RegularPrice (Prices ap))
                                    (CurrencyMinorUnit (Prices ap));
     EnOferta := OnSale ap;
     Stock := Text (StockAvailability ap);
     Imagen := (productImages ap).1;
     Imagen64 := (productImages ap).2;
     Link := Permalink ap;
     Categoria := categoryName;
     Subcategorias := List.map CategoryName (Categories ap) |}.

Definition parseProducts (apiProducts : list APIProduct)
           (categoryName : string) : list Product :=
  List.map (fun ap => parseProduct ap categoryName) apiProducts.

(** *** Category discovery and [main] *)

(** What came of a call that loops over network replies: its value, an
    error, or no answer within the fuel given. *)
Inductive outcome (A : Type) :=
| Returned (a : A)
| Failed
| StillRunning.
Arguments Returned {A} a.
Arguments Failed {A}.
Arguments StillRunning {A}.

(** [fetchCategories]: [reply p] is the decoded body of page [p] of the
    categories endpoint, [None] when the request, the status, the read or
    the decoding fails.  The loop ends at the first empty page. *)
Fixpoint fetchCategoriesFrom (fuel : nat)
         (reply : Z -> option (list APICategory)) (page : Z)
         (categories : gmap string string)
  : outcome (gmap string string) :=
  match fuel with
  | O => StillRunning
  | S fuel' =>
      match reply page with
      | None => Failed
      | Some [] => Returned categories
      | Some cats =>
          let categories' :=
            fold_left
              (fun m c =>
                 if (Parent c =? 0)%Z && (0 <? Count c)%Z
                    && negb (ignoreSlugs (Slug c))
                 then <[CategoryName c := Slug c]> m else m)
              cats categories in
          fetchCategoriesFrom fuel' reply (wrapInt64 (page + 1)) categories'
      end
  end.

Definition fetchCategories (fuel : nat)
           (reply : Z -> option (list APICategory))
  : outcome (gmap string string) :=
  fetchCategoriesFrom fuel reply 1%Z ∅.

(** How [main] leaves category discovery: [log.Fatalf] (the process exits
    with status 1 and [run] is never called), or the call of [run]. *)
Inductive mainStep :=
| Fatal (message : string)
| CallRun (categories : gmap string string)
| Discovering.

Definition main (fuel : nat) (reply : Z -> option (list APICategory))
  : mainStep :=
  match fetchCategories fuel reply with
  | StillRunning => Discovering
  | Failed => Fatal "[FATAL]  Error obteniendo categorías"
  | Returned categories =>
      if Nat.eqb (size categories) 0
      then Fatal "[FATAL]  No se encontraron categorías"
      else CallRun categories
  end.

(** *** The worker pool of [run]

    Goroutines are interleaved one atomic operation at a time: a channel
    send or receive, an operation on the atomic counter, the end of a
    fetch. *)

(** Capacity of [tasksCh] and of [results]. *)
Definition chanCap : nat := 100.

(** The reply of [fetchPage] once its retries are over. *)
Inductive fetchResult :=
| FetchErr
| FetchOk (apiProducts : list APIProduct).

(** The operations on shared state that a worker performs for one task. *)
Inductive action :=
| SendResults (products : list Product)   (* results <- products *)
| PendingAdd (delta : Z)                  (* pending.Add(delta) *)
| Enqueue (t : task)                      (* tasksCh <- task{...} *)
| Sleep.                                  (* time.Sleep(delay) *)

Definition nextTask (t : task) : task :=
  {| slug := slug t;
     categoryName := categoryName t;
     page := wrapInt64 (page t + 1) |}.

(** The body of the loop of [worker] after [fetchPage] has returned. *)
Definition workerBody (t : task) (r : fetchResult) : list action :=
  match r with
  | FetchErr => [PendingAdd (-1)]
  | FetchOk apiProducts =>
      if Nat.eqb (length apiProducts) 0 then [PendingAdd (-1)]
      else
        let products := parseProducts apiProducts (categoryName t) in
        [SendResults products;
         PendingAdd 1;
         Enqueue (nextTask t);
         PendingAdd (-1);
         Sleep]
  end.

(** Where a worker goroutine stands. *)
Inductive wstate :=
| Receiving                       (* at [for t := range tasks] *)
| Fetching (t : task)             (* inside [fetchPage] *)
| Running (rest : list action)    (* in the loop body, [rest] to do *)
| Exited                          (* the range loop ended: [wg.Done] *)
| Panicked.                       (* sent on a closed channel *)

Definition continue (rest : list action) : wstate :=
  match rest with
  | [] => Receiving
  | _ => Running rest
  end.

(** Where the goroutine of [run] stands. *)
Inductive mstate :=
| Seeding (todo : list (string * string))   (* next: [pending.Add(1)] *)
| SeedSend (t : task) (todo : list (string * string))
                                            (* next: [tasksCh <- task] *)
| Collecting                                (* [for batch := range results] *)
| Finished                                  (* after the final write *)
| MainPanicked.

(** The monitor goroutine, started once the seeding loop is over. *)
Inductive monstate := NotStarted | Polling | Closed.

(** What the fetches returned, in the order they ended. *)
Inductive event :=
| PageFailed (t : task)
| PageEmpty (t : task)
| PageBatch (t : task).

Definition fetchEvent (t : task) (r : fetchResult) : event :=
  match r with
  | FetchErr => PageFailed t
  | FetchOk apiProducts =>
      if Nat.eqb (length apiProducts) 0 then PageEmpty t else PageBatch t
  end.

Record state := mkState {
  pending : Z;                       (* the atomic.Int32 *)
  tasksCh : list task;               (* buffered, oldest first *)
  tasksClosed : bool;
  results : list (list Product);     (* buffered, oldest first *)
  resultsClosed : bool;
  workers : list wstate;
  mainSt : mstate;
  monitor : monstate;
  allProducts : list Product;
  output : list Product;             (* the JSON file, writes succeeding *)
  history : list event
}.

Definition setPending v s :=
  mkState v (tasksCh s) (tasksClosed s) (results s) (resultsClosed s)
          (workers s) (mainSt s) (monitor s) (allProducts s) (output s)
          (history s).
Definition setTasksCh v s :=
  mkState (pending s) v (tasksClosed s) (results s) (resultsClosed s)
          (workers s) (mainSt s) (monitor s) (allProducts s) (output s)
          (history s).
Definition setTasksClosed v s :=
  mkState (pending s) (tasksCh s) v (results s) (resultsClosed s)
          (workers s) (mainSt s) (monitor s) (allProducts s) (output s)
          (history s).
Definition setResults v s :=
  mkState (pending s) (tasksCh s) (tasksClosed s) v (resultsClosed s)
          (workers s) (mainSt s) (monitor s) (allProducts s) (output s)
          (history s).
Definition setResultsClosed v s :=
  mkState (pending s) (tasksCh s) (tasksClosed s) (results s) v
          (workers s) (mainSt s) (monitor s) (allProducts s) (output s)
          (history s).
Definition setWorker (i : nat) (w : wstate) s :=
  mkState (pending s) (tasksCh s) (tasksClosed s) (results s)
          (resultsClosed s) (<[i := w]> (workers s)) (mainSt s)
          (monitor s) (allProducts s) (output s) (history s).
Definition setMain v s :=
  mkState (pending s) (tasksCh s) (tasksClosed s) (results s)
          (resultsClosed s) (workers s) v (monitor s) (allProducts s)
          (output s) (history s).
Definition setMonitor v s :=
  mkState (pending s) (tasksCh s) (tasksClosed s) (results s)
          (resultsClosed s) (workers s) (mainSt s) v (allProducts s)
          (output s) (history s).
Definition setProducts all out s :=
  mkState (pending s) (tasksCh s) (tasksClosed s) (results s)
          (resultsClosed s) (workers s) (mainSt s) (monitor s) all out
          (history s).
Definition addEvent e s :=
  mkState (pending s) (tasksCh s) (tasksClosed s) (results s)
          (resultsClosed s) (workers s) (mainSt s) (monitor s)
          (allProducts s) (output s) (history s ++ [e]).

(** [run] after the reset of the output file: the workers are started
    first, then the seeding loop walks the map in the order [order]. *)
Definition init (order : list (string * string)) (numWorkers : Z) : state :=
  {| pending := 0;
     tasksCh := []; tasksClosed := false;
     results := []; resultsClosed := false;
     workers := replicate (Z.to_nat numWorkers) Receiving;
     mainSt := Seeding order;
     monitor := NotStarted;
     allProducts := []; output := [];
     history := [] |}.

Section Steps.
(** [sort.Slice] with the comparison of [run]. *)
Variable sortSlice : list Product -> list Product.

Inductive step : state -> state -> Prop :=
(* run: the seeding loop *)
| step_seed_add s name sl todo :
    mainSt s = Seeding ((name, sl) :: todo) ->
    step s (setMain (SeedSend (mkTask sl name 1) todo)
              (setPending (wrapInt32 (pending s + 1)) s))
| step_seed_send s t todo :
    mainSt s = SeedSend t todo ->
    tasksClosed s = false ->
    length (tasksCh s) < chanCap ->
    step s (setMain (Seeding todo) (setTasksCh (tasksCh s ++ [t]) s))
| step_seed_send_closed s t todo :
    mainSt s = SeedSend t todo ->
    tasksClosed s = true ->
    step s (setMain MainPanicked s)
| step_seed_done s :
    mainSt s = Seeding [] ->
    step s (setMain Collecting (setMonitor Polling s))
(* the monitor: [if pending.Load() <= 0 { close(tasksCh) }] *)
| step_monitor_close s :
    monitor s = Polling ->
    (pending s <= 0)%Z ->
    step s (setMonitor Closed (setTasksClosed true s))
(* a worker *)
| step_receive s i t rest :
    workers s !! i = Some Receiving ->
    tasksCh s = t :: rest ->
    step s (setWorker i (Fetching t) (setTasksCh rest s))
| step_receive_closed s i :
    workers s !! i = Some Receiving ->
    tasksCh s = [] ->
    tasksClosed s = true ->
    step s (setWorker i Exited s)
| step_fetch s i t r :
    workers s !! i = Some (Fetching t) ->
    step s (addEvent (fetchEvent t r)
              (setWorker i (continue (workerBody t r)) s))
| step_send_results s i products rest :
    workers s !! i = Some (Running (SendResults products :: rest)) ->
    resultsClosed s = false ->
    length (results s) < chanCap ->
    step s (setWorker i (continue rest)
              (setResults (results s ++ [products]) s))
| step_send_results_closed s i products rest :
    workers s !! i = Some (Running (SendResults products :: rest)) ->
    resultsClosed s = true ->
    step s (setWorker i Panicked s)
| step_pending_add s i delta rest :
    workers s !! i = Some (Running (PendingAdd delta :: rest)) ->
    step s (setWorker i (continue rest)
              (setPending (wrapInt32 (pending s + delta)) s))
| step_enqueue s i t rest :
    workers s !! i = Some (Running (Enqueue t :: rest)) ->
    tasksClosed s = false ->
    length (tasksCh s) < chanCap ->
    step s (setWorker i (continue rest)
              (setTasksCh (tasksCh s ++ [t]) s))
| step_enqueue_closed s i t rest :
    workers s !! i = Some (Running (Enqueue t :: rest)) ->
    tasksClosed s = true ->
    step s (setWorker i Panicked s)
| step_sleep s i rest :
    workers s !! i = Some (Running (Sleep :: rest)) ->
    step s (setWorker i (continue rest) s)
(* [wg.Wait(); close(results)] *)
| step_close_results s :
    monitor s <> NotStarted ->
    resultsClosed s = false ->
    Forall (fun w => w = Exited) (workers s) ->
    step s (setResultsClosed true s)
(* run: the collection loop and the final sorted write *)
| step_collect s batch rest :
    mainSt s = Collecting ->
    results s = batch :: rest ->
    step s (setProducts (allProducts s ++ batch) (allProducts s ++ batch)
              (setResults rest s))
| step_final s :
    mainSt s = Collecting ->
    results s = [] ->
    resultsClosed s = true ->
    step s (setMain Finished
              (setProducts (sortSlice (allProducts s))
                           (sortSlice (allProducts s)) s)).

Inductive reachable (s0 : state) : state -> Prop :=
| reach_init : reachable s0 s0
| reach_step s s' : reachable s0 s -> step s s' -> reachable s0 s'.

(** The same steps as a function, to run a schedule: a label names the
    goroutine that moves (and, for a fetch, what the network
    answered); [None] when that goroutine cannot move. *)
Inductive label :=
| MainMoves
| MonitorMoves
| CloserMoves
| WorkerMoves (i : nat)
| FetchEnds (i : nat) (r : fetchResult).

Definition isExited (w : wstate) : bool :=
  match w with Exited => true | _ => false end.

Definition fireMain (s : state) : option state :=
  match mainSt s with
  | Seeding ((name, sl) :: todo) =>
      Some (setMain (SeedSend (mkTask sl name 1) todo)
              (setPending (wrapInt32 (pending s + 1)) s))
  | Seeding [] => Some (setMain Collecting (setMonitor Polling s))
  | SeedSend t todo =>
      if tasksClosed s then Some (setMain MainPanicked s)
      else if Nat.ltb (length (tasksCh s)) chanCap
      then Some (setMain (Seeding todo) (setTasksCh (tasksCh s ++ [t]) s))
      else None
  | Collecting =>
      match results s with
      | batch :: rest =>
          Some (setProducts (allProducts s ++ batch)
                  (allProducts s ++ batch) (setResults rest s))
      | [] =>
          if resultsClosed s
          then Some (setMain Finished
                       (setProducts (sortSlice (allProducts s))
                          (sortSlice (allProducts s)) s))
          else None
      end
  | Finished | MainPanicked => None
  end.

Definition fireWorker (i : nat) (s : state) : option state :=
  match workers s !! i with
  | Some Receiving =>
      match tasksCh s with
      | t :: rest => Some (setWorker i (Fetching t) (setTasksCh rest s))
      | [] => if tasksClosed s then Some (setWorker i Exited s) else None
      end
  | Some (Running (SendResults products :: rest)) =>
      if resultsClosed s then Some (setWorker i Panicked s)
      else if Nat.ltb (length (results s)) chanCap
      then Some (setWorker i (continue rest)
                   (setResults (results s ++ [products]) s))
      else None
  | Some (Running (PendingAdd delta :: rest)) =>
      Some (setWorker i (continue rest)
              (setPending (wrapInt32 (pending s + delta)) s))
  | Some (Running (Enqueue t :: rest)) =>
      if tasksClosed s then Some (setWorker i Panicked s)
      else if Nat.ltb (length (tasksCh s)) chanCap
      then Some (setWorker i (continue rest)
                   (setTasksCh (tasksCh s ++ [t]) s))
      else None
  | Some (Running (Sleep :: rest)) => Some (setWorker i (continue rest) s)
  | _ => None
  end.

Definition fire (l : label) (s : state) : option state :=
  match l with
  | MainMoves => fireMain s
  | MonitorMoves =>
      match monitor s with
      | Polling =>
          if (pending s <=? 0)%Z
          then Some (setMonitor Closed (setTasksClosed true s))
          else None
      | _ => None
      end
  | CloserMoves =>
      match monitor s with
      | NotStarted => None
      | _ =>
          if negb (resultsClosed s) && forallb isExited (workers s)
          then Some (setResultsClosed true s)
          else None
      end
  | WorkerMoves i => fireWorker i s
  | FetchEnds i r =>
      match workers s !! i with
      | Some (Fetching t) =>
          Some (addEvent (fetchEvent t r)
                  (setWorker i (continue (workerBody t r)) s))
      | _ => None
      end
  end.

Fixpoint schedule (ls : list label) (s : state) : option state :=
  match ls with
  | [] => Some s
  | l :: ls' =>
      match fire l s with
      | Some s' => schedule ls' s'
      | None => None
      end
  end.
End Steps.

End Api.


(** ** The two my-shop scrapers: what they share *)

Module Myshop.

Definition baseURL : string := "https://www.my-shop.mx".
Definition shopURL : string := baseURL +:+ "/shop".
Definition maxRetries : Z := 3.

(** What the listing phase keeps of a product. *)
Record productEntry := mkEntry {
  url : string;
  imagen64 : string;
  category : string
}.

Definition absURL (rel : string) : string :=
  if String.eqb rel "" || Go.HasPrefix rel "http" then rel
  else baseURL +:+ rel.

(** The labels of a breadcrumb, already trimmed (and unescaped, in the
    scraper that reads the markup itself): the home label is skipped. *)
Definition breadcrumbSubcats (names : list string) : list string :=
  List.filter
    (fun t => negb (String.eqb t "")
              && negb (Go.EqualFold t "home")
              && negb (Go.EqualFold t "inicio"))
    names.

(** [subcats[:len(subcats)-1]] when there is an element to drop. *)
Definition dropLast (subcats : list string) : list string :=
  match subcats with
  | [] => []
  | _ => removelast subcats
  end.

(** The end of [scrapeProduct], the same in both scrapers: the category
    of the listing phase first, then the last breadcrumb label left, then
    "General". *)
Definition resolveCategory (entryCategory : string) (subcats : list string)
  : string * list string :=
  if negb (String.eqb entryCategory "") then
    (entryCategory,
     if Nat.eqb (length subcats) 0 then [entryCategory] else subcats)
  else if Nat.ltb 0 (length subcats) then
    (List.last subcats "", subcats)
  else
    ("General", ["General"]).

(** Phase 2 of [run]: the entries of each category in turn, an entry kept
    when its URL has not been seen. *)
Definition addEntries (acc : gset string * list productEntry)
           (entries : list productEntry)
  : gset string * list productEntry :=
  fold_left
    (fun acc e =>
       if decide (url e ∈ acc.1) then acc
       else ({[url e]} ∪ acc.1, acc.2 ++ [e]))
    entries acc.

Definition collectAll (listing : string -> string -> list productEntry)
           (order : list (string * string)) : list productEntry :=
  (fold_left (fun acc c => addEntries acc (listing c.1 c.2))
             order (∅, [])).2.

(** How [run] ends: the error of category discovery, returned before
    phase 2, or the three phases carried out.  [launched] counts the
    worker goroutines started, [jobs] is what went into the jobs channel
    and [written] what [writeJSON] was given. *)
Inductive runResult :=
| RunError
| RunDone (launched : nat) (jobs : list productEntry)
          (written : list Product).

Section Run.
(** [sort.Slice] with the comparison of [run]. *)
Variable sortSlice : list Product -> list Product.
(** [fetchCategories]: [None] when the request failed after its
    retries. *)
Variable discovered : option (gmap string string).
(** [collectFromCategory] for a category name and URL. *)
Variable listing : string -> string -> list productEntry.
(** [scrapeProduct]: [None] when the detail page could not be fetched. *)
Variable scrape : productEntry -> option Product.

(** [run].  The map is walked in some order.  Each job is taken by
    exactly one worker, which sends the product unless the fetch
    failed, so the collected slice is the products of the successful
    jobs in the order the workers finished; with no worker the results
    channel is closed at once and nothing is collected. *)
Definition run (numWorkers : Z) (res : runResult) : Prop :=
  match discovered with
  | None => res = RunError
  | Some cats =>
      exists order products,
        Permutation order (map_to_list cats) /\
        (if (0 <? numWorkers)%Z
         then Permutation products (omap scrape (collectAll listing order))
         else products = []) /\
        res = RunDone (Z.to_nat numWorkers) (collectAll listing order)
                      (sortSlice products)
  end.
End Run.

(** The end of the loop body that scans a listing page, the same in both
    scrapers: a URL already seen is skipped, a new one is recorded, its
    entry appended and counted.  [found] is at most the length of the
    slice, so it cannot overflow. *)
Definition keepNew (catName : string)
           (acc : gset string * list productEntry * nat)
           (fullURL imagen64 : string)
  : gset string * list productEntry * nat :=
  if decide (fullURL ∈ acc.1.1) then acc
  else ({[fullURL]} ∪ acc.1.1,
        acc.1.2 ++ [mkEntry fullURL imagen64 catName],
        S acc.2).

End Myshop.

(** ** The my-shop scraper that reads the markup with regular expressions *)

Module Regex.
Import Myshop.

(** A detail page: its text, and what the regular expressions of
    [scrapeProduct] match in it.  A name is the capture after
    [strings.TrimSpace] and [html.UnescapeString]. *)
Record detailPage := mkDetailPage {
  body : string;
  itempName : option string;        (* reItempName *)
  h1Name : option string;           (* reH1, tags removed *)
  hiddenPrice : option string;      (* reHiddenPrice, capture 1 *)
  shownPrice : option string;       (* rePrice, capture 1 *)
  listPriceText : option string;    (* reListPrice, capture 1 *)
  imgSrc : option string;           (* reImgSrc, capture 1 *)
  breadcrumbNames : list string     (* reBreadcrumb, every match *)
}.

(** The shop page: the matches of [reLabel] (URL and label) and of
    [reCatHref] (path and slug). *)
Record shopPage := mkShopPage {
  labelled : list (string * string);
  hrefs : list (string * string)
}.

(** [reCombNoExist] and [reAddToCart] are literal patterns. *)
Definition reCombNoExist (body : string) : bool :=
  Go.Contains body "Esta combinación no existe".
Definition reAddToCart (body : string) : bool :=
  Go.Contains body ("id=" +:+ Go.quote +:+ "add_to_cart" +:+ Go.quote).

Definition fetchCategories (reply : option shopPage)
  : option (gmap string string) :=
  match reply with
  | None => None
  | Some pg =>
      let cats :=
        fold_left
          (fun (m : gmap string string) c =>
             let name := Go.TrimSpace c.2 in
             if negb (String.eqb name "") then <[name := absURL c.1]> m
             else m)
          (labelled pg) ∅ in
      Some
        (if Nat.eqb (size cats) 0 then
           fold_left
             (fun (m : gmap string string) c =>
                let parts := Go.Split c.2 "-"%char in
                if Nat.leb 2 (length parts)
                then <[Go.Title (Go.joinSpace (removelast parts))
                       := absURL c.1]> m
                else m)
             (hrefs pg) cats
         else cats)
  end.

Section WithParser.
(** [strconv.ParseFloat(s, 64)], the error dropped. *)
Variable ParseFloat : string -> float.

Definition parsePrice (s : string) : float :=
  ParseFloat (Go.removeCommas s).

(** The blocks of [scrapeProduct], in the order of the source. *)

(** Price: the hidden machine-readable price, else the first amount
    after a dollar sign, else the zero of the fresh record. *)
Definition pagePrice (pg : detailPage) : float :=
  match hiddenPrice pg with
  | Some m => parsePrice m
  | None =>
      match shownPrice pg with
      | Some m => parsePrice m
      | None => 0%float
      end
  end.

(** Original/list price, with the sale flag. *)
Definition pageListPrice (pg : detailPage) (precio : float)
  : float * bool :=
  match listPriceText pg with
  | Some m =>
      let listPrice := parsePrice m in
      if (precio <? listPrice)%float then (listPrice, true)
      else (precio, false)
  | None => (precio, false)
  end.

(** Stock. *)
Definition pageStock (pg : detailPage) : string :=
  if reCombNoExist (body pg) then "Agotado"
  else if reAddToCart (body pg) then "Disponible"
  else "Desconocido".

(** Image: [Imagen] and [Imagen64]. *)
Definition pageImages (pg : detailPage) (entry : productEntry)
  : string * string :=
  let imagen :=
    match imgSrc pg with
    | Some m => absURL m
    | None => ""
    end in
  let imagen := if String.eqb imagen "" then imagen64 entry else imagen in
  (imagen,
   if String.eqb (imagen64 entry) "" then imagen else imagen64 entry).

(** Categories from breadcrumb. *)
Definition pageCategories (pg : detailPage) (entry : productEntry)
  : string * list string :=
  resolveCategory (category entry)
                  (dropLast (breadcrumbSubcats (breadcrumbNames pg))).

(** [scrapeProduct] once the page is there. *)
Definition scrapePage (pg : detailPage) (entry : productEntry) : Product :=
  {| Nombre :=
       match itempName pg with
       | Some n => n
       | None => match h1Name pg with Some n => n | None => "" end
       end;
     Precio := pagePrice pg;
     PrecioOriginal := (pageListPrice pg (pagePrice pg)).1;
     EnOferta := (pageListPrice pg (pagePrice pg)).2;
     Stock := pageStock pg;
     Imagen := (pageImages pg entry).1;
     Imagen64 := (pageImages pg entry).2;
     Link := url entry;
     Categoria := (pageCategories pg entry).1;
     Subcategorias := (pageCategories pg entry).2 |}.

(** [scrapeProduct]: [fetchHTML url] is [None] when the request failed
    after its retries. *)
Definition scrapeProduct (fetchHTML : string -> option detailPage)
           (entry : productEntry) : option Product :=
  match fetchHTML (url entry) with
  | None => None
  | Some pg => Some (scrapePage pg entry)
  end.
End WithParser.

(** *** The listing phase *)

(** A listing page: its text and, for every match of [reProductHref] in
    order, the path it captures with the image that [reImgSrc] captures
    in the bytes around the first occurrence of the match ([None] when it
    finds none). *)
Record listingPage := mkListingPage {
  listingBody : string;
  productMatches : list (string * option string)
}.

(** The loop over the matches of one page. *)
Definition scanListing (catName : string)
           (matches : list (string * option string))
           (acc : gset string * list productEntry * nat)
  : gset string * list productEntry * nat :=
  fold_left
    (fun acc m =>
       if Go.Contains m.1 "/category/" || Go.Contains m.1 "/cart"
          || Go.Contains m.1 "/wishlist"
       then acc
       else keepNew catName acc (absURL m.1)
                    (match m.2 with
                     | Some src => absURL src
                     | None => ""
                     end))
    matches acc.

(** [collectFromCategory]: [fetchHTML u] is [None] when the request failed
    after its retries; the result is [None] when the loop is still
    running after [fuel] pages. *)
Fixpoint collectFrom (fuel : nat) (fetchHTML : string -> option listingPage)
         (catName catURL : string) (page : Z)
         (seen : gset string) (entries : list productEntry)
  : option (list productEntry) :=
  match fuel with
  | O => None
  | S fuel' =>
      let pageURL :=
        if (1 <? page)%Z then
          let sep := if Go.Contains catURL "?" then "&" else "?" in
          catURL +:+ sep +:+ "page=" +:+ Go.Itoa page
        else catURL in
      match fetchHTML pageURL with
      | None => Some entries
      | Some pg =>
          let scanned :=
            scanListing catName (productMatches pg) (seen, entries, 0) in
          if Nat.eqb scanned.2 0 then Some scanned.1.2
          else
            let nextPage :=
              "page=" +:+ Go.Itoa (Api.wrapInt64 (page + 1)) in
            if negb (Go.Contains (listingBody pg) nextPage)
            then Some scanned.1.2
            else collectFrom fuel' fetchHTML catName catURL
                             (Api.wrapInt64 (page + 1))
                             scanned.1.1 scanned.1.2
      end
  end.

Definition collectFromCategory (fuel : nat)
           (fetchHTML : string -> option listingPage)
           (catName catURL : string) : option (list productEntry) :=
  collectFrom fuel fetchHTML catName catURL 1%Z ∅ [].

End Regex.

(** ** The my-shop scraper that reads the markup with CSS selectors
    (catalogo-myshop/scraper/main.go) *)

Module Goquery.
Import Myshop.

(** A detail page: what the selector queries of [scrapeProduct] return.
    A text is the [Text()] of an element, untrimmed; the lists follow
    document order. *)
Record detailPage := mkDetailPage {
  h1Text : string;                 (* h1, first *)
  priceContent : option string;    (* [itemprop='price'], attribute content *)
  priceTexts : list string;        (* #product_price, .o_product_price, ... *)
  looseTexts : list string;        (* span, div, p *)
  delText : string;                (* del, .oe_price_strikethrough, ...: first *)
  stockTexts : list string;        (* .availability_message, ... *)
  bodyText : string;               (* body *)
  imgSrc : string;                 (* img[src*='/web/image/product'], src *)
  breadcrumbTexts : list string    (* ol.breadcrumb li, nav[...] li *)
}.

(** [reFirstNum.FindString] for the pattern \d[\d,]*\.?\d* : from the
    first digit, the digits and commas, then a dot and digits if a dot
    comes next. *)
Definition reFirstNum (s : string) : string :=
  let l := Go.dropWhile (fun c => negb (Go.isDigit c))
                        (list_ascii_of_string s) in
  let digitOrComma c := Go.isDigit c || Ascii.eqb c ","%char in
  let head := Go.takeWhile digitOrComma l in
  let rest := Go.dropWhile digitOrComma l in
  string_of_list_ascii
    (match rest with
     | c :: rest' =>
         if Ascii.eqb c "."%char
         then head ++ c :: Go.takeWhile Go.isDigit rest'
         else head
     | [] => head
     end).

(** The first text of the list that is not blank, trimmed; [""] when
    there is none. *)
Fixpoint firstText (texts : list string) : string :=
  match texts with
  | [] => ""
  | t :: rest =>
      let t := Go.TrimSpace t in
      if String.eqb t "" then firstText rest else t
  end.

(** The last resort for the price: the first short text with a dollar
    sign and the currency code. *)
Fixpoint firstPriceLike (texts : list string) : string :=
  match texts with
  | [] => ""
  | t :: rest =>
      let t := Go.TrimSpace t in
      if Go.Contains t "$" && Go.Contains t "MXN"
         && Nat.ltb (String.length t) 60
      then t else firstPriceLike rest
  end.

(** The shop page: [href] and text of every category link. *)
Definition fetchCategories (reply : option (list (string * string)))
  : option (gmap string string) :=
  match reply with
  | None => None
  | Some links =>
      Some
        (fold_left
           (fun (m : gmap string string) a =>
              let name := Go.TrimSpace a.2 in
              if negb (String.eqb name "") && negb (String.eqb a.1 "")
              then <[name := absURL a.1]> m else m)
           links ∅)
  end.

Section WithParser.
(** [strconv.ParseFloat(s, 64)], the error dropped. *)
Variable ParseFloat : string -> float.

Definition parsePrice (s : string) : float :=
  let m := reFirstNum (Go.removeCommas s) in
  if String.eqb m "" then 0%float else ParseFloat m.

(** The blocks of [scrapeProduct], in the order of the source. *)

(** Price: the content attribute when there is one, else the visible
    price text. *)
Definition pagePrice (pg : detailPage) : float :=
  let '(priceStr, hasMeta) :=
    match priceContent pg with
    | Some c => (c, true)
    | None => ("", false)
    end in
  if hasMeta && negb (String.eqb priceStr "") then ParseFloat priceStr
  else
    let priceText := firstText (priceTexts pg) in
    let priceText :=
      if String.eqb priceText "" then firstPriceLike (looseTexts pg)
      else priceText in
    parsePrice priceText.

(** Original price, with the sale flag. *)
Definition pageListPrice (pg : detailPage) (precio : float)
  : float * bool :=
  let delText := Go.TrimSpace (delText pg) in
  if negb (String.eqb delText "") then
    let original := parsePrice delText in
    (original, (precio <? original)%float)
  else (precio, false).

(** Stock: the specific selectors, then the text of the body. *)
Definition pageStock (pg : detailPage) : string :=
  let stockText := firstText (stockTexts pg) in
  if String.eqb stockText "" then
    if Go.Contains (bodyText pg) "Esta combinación no existe"
    then "Agotado"
    else if Go.Contains (bodyText pg) "Añadir al carrito"
            || Go.Contains (bodyText pg) "Agregar al carrito"
    then "Disponible"
    else "Desconocido"
  else stockText.

(** Image: [Imagen] and [Imagen64]. *)
Definition pageImages (pg : detailPage) (entry : productEntry)
  : string * string :=
  let imagen :=
    if negb (String.eqb (imgSrc pg) "") then absURL (imgSrc pg)
    else imagen64 entry in
  (imagen,
   if String.eqb (imagen64 entry) "" then imagen else imagen64 entry).

(** Categories: breadcrumb and category of the listing phase. *)
Definition pageCategories (pg : detailPage) (entry : productEntry)
  : string * list string :=
  resolveCategory
    (category entry)
    (dropLast (breadcrumbSubcats
                 (List.map Go.TrimSpace (breadcrumbTexts pg)))).

(** [scrapeProduct] once the document is there. *)
Definition scrapePage (pg : detailPage) (entry : productEntry) : Product :=
  {| Nombre := Go.TrimSpace (h1Text pg);
     Precio := pagePrice pg;
     PrecioOriginal := (pageListPrice pg (pagePrice pg)).1;
     EnOferta := (pageListPrice pg (pagePrice pg)).2;
     Stock := pageStock pg;
     Imagen := (pageImages pg entry).1;
     Imagen64 := (pageImages pg entry).2;
     Link := url entry;
     Categoria := (pageCategories pg entry).1;
     Subcategorias := (pageCategories pg entry).2 |}.

(** [scrapeProduct]: [fetchDoc url] is [None] when the request failed
    after its retries. *)
Definition scrapeProduct (fetchDoc : string -> option detailPage)
           (entry : productEntry) : option Product :=
  match fetchDoc (url entry) with
  | None => None
  | Some pg => Some (scrapePage pg entry)
  end.
End WithParser.

(** *** The listing phase *)

(** [isProductURL]: a path under /shop/ that is no category page and
    whose last dash-separated part is a number. *)
Definition isProductURL (href : string) : bool :=
  if negb (Go.HasPrefix href "/shop/") then false
  else if Go.Contains href "/category/" then false
  else
    let parts := Go.Split (Go.TrimPrefix href "/shop/") "-"%char in
    if Nat.ltb (length parts) 2 then false
    else
      match Go.Atoi (List.last parts "") with
      | Some _ => true
      | None => false
      end.

(** A listing page: for every anchor with an [href], in document order,
    the [href] and the [src] of the first image inside the anchor ([""]
    when it has none). *)
Definition listingPage : Type := list (string * string).

(** The loop over the anchors of one page. *)
Definition scanListing (catName : string) (anchors : listingPage)
           (acc : gset string * list productEntry * nat)
  : gset string * list productEntry * nat :=
  fold_left
    (fun acc a =>
       if negb (isProductURL a.1) then acc
       else keepNew catName acc (absURL a.1) (absURL a.2))
    anchors acc.

(** [collectFromCategory]: [fetchDoc u] is [None] when the request failed
    after its retries; the result is [None] when the loop is still
    running after [fuel] pages. *)
Fixpoint collectFrom (fuel : nat) (fetchDoc : string -> option listingPage)
         (catName catURL : string) (page : Z)
         (seen : gset string) (entries : list productEntry)
  : option (list productEntry) :=
  match fuel with
  | O => None
  | S fuel' =>
      let pageURL :=
        if (1 <? page)%Z then catURL +:+ "?page=" +:+ Go.Itoa page
        else catURL in
      match fetchDoc pageURL with
      | None => Some entries
      | Some anchors =>
          let scanned := scanListing catName anchors (seen, entries, 0) in
          if Nat.eqb scanned.2 0 then Some scanned.1.2
          else
            let nextPage :=
              "page=" +:+ Go.Itoa (Api.wrapInt64 (page + 1)) in
            let nextExists :=
              existsb (fun a => Go.Contains a.1 nextPage) anchors in
            if negb nextExists then Some scanned.1.2
            else collectFrom fuel' fetchDoc catName catURL
                             (Api.wrapInt64 (page + 1))
                             scanned.1.1 scanned.1.2
      end
  end.

Definition collectFromCategory (fuel : nat)
           (fetchDoc : string -> option listingPage)
           (catName catURL : string) : option (list productEntry) :=
  collectFrom fuel fetchDoc catName catURL 1%Z ∅ [].

End Goquery.

(** ** The retry loop of [fetchPage], [fetchHTML] and [fetchDoc] *)

Module Retry.

(** What one attempt meets.  [fetchPage] and [fetchHTML] read the body
    before they look at the status, so a failed read hides the status;
    [fetchDoc] reads the body while it parses it, after the status
    checks.  [decoded] is [None] when the body cannot be decoded
    ([json.Unmarshal], [goquery.NewDocumentFromReader]); [fetchHTML]
    keeps the body as it is. *)
Inductive reply (A : Type) :=
| BadRequest                               (* http.NewRequest fails *)
| NetworkError                             (* client.Do fails *)
| ReadError                                (* io.ReadAll fails *)
| Response (status : Z) (decoded : option A).
Arguments BadRequest {A}.
Arguments NetworkError {A}.
Arguments ReadError {A}.
Arguments Response {A} status decoded.

(** What the loop does to the outside, in order. *)
Inductive effect :=
| Get                                      (* client.Do(req) *)
| SleepFor (nanoseconds : Z).              (* time.Sleep(backoff) *)

Definition maxRetries : Z := 3.

(** [time.Second], in the unit of [time.Duration]. *)
Definition Second : Z := 1000000000.

(** [time.Duration(math.Pow(2, float64(attempt))) * time.Second]. *)
Definition backoff (attempt : Z) : Z :=
  Api.wrapInt64 (Go.int64_of_float (Go.PowOf 2 attempt) * Second).

(** [time.Duration(math.Pow(3, float64(attempt+1))) * time.Second]. *)
Definition rateLimitBackoff (attempt : Z) : Z :=
  Api.wrapInt64
    (Go.int64_of_float (Go.PowOf 3 (Api.wrapInt64 (attempt + 1))) * Second).

Section Loop.
Context {A : Type}.
(** The reply that the attempt of each number meets. *)
Variable replies : Z -> reply A.

(** The attempts from [attempt] on, [left] of them. *)
Fixpoint attemptsFrom (left : nat) (attempt : Z) : option A * list effect :=
  match left with
  | O => (None, [])
  | S left' =>
      let waited :=
        if (0 <? attempt)%Z then [SleepFor (backoff attempt)] else [] in
      let continue (effects : list effect) :=
        let '(result, later) := attemptsFrom left' (attempt + 1)%Z in
        (result, waited ++ effects ++ later) in
      match replies attempt with
      | BadRequest => (None, waited)
      | NetworkError => continue [Get]
      | ReadError => continue [Get]
      | Response status decoded =>
          if (status =? 429)%Z
          then continue [Get; SleepFor (rateLimitBackoff attempt)]
          else if negb (status =? 200)%Z then continue [Get]
          else
            match decoded with
            | None => continue [Get]
            | Some a => (Some a, waited ++ [Get])
            end
      end
  end.

(** [for attempt := range maxRetries]. *)
Definition fetch : option A * list effect :=
  attemptsFrom (Z.to_nat maxRetries) 0%Z.
End Loop.

(** An attempt after which the loop goes on. *)
Definition retried {A : Type} (r : reply A) : bool :=
  match r with
  | BadRequest => false
  | NetworkError | ReadError => true
  | Response status decoded =>
      (status =? 429)%Z || negb (status =? 200)%Z
      || match decoded with None => true | Some _ => false end
  end.

(** An attempt that the server answers with 429 Too Many Requests. *)
Definition rateLimited {A : Type} (r : reply A) : bool :=
  match r with
  | Response status _ => (status =? 429)%Z
  | _ => false
  end.

Definition requests (effects : list effect) : nat :=
  length (List.filter (fun e => match e with Get => true | _ => false end)
                      effects).

Definition slept (effects : list effect) : Z :=
  fold_right (fun e acc => match e with
                           | SleepFor d => (d + acc)%Z
                           | Get => acc
                           end) 0%Z effects.

End Retry.

(** ** The order of the output *)

(** The sort key of a product and the lexicographic order on keys, with
    strings compared byte-wise. *)
Definition sortKey (p : Product) : string * string := (Categoria p, Nombre p).

Definition keyCompare (k1 k2 : string * string) : comparison :=
  match String.compare k1.1 k2.1 with
  | Eq => String.compare k1.2 k2.2
  | c => c
  end.



(** The sorted prefix of the insertion sort, held in reverse, is sorted
    downwards: no element is less than a later one of the reversed list. *)
Definition downSorted {A : Type} (less : A -> A -> bool) (r : list A) : Prop :=
  StronglySorted (fun a b => less a b = false) r.

(** ** The listing phase of the my-shop scrapers *)



(** The state of the scan of a category: the URLs of the entries are
    distinct and are exactly the URLs seen, and every entry satisfies
    [Q]. *)
Definition scanOk (Q : Myshop.productEntry -> Prop)
           (acc : gset string * list Myshop.productEntry * nat) : Prop :=
  NoDup (List.map Myshop.url acc.1.2)
  /\ (forall u, u ∈ acc.1.1 <-> In u (List.map Myshop.url acc.1.2))
  /\ List.Forall Q acc.1.2.

(** Where an entry of the selector scraper comes from: a product link of
    a page that was fetched. *)
Definition goqueryListed (fetchDoc : string -> option Goquery.listingPage)
           (catName : string) (e : Myshop.productEntry) : Prop :=
  exists pageURL anchors a,
    fetchDoc pageURL = Some anchors /\ In a anchors
    /\ Goquery.isProductURL a.1 = true
    /\ e = Myshop.mkEntry (Myshop.baseURL +:+ a.1) (Myshop.absURL a.2)
                          catName.

(** The same for the scraper with regular expressions: a match of a page
    that was fetched, whose path is none of the three kinds skipped. *)
Definition regexListed (fetchHTML : string -> option Regex.listingPage)
           (catName : string) (e : Myshop.productEntry) : Prop :=
  exists pageURL pg m,
    fetchHTML pageURL = Some pg /\ In m (Regex.productMatches pg)
    /\ Go.Contains m.1 "/category/" = false
    /\ Go.Contains m.1 "/cart" = false
    /\ Go.Contains m.1 "/wishlist" = false
    /\ e = Myshop.mkEntry (Myshop.absURL m.1)
                          (match m.2 with
                           | Some src => Myshop.absURL src
                           | None => ""
                           end)
                          catName.

(** ** Prices read from text *)

(** A decimal literal: digits, or digits, a dot and digits (none is
    allowed after the dot). *)
Definition decimalLiteral (m : string) : Prop :=
  exists ip fp : list ascii,
    ip <> [] /\ Forall (fun c => Go.isDigit c = true) ip
    /\ Forall (fun c => Go.isDigit c = true) fp
    /\ (m = string_of_list_ascii ip
        \/ m = string_of_list_ascii (ip ++ "."%char :: fp)).

(** ** The pending counter and the tasks it stands for *)

Module Pool.
Import Api.

(** What the remaining operations of a worker will still do to the
    counter and the queue: a decrement to come stands for a task held, an
    enqueue to come for a follow-up already counted. *)
Definition owedAction (a : action) : Z :=
  match a with
  | PendingAdd delta => (- delta)%Z
  | Enqueue _ => 1%Z
  | _ => 0%Z
  end.

Definition owedActions (acts : list action) : Z :=
  fold_right (fun a acc => (owedAction a + acc)%Z) 0%Z acts.

Definition owed (w : wstate) : Z :=
  match w with
  | Fetching _ => 1%Z
  | Running acts => owedActions acts
  | _ => 0%Z
  end.

Definition owedWorkers (ws : list wstate) : Z :=
  fold_right (fun w acc => (owed w + acc)%Z) 0%Z ws.

Definition owedMain (m : mstate) : Z :=
  match m with
  | SeedSend _ _ => 1%Z
  | _ => 0%Z
  end.

(** The tasks that are counted and not yet retired: queued, held by a
    worker, or counted and about to be sent. *)
Definition liveTasks (s : state) : Z :=
  (Z.of_nat (length (tasksCh s)) + owedWorkers (workers s)
   + owedMain (mainSt s))%Z.

(** The operations a worker can have left: the tails of [workerBody]. *)
Inductive bodySuffix : list action -> Prop :=
| suffix_retire : bodySuffix [PendingAdd (-1)]
| suffix_send products t :
    bodySuffix [SendResults products; PendingAdd 1; Enqueue t;
                PendingAdd (-1); Sleep]
| suffix_register t :
    bodySuffix [PendingAdd 1; Enqueue t; PendingAdd (-1); Sleep]
| suffix_enqueue t : bodySuffix [Enqueue t; PendingAdd (-1); Sleep]
| suffix_retire_sleep : bodySuffix [PendingAdd (-1); Sleep]
| suffix_sleep : bodySuffix [Sleep].

Definition wfWorker (w : wstate) : Prop :=
  match w with
  | Running acts => bodySuffix acts
  | Panicked => False
  | _ => True
  end.

(** A worker that holds no task and has no follow-up to send. *)
Definition quiescent (w : wstate) : Prop :=
  w = Receiving \/ w = Exited \/ w = Running [Sleep].

(** The goroutine of [run] and the monitor: the monitor starts when the
    seeding loop ends. *)
Definition mainOk (s : state) : Prop :=
  match mainSt s with
  | Seeding _ | SeedSend _ _ =>
      monitor s = NotStarted /\ tasksClosed s = false
      /\ resultsClosed s = false
  | Collecting | Finished => monitor s <> NotStarted
  | MainPanicked => False
  end.

Record poolInv (numWorkers : Z) (s : state) : Prop := {
  inv_main : mainOk s;
  inv_workers : length (workers s) = Z.to_nat numWorkers;
  inv_wf : Forall wfWorker (workers s);
  inv_queue : length (tasksCh s) <= chanCap;
  inv_pending : pending s = liveTasks s;
  inv_closed :
    tasksClosed s = true -> tasksCh s = [] /\ Forall quiescent (workers s);
  inv_results :
    resultsClosed s = true -> Forall (fun w => w = Exited) (workers s)
}.

(** Where the pagination of a category stands. *)
Definition toSeed (m : mstate) (name : string) : Prop :=
  match m with
  | Seeding todo => exists sl, In (name, sl) todo
  | SeedSend t todo => categoryName t = name \/ exists sl, In (name, sl) todo
  | _ => False
  end.

Definition carries (w : wstate) (name : string) : Prop :=
  match w with
  | Fetching t => categoryName t = name
  | Running acts => exists t, In (Enqueue t) acts /\ categoryName t = name
  | _ => False
  end.

(** The pagination of the category ended: on an empty page, or on a page
    whose fetch failed after its retries. *)
Definition ended (s : state) (name : string) : Prop :=
  exists t, categoryName t = name
            /\ (In (PageEmpty t) (history s) \/ In (PageFailed t) (history s)).

Definition endedOnEmptyPage (s : state) (name : string) : Prop :=
  exists t, categoryName t = name /\ In (PageEmpty t) (history s).

Definition inProgress (s : state) (name : string) : Prop :=
  toSeed (mainSt s) name
  \/ (exists t, In t (tasksCh s) /\ categoryName t = name)
  \/ (exists i w, workers s !! i = Some w /\ carries w name).

Definition progressInv (order : list (string * string)) (s : state) : Prop :=
  forall name sl, In (name, sl) order -> inProgress s name \/ ended s name.

(** *** The paginations under way *)

Definition isEnqueue (a : action) : bool :=
  match a with Enqueue _ => true | _ => false end.

(** A worker that holds the pagination of a category: it is fetching a
    page, or has the next page still to enqueue. *)
Definition holding (w : wstate) : nat :=
  match w with
  | Fetching _ => 1
  | Running acts => if existsb isEnqueue acts then 1 else 0
  | _ => 0
  end.

Definition holdingAll (ws : list wstate) : nat :=
  fold_right (fun w n => holding w + n) 0 ws.

Definition unseeded (m : mstate) : nat :=
  match m with
  | Seeding todo => length todo
  | SeedSend _ todo => S (length todo)
  | _ => 0
  end.

(** The paginations under way or still to start. *)
Definition paginations (s : state) : nat :=
  length (tasksCh s) + holdingAll (workers s) + unseeded (mainSt s).

(** The operations a running worker has left are a tail of the loop
    body. *)
Definition inBody (w : wstate) : Prop :=
  match w with
  | Running acts => bodySuffix acts
  | _ => True
  end.

(** *** Tasks and products of the discovered categories *)

Definition eventTask (e : event) : task :=
  match e with PageFailed t | PageEmpty t | PageBatch t => t end.

(** A task of a discovered category: its name with its slug is an entry
    of the category map. *)
Definition discoveredTask (order : list (string * string)) (t : task)
  : Prop :=
  In (categoryName t, slug t) order.

Definition discoveredProduct (order : list (string * string)) (p : Product)
  : Prop :=
  exists sl, In (Categoria p, sl) order.

Definition actionTagged (order : list (string * string)) (a : action)
  : Prop :=
  match a with
  | SendResults products => Forall (discoveredProduct order) products
  | Enqueue t => discoveredTask order t
  | _ => True
  end.

Definition workerTagged (order : list (string * string)) (w : wstate)
  : Prop :=
  match w with
  | Fetching t => discoveredTask order t
  | Running acts => Forall (actionTagged order) acts
  | _ => True
  end.

Definition mainTagged (order : list (string * string)) (m : mstate)
  : Prop :=
  match m with
  | Seeding todo => incl todo order
  | SeedSend t todo => discoveredTask order t /\ incl todo order
  | _ => True
  end.

Record tagInv (order : list (string * string)) (s : state) : Prop := {
  tag_queue : Forall (discoveredTask order) (tasksCh s);
  tag_main : mainTagged order (mainSt s);
  tag_workers : Forall (workerTagged order) (workers s);
  tag_results : Forall (Forall (discoveredProduct order)) (results s);
  tag_all : Forall (discoveredProduct order) (allProducts s);
  tag_output : Forall (discoveredProduct order) (output s);
  tag_history :
    Forall (fun e => discoveredTask order (eventTask e)) (history s)
}.

(** *** Products on their way to the file *)






(** *** The order of the pages of a category *)

(** The task [t] may be fetched after the events [h]: it is a first page,
    or the page before it returned products. *)
Definition follows (h : list event) (t : task) : Prop :=
  page t = 1%Z \/ exists t0, t = nextTask t0 /\ In (PageBatch t0) h.

Definition liveTask (s : state) (t : task) : Prop :=
  In t (tasksCh s)
  \/ (exists todo, mainSt s = SeedSend t todo)
  \/ (exists i, workers s !! i = Some (Fetching t))
  \/ (exists i acts, workers s !! i = Some (Running acts)
                     /\ In (Enqueue t) acts).

Definition pagesInv (s : state) : Prop :=
  (forall t, liveTask s t -> follows (history s) t)
  /\ forall n e, history s !! n = Some e ->
                 follows (take n (history s)) (eventTask e).

(** A worker whose next operation is the send of a follow-up task. *)
Definition atEnqueue (w : wstate) : Prop :=
  exists t rest, w = Running (Enqueue t :: rest).

(** The seeding loop has seeded [m] categories, the task queue holds [q]
    tasks, the first [k] of the [n] workers are about to enqueue a
    follow-up, worker [k] is at [wk] and the other workers wait for a
    task; [r] batches are in the results channel.  Nothing is closed and
    the monitor has not started. *)
Definition seedingShape (order : list (string * string)) (n q m k : nat)
           (wk : wstate) (r : nat) (s : state) : Prop :=
  length (tasksCh s) = q
  /\ mainSt s = Seeding (drop m order)
  /\ length (workers s) = n
  /\ (forall i w, i < k -> workers s !! i = Some w -> atEnqueue w)
  /\ (forall w, workers s !! k = Some w -> w = wk)
  /\ (forall i w, k < i -> workers s !! i = Some w -> w = Receiving)
  /\ tasksClosed s = false /\ resultsClosed s = false
  /\ monitor s = NotStarted
  /\ length (results s) = r.

(** No goroutine can move. *)
Definition stuck (sortSlice : list Product -> list Product) (s : state)
  : Prop :=
  forall s', ~ step sortSlice s s'.

End Pool.

(** ** Worked inputs *)

Module Examples.

(** An API product without a sale: price and regular price are both
    2700 minor units. *)
Definition apiPlain (sale : string) : Api.APIProduct :=
  Api.mkAPIProduct "Funda" "https://buytiti.com/producto/funda/" false
    (Api.mkAPIPrices "2700" "2700" sale 2) [] []
    (Api.mkAPIStockAvail "Hay existencias" "in-stock").

(** An API product on sale: 30.00 regular, 24.50 sale. *)
Definition apiOnSale : Api.APIProduct :=
  Api.mkAPIProduct "Cable" "https://buytiti.com/producto/cable/" true
    (Api.mkAPIPrices "2450" "3000" "2450" 2) [] []
    (Api.mkAPIStockAvail "Hay existencias" "in-stock").

(** An API product whose flag is off although its regular price is
    above its price. *)
Definition apiUnflagged : Api.APIProduct :=
  Api.mkAPIProduct "Mica" "https://buytiti.com/producto/mica/" false
    (Api.mkAPIPrices "2700" "3000" "" 2) [] []
    (Api.mkAPIStockAvail "Hay existencias" "in-stock").


Definition entry (category : string) : Myshop.productEntry :=
  Myshop.mkEntry "https://www.my-shop.mx/shop/funda-12" "" category.

(** A detail page read with selectors: price 20 in the content
    attribute, 10 struck through, an availability message, and the
    breadcrumb Home / Phones / Cases / My Product. *)
Definition goqueryPage : Goquery.detailPage :=
  Goquery.mkDetailPage "My Product" (Some "20") [] [] " $ 10.00 "
    ["En existencia"] "Añadir al carrito" ""
    ["Home"; "Phones"; "Cases"; "My Product"].

(** A detail page read with regular expressions: price 24.5, list
    price 30.00, the add-to-cart button, the same breadcrumb. *)
Definition regexPage : Regex.detailPage :=
  Regex.mkDetailPage
    ("<form><a id=" +:+ Go.quote +:+ "add_to_cart" +:+ Go.quote
     +:+ ">Agregar</a></form>")
    (Some "My Product") None (Some "24.5") None (Some "30.00") None
    ["Home"; "Phones"; "Cases"; "My Product"].

(** Schedules of the worker pool, with one worker. *)

Definition sorter : list Product -> list Product :=
  insertionSort productLess.

Definition fundas : list (string * string) := [("Fundas", "fundas")].

Definition twoCategories : list (string * string) :=
  [("Cables", "cables"); ("Fundas", "fundas")].

(** A task is fetched, its page has products, the follow-up is enqueued. *)
Definition pageWith (ap : Api.APIProduct) : list Api.label :=
  [Api.WorkerMoves 0;                      (* receive *)
   Api.FetchEnds 0 (Api.FetchOk [ap]);
   Api.WorkerMoves 0;                      (* results <- products *)
   Api.WorkerMoves 0;                      (* pending.Add(1) *)
   Api.WorkerMoves 0;                      (* tasksCh <- next page *)
   Api.WorkerMoves 0;                      (* pending.Add(-1) *)
   Api.WorkerMoves 0].                     (* sleep *)

(** A task is fetched and its page is empty. *)
Definition emptyPage : list Api.label :=
  [Api.WorkerMoves 0; Api.FetchEnds 0 (Api.FetchOk []); Api.WorkerMoves 0].

(** A task is fetched and the fetch fails after its retries. *)
Definition failedPage : list Api.label :=
  [Api.WorkerMoves 0; Api.FetchEnds 0 Api.FetchErr; Api.WorkerMoves 0].

(** The monitor closes the queue, the worker leaves, the results are
    closed, [n] batches are collected and the final write is made. *)
Definition shutdown (n : nat) : list Api.label :=
  [Api.MonitorMoves; Api.WorkerMoves 0; Api.CloserMoves]
    ++ repeat Api.MainMoves (n + 1).

Definition seedAll (n : nat) : list Api.label :=
  repeat Api.MainMoves (2 * n + 1).

(** One category: a page with a product, then an empty page. *)
Definition fullRun : list Api.label :=
  seedAll 1 ++ pageWith apiOnSale ++ emptyPage ++ shutdown 1.

(** One category whose first page cannot be fetched. *)
Definition failedRun : list Api.label :=
  seedAll 1 ++ failedPage.

(** Two categories: the worker finds the first one empty before the
    second one is seeded. *)
Definition earlyWorker : list Api.label :=
  [Api.MainMoves; Api.MainMoves] ++ emptyPage.



Definition shopListing (name url : string) : list Myshop.productEntry :=
  [entry name; entry name].

Definition shopScrape : Myshop.productEntry -> option Product :=
  Goquery.scrapeProduct Go.parseDecimal (fun _ => Some goqueryPage).






(** The categories endpoint of the API: a first page with a root
    category, a child of it, the ignored slug and a root without
    products; then the empty page. *)
Definition categoryPages (p : Z) : option (list Api.APICategory) :=
  if (p =? 1)%Z then
    Some [Api.mkAPICategory 10 "Fundas" "fundas" 0 5;
          Api.mkAPICategory 11 "Fundas iPhone" "fundas-iphone" 10 3;
          Api.mkAPICategory 1 "Uncategorized" "uncategorized" 0 7;
          Api.mkAPICategory 12 "Vacia" "vacia" 0 0]
  else if (p =? 2)%Z then Some []
  else None.


(** A category of two listing pages.  The first shows a product twice,
    the category itself and the link to the second page; the second shows
    that product again and a new one. *)
Definition casesURL : string :=
  "https://www.my-shop.mx/shop/category/cases-3".

Definition listingDocs (u : string) : option Goquery.listingPage :=
  if String.eqb u casesURL then
    Some [("/shop/funda-12", "/web/image/product/12");
          ("/shop/funda-12", "");
          ("/shop/category/cases-3", "");
          ("/shop/category/cases-3?page=2", "")]
  else if String.eqb u (casesURL +:+ "?page=2") then
    Some [("/shop/funda-12", ""); ("/shop/funda-13", "")]
  else None.

(** The same category as the scraper with regular expressions reads
    it. *)
Definition listingBodies (u : string) : option Regex.listingPage :=
  if String.eqb u casesURL then
    Some (Regex.mkListingPage
            "<a href=/shop/category/cases-3?page=2>2</a>"
            [("/shop/funda-12", Some "/web/image/product/12");
             ("/shop/funda-12", None);
             ("/shop/category/cases-3", None)])
  else if String.eqb u (casesURL +:+ "?page=2") then
    Some (Regex.mkListingPage
            "" [("/shop/funda-12", None); ("/shop/funda-13", None)])
  else None.

(** The product pages of that shop. *)
Definition catalogue : gset string :=
  {[ "https://www.my-shop.mx/shop/funda-12";
     "https://www.my-shop.mx/shop/funda-13" ]}.

Definition casesEntries : list Myshop.productEntry :=
  [Myshop.mkEntry "https://www.my-shop.mx/shop/funda-12"
                  "https://www.my-shop.mx/web/image/product/12" "Cases";
   Myshop.mkEntry "https://www.my-shop.mx/shop/funda-13" "" "Cases"].

(** The worker has fetched the first page of "Fundas" and has its
    products still to send. *)
Definition batchInHand : list Api.label :=
  seedAll 1 ++ [Api.WorkerMoves 0; Api.FetchEnds 0 (Api.FetchOk [apiOnSale])].


(** A shop with 102 categories. *)
Definition manyCategories : list (string * string) :=
  map (fun i => let n := Go.Itoa (Z.of_nat i) in
                ("Categoria " +:+ n, "categoria-" +:+ n))
      (seq 1 102).

End Examples.

(** * Properties *)

(** ** Comparisons of [float64] values *)

Section FloatOrder.
Open Scope float_scope.


Lemma SFcompare_refl (a : spec_float) :
  SFcompare a a = None \/ SFcompare a a = Some Eq.
Proof.
  destruct a as [sa|sa| |sa ma ea]; simpl; auto.
  - destruct sa; auto.
  - right. f_equal. rewrite Z.compare_refl.
    change (Pos.compare_cont Eq ma ma) with (Pos.compare ma ma).
    rewrite Pos.compare_refl. destruct sa; reflexivity.
Qed.

Lemma float_ltb_irrefl (x : float) : (x <? x) = false.
Proof.
  rewrite FloatAxioms.ltb_spec. unfold SFltb.
  destruct (SFcompare_refl (Prim2SF x)) as [-> | ->]; reflexivity.
Qed.




End FloatOrder.

(** ** Prices, sale flag and stock *)

Section Normalizer.
Open Scope float_scope.
Import Myshop.

(** The parser of decimal literals, whatever it returns. *)
Variable ParseFloat : string -> float.

(** *** Price resolution in the API scraper *)





(** *** List price *)

Lemma regex_list_price_cases (pg : Regex.detailPage) (precio : float) :
  let r := Regex.pageListPrice ParseFloat pg precio in
  match Regex.listPriceText pg with
  | None => r = (precio, false)
  | Some m =>
      let l := Regex.parsePrice ParseFloat m in
      (r = (l, true) /\ (precio <? l) = true)
      \/ (r = (precio, false) /\ (precio <? l) = false)
  end.
Proof.
  unfold Regex.pageListPrice. destruct (Regex.listPriceText pg) as [m|].
  - cbv zeta. destruct (precio <? Regex.parsePrice ParseFloat m) eqn:E; auto.
  - reflexivity.
Qed.



(** *** Sale flag *)

(** C5, as amended.  In both my-shop scrapers [EnOferta] is the
    comparison of the list price with the price; the API scraper copies
    the flag of the API. *)
Theorem on_sale_flag :
  (forall pg entry,
      let p := Regex.scrapePage ParseFloat pg entry in
      EnOferta p = (Precio p <? PrecioOriginal p))
  /\ (forall pg entry,
         let p := Goquery.scrapePage ParseFloat pg entry in
         EnOferta p = (Precio p <? PrecioOriginal p))
  /\ (forall ap category,
         EnOferta (Api.parseProduct ap category) = Api.OnSale ap).
Proof.
  split; [|split].
  - intros pg entry p. subst p.
    cbn [Regex.scrapePage Precio PrecioOriginal EnOferta].
    pose proof (regex_list_price_cases pg (Regex.pagePrice ParseFloat pg)) as H.
    cbv zeta in H. destruct (Regex.listPriceText pg) as [m|].
    + destruct H as [[-> Hlt] | [-> Hlt]]; cbn [fst snd].
      * now rewrite Hlt.
      * now rewrite float_ltb_irrefl.
    + rewrite H. cbn [fst snd]. now rewrite float_ltb_irrefl.
  - intros pg entry p. subst p.
    cbn [Goquery.scrapePage Precio PrecioOriginal EnOferta].
    unfold Goquery.pageListPrice.
    destruct (negb (String.eqb (Go.TrimSpace (Goquery.delText pg)) ""));
      cbn [fst snd]; [reflexivity | now rewrite float_ltb_irrefl].
  - reflexivity.
Qed.

(** C5: the API product [Examples.apiUnflagged] has its flag off and a
    regular price of 30 above its price of 27: [EnOferta] is false
    although the list price exceeds the price. *)
Lemma on_sale_counterexample :
  let p := Api.parseProduct Examples.apiUnflagged "Micas" in
  Precio p = 27 /\ PrecioOriginal p = 30
  /\ (Precio p <? PrecioOriginal p) = true /\ EnOferta p = false.
Proof. vm_compute. repeat split. Qed.

(** *** Stock *)



End Normalizer.

(** ** Category and subcategories *)

Section Categories.
Import Myshop.

Variable ParseFloat : string -> float.



Lemma resolveCategory_default : resolveCategory "" [] = ("General", ["General"]).
Proof. reflexivity. Qed.

Lemma resolveCategory_nonempty (cat : string) (subcats : list string) :
  (resolveCategory cat subcats).2 <> [].
Proof.
  unfold resolveCategory.
  destruct (negb (String.eqb cat "")); cbn [snd].
  - destruct subcats; cbn; congruence.
  - destruct subcats; cbn; congruence.
Qed.





(** C10.  Whenever [scrapeProduct] returns a product, in either my-shop
    scraper, its [Subcategorias] holds at least one label. *)
Theorem subcategorias_nonempty :
  forall (fetchHTML : string -> option Regex.detailPage)
         (fetchDoc : string -> option Goquery.detailPage)
         (entry : productEntry) (p : Product),
    Regex.scrapeProduct ParseFloat fetchHTML entry = Some p
    \/ Goquery.scrapeProduct ParseFloat fetchDoc entry = Some p ->
    Subcategorias p <> [] /\ 1 <= length (Subcategorias p).
Proof.
  intros fetchHTML fetchDoc entry p H.
  assert (Hne : Subcategorias p <> []).
  { destruct H as [H | H].
    - unfold Regex.scrapeProduct in H.
      destruct (fetchHTML (url entry)) as [pg|]; [|discriminate].
      injection H as <-. cbn [Regex.scrapePage Subcategorias].
      apply resolveCategory_nonempty.
    - unfold Goquery.scrapeProduct in H.
      destruct (fetchDoc (url entry)) as [pg|]; [|discriminate].
      injection H as <-. cbn [Goquery.scrapePage Subcategorias].
      apply resolveCategory_nonempty. }
  split; [exact Hne|]. destruct (Subcategorias p); [congruence | cbn; lia].
Qed.

End Categories.

(** The page [Examples.goqueryPage], fetched for an entry without a listing
    category, gives a product with two subcategories. *)
Lemma subcategorias_nonempty_witness :
  let p := Goquery.scrapePage Go.parseDecimal Examples.goqueryPage
                              (Examples.entry "") in
  Goquery.scrapeProduct Go.parseDecimal (fun _ => Some Examples.goqueryPage)
                        (Examples.entry "") = Some p
  /\ Subcategorias p = ["Phones"; "Cases"]
  /\ Subcategorias p <> [] /\ 1 <= length (Subcategorias p).
Proof.
  split; [reflexivity|]. split; [vm_compute; reflexivity|].
  apply (subcategorias_nonempty Go.parseDecimal
           (fun _ => None) (fun _ => Some Examples.goqueryPage)
           (Examples.entry "")).
  right. reflexivity.
Defined.

(** ** Sorting *)

Section StringOrder.

Lemma string_compare_eq (a b : string) : String.compare a b = Eq <-> a = b.
Proof. exact (String_as_OT.cmp_eq a b). Qed.

Lemma string_compare_lt_trans (a b c : string) :
  String.compare a b = Lt -> String.compare b c = Lt ->
  String.compare a c = Lt.
Proof.
  intros H1 H2. apply String_as_OT.cmp_lt.
  apply String_as_OT.lt_trans with b; now apply String_as_OT.cmp_lt.
Qed.

Lemma keyCompare_eq (k1 k2 : string * string) :
  keyCompare k1 k2 = Eq <-> k1 = k2.
Proof.
  destruct k1 as [a1 b1], k2 as [a2 b2]. unfold keyCompare. cbn [fst snd].
  destruct (String.compare a1 a2) eqn:E.
  - apply string_compare_eq in E. subst a2. rewrite string_compare_eq.
    split; [now intros -> | now intros [= ->]].
  - split; [discriminate|]. intros [= -> ->].
    assert (H : String.compare a2 a2 = Eq) by now apply string_compare_eq.
    congruence.
  - split; [discriminate|]. intros [= -> ->].
    assert (H : String.compare a2 a2 = Eq) by now apply string_compare_eq.
    congruence.
Qed.

Lemma keyCompare_antisym (k1 k2 : string * string) :
  keyCompare k2 k1 = CompOpp (keyCompare k1 k2).
Proof.
  destruct k1 as [a1 b1], k2 as [a2 b2]. unfold keyCompare. cbn [fst snd].
  rewrite (String.compare_antisym a2 a1), (String.compare_antisym b2 b1).
  now destruct (String.compare a1 a2).
Qed.

Lemma keyCompare_lt_trans (k1 k2 k3 : string * string) :
  keyCompare k1 k2 = Lt -> keyCompare k2 k3 = Lt -> keyCompare k1 k3 = Lt.
Proof.
  destruct k1 as [a1 b1], k2 as [a2 b2], k3 as [a3 b3].
  unfold keyCompare. cbn [fst snd].
  destruct (String.compare a1 a2) eqn:E12; try discriminate;
    destruct (String.compare a2 a3) eqn:E23; try discriminate; intros H1 H2.
  - apply string_compare_eq in E12, E23. subst a2 a3.
    assert (H : String.compare a1 a1 = Eq) by now apply string_compare_eq.
    rewrite H. eapply string_compare_lt_trans; eauto.
  - apply string_compare_eq in E12. subst a2. now rewrite E23.
  - apply string_compare_eq in E23. subst a3. now rewrite E12.
  - now rewrite (string_compare_lt_trans _ _ _ E12 E23).
Qed.

(** [productLess] is the strict part of the order of keys. *)
Lemma productLess_key (p q : Product) :
  productLess p q = true <-> keyCompare (sortKey p) (sortKey q) = Lt.
Proof.
  unfold productLess, keyCompare, sortKey, String.ltb. cbn [fst snd].
  destruct (String.eqb_spec (Categoria p) (Categoria q)) as [e | ne];
    cbn [negb].
  - rewrite e.
    assert (H : String.compare (Categoria q) (Categoria q) = Eq)
      by now apply string_compare_eq.
    rewrite H. now destruct (String.compare (Nombre p) (Nombre q)).
  - destruct (String.compare (Categoria p) (Categoria q)) eqn:E;
      try easy.
    apply string_compare_eq in E. contradiction.
Qed.


Lemma productLess_asym (p q : Product) :
  productLess p q = true -> productLess q p = false.
Proof.
  intros H. apply productLess_key in H.
  destruct (productLess q p) eqn:E; [|reflexivity].
  apply productLess_key in E. rewrite keyCompare_antisym, H in E.
  discriminate.
Qed.

Lemma productLess_negtrans (p q r : Product) :
  productLess p q = false -> productLess q r = false ->
  productLess p r = false.
Proof.
  intros H1 H2. destruct (productLess p r) eqn:E; [|reflexivity].
  apply productLess_key in E.
  destruct (keyCompare (sortKey p) (sortKey q)) eqn:Epq.
  - apply keyCompare_eq in Epq. rewrite Epq in E.
    apply productLess_key in E. congruence.
  - apply productLess_key in Epq. congruence.
  - assert (Hqp : keyCompare (sortKey q) (sortKey p) = Lt)
      by now rewrite keyCompare_antisym, Epq.
    pose proof (keyCompare_lt_trans _ _ _ Hqp E) as Hqr.
    apply productLess_key in Hqr. congruence.
Qed.

(** Two products neither of which is less than the other have the same
    key. *)
Lemma productLess_tie (p q : Product) :
  productLess p q = false -> productLess q p = false ->
  sortKey p = sortKey q.
Proof.
  intros H1 H2. apply keyCompare_eq.
  destruct (keyCompare (sortKey p) (sortKey q)) eqn:E; [reflexivity| |].
  - apply productLess_key in E. congruence.
  - assert (Hqp : keyCompare (sortKey q) (sortKey p) = Lt)
      by now rewrite keyCompare_antisym, E.
    apply productLess_key in Hqp. congruence.
Qed.

End StringOrder.

Section InsertionSortFacts.
Context {A : Type} (less : A -> A -> bool).
Hypothesis less_asym : forall a b, less a b = true -> less b a = false.
Hypothesis less_negtrans :
  forall a b c, less a b = false -> less b c = false -> less a c = false.

Lemma insertBack_perm (x : A) (r : list A) :
  Permutation (insertBack less x r) (x :: r).
Proof.
  induction r as [|y r IH]; cbn; [reflexivity|].
  destruct (less x y); [|reflexivity].
  rewrite IH. apply perm_swap.
Qed.

Lemma insertionSort_perm (l : list A) : Permutation (insertionSort less l) l.
Proof.
  unfold insertionSort.
  assert (H : forall acc,
             Permutation
               (fold_left (fun revPrefix x => insertBack less x revPrefix)
                          l acc)
               (rev l ++ acc)).
  { induction l as [|x l IH]; intros acc; cbn; [reflexivity|].
    rewrite IH, insertBack_perm, <- app_assoc. cbn.
    apply Permutation_app_head. reflexivity. }
  rewrite <- (Permutation_rev _), H, app_nil_r.
  symmetry. apply Permutation_rev.
Qed.

Lemma insertBack_sorted (x : A) (r : list A) :
  downSorted less r -> downSorted less (insertBack less x r).
Proof using less_asym less_negtrans.
  unfold downSorted. induction r as [|y r IH]; intros Hs; cbn.
  - constructor; constructor.
  - inversion Hs as [|? ? Hr Hy]; subst.
    destruct (less x y) eqn:E.
    + constructor; [auto|].
      rewrite (insertBack_perm x r). constructor; auto.
    + constructor; [assumption|]. constructor; [assumption|].
      rewrite List.Forall_forall in *. intros b Hb. eauto.
Qed.

Lemma strongly_sorted_rev (R : A -> A -> Prop) (l : list A) :
  StronglySorted R l -> StronglySorted (fun a b => R b a) (rev l).
Proof.
  induction 1 as [|a l Hs IH Ha]; cbn; [constructor|].
  assert (G : forall l1 l2,
             StronglySorted (fun a b => R b a) l1 ->
             StronglySorted (fun a b => R b a) l2 ->
             (forall x y, In x l1 -> In y l2 -> R y x) ->
             StronglySorted (fun a b => R b a) (l1 ++ l2)).
  { induction l1 as [|x l1 IH1]; intros l2 H1 H2 H12; cbn; [assumption|].
    inversion H1; subst. constructor.
    - apply IH1; auto. intros; apply H12; [now right | assumption].
    - apply List.Forall_app. split; [assumption|].
      rewrite List.Forall_forall. intros y Hy. apply H12; [now left | assumption]. }
  apply G; [assumption | repeat constructor |].
  intros x y Hx [<- | []]. rewrite List.Forall_forall in Ha.
  apply Ha. now apply in_rev.
Qed.

Lemma insertionSort_sorted (l : list A) : sortedBy less (insertionSort less l).
Proof using less_asym less_negtrans.
  unfold sortedBy, insertionSort.
  apply (strongly_sorted_rev (fun a b => less a b = false)).
  assert (H : forall acc,
             downSorted less acc ->
             downSorted less
               (fold_left (fun revPrefix x => insertBack less x revPrefix)
                          l acc)).
  { induction l as [|x l IH]; intros acc Hacc; cbn; [assumption|].
    apply IH. now apply insertBack_sorted. }
  apply H. constructor.
Qed.

Lemma insertionSort_sortsWith : sortsWith less (insertionSort less).
Proof using less_asym less_negtrans.
  intros l. split; [apply insertionSort_perm | apply insertionSort_sorted].
Qed.
End InsertionSortFacts.

Lemma insertionSort_products : sortsWith productLess (insertionSort productLess).
Proof.
  apply insertionSort_sortsWith;
    [exact productLess_asym | exact productLess_negtrans].
Qed.



(** ** The worker pool of the API scraper *)

Section PoolFacts.
Import Api Pool.
Open Scope Z_scope.

Variable sortSlice : list Product -> list Product.

Lemma wrapInt32_small (z : Z) : - 2 ^ 31 <= z < 2 ^ 31 -> wrapInt32 z = z.
Proof.
  intros H. unfold wrapInt32.
  rewrite Z.mod_small; lia.
Qed.

Lemma wrapInt32_unchanged (z : Z) :
  - 2 ^ 31 <= z < 2 ^ 31 -> z = wrapInt32 (z + 0).
Proof. intros H. rewrite Z.add_0_r. symmetry. now apply wrapInt32_small. Qed.

Lemma workerBody_suffix (t : task) (r : fetchResult) :
  bodySuffix (workerBody t r).
Proof.
  destruct r as [|aps]; cbn; [constructor|].
  destruct (Nat.eqb (length aps) 0); constructor.
Qed.

Lemma workerBody_wf (t : task) (r : fetchResult) :
  wfWorker (continue (workerBody t r)).
Proof.
  pose proof (workerBody_suffix t r) as H.
  destruct H; cbn; constructor.
Qed.

Lemma suffix_tail_wf (a : action) (rest : list action) :
  bodySuffix (a :: rest) -> wfWorker (continue rest).
Proof. intros H. inversion H; subst; cbn; try constructor; exact I. Qed.

Lemma owed_continue (rest : list action) :
  owed (continue rest) = owedActions rest.
Proof. now destruct rest. Qed.

Lemma owed_range (w : wstate) : wfWorker w -> 0 <= owed w <= 2.
Proof.
  destruct w as [|t|acts| |]; cbn; try lia.
  intros H. destruct H; cbn; lia.
Qed.

Lemma owed_zero_quiescent (w : wstate) :
  wfWorker w -> owed w <= 0 -> quiescent w.
Proof.
  unfold quiescent. destruct w as [|t|acts| |]; cbn; auto; try lia;
    try tauto.
  intros H. destruct H; cbn; auto; lia.
Qed.

Lemma quiescent_owed (w : wstate) : quiescent w -> owed w = 0.
Proof. intros [-> | [-> | ->]]; reflexivity. Qed.

Lemma owedWorkers_cons (w : wstate) (ws : list wstate) :
  owedWorkers (w :: ws) = owed w + owedWorkers ws.
Proof. reflexivity. Qed.

Lemma owedWorkers_range (ws : list wstate) :
  Forall wfWorker ws ->
  0 <= owedWorkers ws <= 2 * Z.of_nat (length ws).
Proof.
  induction 1 as [|w ws Hw _ IH].
  - cbn. lia.
  - rewrite owedWorkers_cons. cbn [length].
    pose proof (owed_range w Hw). lia.
Qed.

Lemma owedWorkers_zero (ws : list wstate) :
  Forall wfWorker ws -> owedWorkers ws <= 0 -> Forall quiescent ws.
Proof.
  induction 1 as [|w ws Hw Hws IH]; [constructor|].
  rewrite owedWorkers_cons. intros Hle.
  pose proof (owed_range w Hw). pose proof (owedWorkers_range ws Hws).
  constructor; [apply owed_zero_quiescent; auto; lia | apply IH; lia].
Qed.

Lemma owedWorkers_quiescent (ws : list wstate) :
  Forall quiescent ws -> owedWorkers ws = 0.
Proof.
  induction 1 as [|w ws Hw _ IH]; [reflexivity|].
  rewrite owedWorkers_cons, IH, (quiescent_owed w Hw). lia.
Qed.

Lemma owedWorkers_insert (ws : list wstate) (i : nat) (w w' : wstate) :
  ws !! i = Some w ->
  owedWorkers (<[i := w']> ws) = owedWorkers ws - owed w + owed w'.
Proof.
  revert i. induction ws as [|x ws IH]; intros i Hi; [discriminate|].
  destruct i as [|i].
  - injection Hi as ->.
    change (<[0%nat := w']> (w :: ws)) with (w' :: ws).
    rewrite !owedWorkers_cons. lia.
  - change (<[S i := w']> (x :: ws)) with (x :: <[i := w']> ws).
    rewrite !owedWorkers_cons, (IH i Hi). lia.
Qed.

Lemma liveTasks_range (W : Z) (s : state) :
  length (workers s) = Z.to_nat W ->
  Forall wfWorker (workers s) ->
  (length (tasksCh s) <= chanCap)%nat ->
  0 <= liveTasks s <= 101 + 2 * Z.max W 0.
Proof.
  intros Hlen Hwf Hq. unfold liveTasks.
  pose proof (owedWorkers_range _ Hwf) as Ho. rewrite Hlen in Ho.
  unfold chanCap in Hq.
  assert (0 <= owedMain (mainSt s) <= 1) by (destruct (mainSt s); cbn; lia).
  lia.
Qed.

(** With no live task the queue is empty and every worker is idle. *)
Lemma live_zero_quiet (s : state) :
  Forall wfWorker (workers s) -> liveTasks s <= 0 ->
  tasksCh s = [] /\ Forall quiescent (workers s).
Proof.
  intros Hwf Hle. unfold liveTasks in Hle.
  pose proof (owedWorkers_range _ Hwf).
  assert (0 <= owedMain (mainSt s)) by (destruct (mainSt s); cbn; lia).
  split.
  - destruct (tasksCh s); [reflexivity | cbn [length] in Hle; lia].
  - apply owedWorkers_zero; [assumption | lia].
Qed.

Lemma owedActions_cons (a : action) (rest : list action) :
  owedActions (a :: rest) = owedAction a + owedActions rest.
Proof. reflexivity. Qed.

Lemma owedActions_body (t : task) (r : fetchResult) :
  owedActions (workerBody t r) = 1.
Proof.
  destruct r as [|aps]; cbn; [reflexivity|].
  destruct (Nat.eqb (length aps) 0); reflexivity.
Qed.

Ltac simpl_state :=
  unfold setPending, setTasksCh, setTasksClosed, setResults,
    setResultsClosed, setWorker, setMain, setMonitor, setProducts,
    addEvent in *;
  cbn [pending tasksCh tasksClosed results resultsClosed workers mainSt
       monitor allProducts output history] in *.

Lemma quiescent_running (a : action) (rest : list action) :
  quiescent (Running (a :: rest)) -> a = Sleep /\ rest = [].
Proof. intros [H | [H | H]]; try discriminate. now injection H. Qed.

Lemma quiescent_fetching (t : task) : quiescent (Fetching t) -> False.
Proof. intros [H | [H | H]]; discriminate. Qed.

(** Every step keeps the counter equal to the number of live tasks. *)
Lemma step_preserves (W : Z) (s s' : state) :
  W < 2 ^ 29 -> poolInv W s -> step sortSlice s s' -> poolInv W s'.
Proof.
  intros HW [Hmain Hlen Hwf Hq Hpend Hclosed Hres] Hstep.
  pose proof (liveTasks_range W s Hlen Hwf Hq) as Hrange.
  assert (Hgoal :
    mainOk s' /\ length (workers s') = Z.to_nat W
    /\ Forall wfWorker (workers s')
    /\ (length (tasksCh s') <= chanCap)%nat
    /\ (exists d, pending s' = wrapInt32 (pending s + d)
                  /\ liveTasks s' = liveTasks s + d)
    /\ (tasksClosed s' = true ->
        tasksCh s' = [] /\ Forall quiescent (workers s'))
    /\ (resultsClosed s' = true ->
        Forall (fun w => w = Exited) (workers s'))).
  { unfold mainOk, liveTasks in *.
    destruct Hstep; simpl_state;
      repeat match goal with
             | H : mainSt _ = _ |- _ => rewrite H in *
             | H : tasksCh _ = _ |- _ => rewrite H in *
             | H : tasksClosed _ = _ |- _ => rewrite H in *
             | H : resultsClosed _ = _ |- _ => rewrite H in *
             | H : monitor _ = _ |- _ => rewrite H in *
             end.
    all: try match goal with
             | H : workers _ !! ?i = Some ?w |- _ =>
                 pose proof (Forall_lookup_1 _ _ _ _ Hwf H) as Hwfi;
                 cbn [wfWorker] in Hwfi
             end.
    all: rewrite ?length_insert, ?length_app; cbn [length owedMain].
    all: repeat match goal with |- _ /\ _ => split end.
    all: try match goal with
             | |- tasksClosed _ = true -> _ =>
                 intros Hc; specialize (Hclosed Hc)
             | |- resultsClosed _ = true -> _ =>
                 intros Hc; specialize (Hres Hc)
             | |- true = true -> _ => intros _
             end.
    all: try (specialize (Hclosed eq_refl)).
    all: try (specialize (Hres eq_refl)).
    all: try match goal with
             | Hq : _ /\ Forall quiescent ?ws,
               H : ?ws !! _ = Some (Running (_ :: _)) |- _ =>
                 destruct (quiescent_running _ _
                             (Forall_lookup_1 _ _ _ _ (proj2 Hq) H))
                   as [Hqa Hqr]; try discriminate Hqa; subst
             | Hq : _ /\ Forall quiescent ?ws,
               H : ?ws !! _ = Some (Fetching _) |- _ =>
                 exfalso;
                 exact (quiescent_fetching _
                          (Forall_lookup_1 _ _ _ _ (proj2 Hq) H))
             end.
    all: try match goal with
             | Hq : Forall (fun w => w = Exited) ?ws,
               H : ?ws !! _ = Some _ |- _ =>
                 pose proof (Forall_lookup_1 _ _ _ _ Hq H) as Hex;
                 cbn in Hex; try discriminate Hex
             end.
    all: try contradiction.
    all: try match goal with
             | Hq : _ = [] /\ _ |- _ => destruct Hq as [Hq0 Hquiet]
             end.
    all: try discriminate.
    all: try assumption.
    all: try (intros; discriminate).
    all: try (unfold chanCap in *; cbn [length] in *; lia).
    all: try (destruct (mainSt _); intuition congruence).
    all: try (intuition congruence).
    all: try (split; [assumption || reflexivity|]).
    all: try (apply Forall_insert; [assumption|]).
    all: try exact I.
    all: try apply workerBody_wf.
    all: try (eapply suffix_tail_wf; eassumption).
    all: try (right; left; reflexivity).
    all: try (left; reflexivity).
    all: try reflexivity.
    all: cbn [owedMain] in *.
    all: try (first [ exists 0; split;
                      [apply wrapInt32_unchanged; lia|]
                    | eexists; split; [reflexivity|] ]).
    all: try (erewrite owedWorkers_insert by eassumption;
              rewrite ?owed_continue; cbn [owed owedAction];
              rewrite ?owedActions_cons, ?owedActions_body;
              cbn [owedAction]).
    all: try (rewrite ?length_app; cbn [length]; lia).
    apply live_zero_quiet; [assumption | unfold liveTasks; lia]. }
  destruct Hgoal as (G1 & G2 & G3 & G4 & (d & G5 & G5') & G6 & G7).
  constructor; auto.
  pose proof (liveTasks_range W s' G2 G3 G4) as Hrange'.
  rewrite G5, Hpend, <- G5'. apply wrapInt32_small. lia.
Qed.

Lemma init_inv (order : list (string * string)) (W : Z) :
  poolInv W (init order W).
Proof.
  constructor; cbn.
  - unfold mainOk. cbn. auto.
  - apply length_replicate.
  - apply Forall_replicate. exact I.
  - unfold chanCap. lia.
  - unfold liveTasks, init.
    cbn [pending tasksCh workers mainSt length owedMain].
    rewrite (owedWorkers_quiescent (replicate (Z.to_nat W) Receiving)).
    + reflexivity.
    + apply Forall_replicate. now left.
  - discriminate.
  - discriminate.
Qed.

Lemma reachable_inv (order : list (string * string)) (W : Z) (s : state) :
  W < 2 ^ 29 -> reachable sortSlice (init order W) s -> poolInv W s.
Proof.
  intros HW Hr. induction Hr as [|s s' _ IH Hstep].
  - apply init_inv.
  - eapply step_preserves; eauto.
Qed.

(** *** Every category is on its way or has ended *)

Lemma carried_update (ws : list wstate) (i : nat) (wi wi' : wstate)
      (name : string) (Q : Prop) :
  ws !! i = Some wi ->
  (carries wi name -> carries wi' name \/ Q) ->
  (exists j w, ws !! j = Some w /\ carries w name) ->
  (exists j w, <[i := wi']> ws !! j = Some w /\ carries w name) \/ Q.
Proof.
  intros Hi Hstep (j & w & Hj & Hc).
  destruct (decide (i = j)) as [-> | Hne].
  - rewrite Hi in Hj. injection Hj as <-.
    destruct (Hstep Hc) as [Hc' | HQ]; [left | now right].
    exists j, wi'. split; [|assumption].
    apply list_lookup_insert_eq. now apply lookup_lt_Some in Hi.
  - left. exists j, w. split; [|assumption].
    now rewrite list_lookup_insert_ne.
Qed.

Lemma carries_tail (a : action) (rest : list action) (name : string) :
  (forall t, a <> Enqueue t) ->
  carries (Running (a :: rest)) name -> carries (continue rest) name.
Proof.
  intros Ha (t & [He | Hin] & Hn); [now apply Ha in He|].
  destruct rest as [|b rest]; [destruct Hin|].
  exists t. auto.
Qed.

Lemma carried_tail (ws : list wstate) (i : nat) (a : action)
      (rest : list action) (name : string) :
  ws !! i = Some (Running (a :: rest)) ->
  (forall t, a <> Enqueue t) ->
  (exists j w, ws !! j = Some w /\ carries w name) ->
  exists j w, <[i := continue rest]> ws !! j = Some w /\ carries w name.
Proof.
  intros Hi Ha Hc.
  destruct (carried_update ws i _ (continue rest) name False Hi) as [H | []];
    [|exact Hc|exact H].
  intros c. left. eapply carries_tail; eauto.
Qed.

Lemma carried_idle (ws : list wstate) (i : nat) (w' : wstate)
      (name : string) :
  ws !! i = Some Receiving ->
  (exists j w, ws !! j = Some w /\ carries w name) ->
  exists j w, <[i := w']> ws !! j = Some w /\ carries w name.
Proof.
  intros Hi Hc.
  destruct (carried_update ws i _ w' name False Hi) as [H | []];
    [|exact Hc|exact H].
  intros [].
Qed.

Lemma carries_body (t : task) (r : fetchResult) :
  carries (continue (workerBody t r)) (categoryName t)
  \/ fetchEvent t r = PageEmpty t \/ fetchEvent t r = PageFailed t.
Proof.
  destruct r as [|aps]; cbn; [auto|].
  destruct (Nat.eqb (length aps) 0); cbn; [auto|].
  left. exists (nextTask t). cbn. auto.
Qed.

Lemma step_progress (order : list (string * string)) (W : Z)
      (s s' : state) :
  poolInv W s -> progressInv order s -> step sortSlice s s' ->
  progressInv order s'.
Proof.
  intros [Hmain _ Hwf _ _ Hclosed Hres] Hprog Hstep name sl Hin.
  specialize (Hprog name sl Hin).
  unfold inProgress, ended, mainOk in *.
  destruct Hstep; simpl_state;
    repeat match goal with
           | H : mainSt _ = _ |- _ => rewrite H in *
           | H : tasksCh _ = _ |- _ => rewrite H in *
           | H : tasksClosed _ = _ |- _ => rewrite H in *
           | H : resultsClosed _ = _ |- _ => rewrite H in *
           end;
    cbn [toSeed] in *.
  all: try (specialize (Hclosed eq_refl)).
  all: try (specialize (Hres eq_refl)).
  all: try tauto.
  all: destruct Hprog as [[Hseed | [Hqueue | Hcarry]] | Hend].
  all: try (right; exact Hend).
  all: try (left; left; exact Hseed).
  all: try (left; right; left; exact Hqueue).
  all: try (left; right; right; exact Hcarry).
  all: try contradiction.
  - (* seed: the counter is incremented *)
    destruct Hseed as (sl' & [[= -> ->] | Hin']); left; left; cbn; eauto.
  - (* seed: the task is sent *)
    destruct Hseed as [Hn | Hin']; left; [right; left | left; exact Hin'].
    exists t. split; [apply in_or_app; right; now left | exact Hn].
  - destruct Hqueue as (t0 & Hin0 & Hn). left. right. left.
    exists t0. split; [apply in_or_app; now left | exact Hn].
  - (* seed: send on a closed channel, which the seeding loop never meets *)
    destruct Hmain as (_ & Hc & _). discriminate Hc.
  - (* seed: the loop ends *)
    destruct Hseed as (sl' & []).
  - (* receive *)
    destruct Hqueue as (t0 & [<- | Hin0] & Hn).
    + left. right. right. exists i, (Fetching t). split; [|exact Hn].
      apply list_lookup_insert_eq. now apply lookup_lt_Some in H.
    + left. right. left. eauto.
  - left. right. right. eapply carried_idle; [exact H | exact Hcarry].
  - (* receive on the closed channel *)
    left. right. right. eapply carried_idle; [exact H | exact Hcarry].
  - (* the fetch ends *)
    destruct (carried_update _ i (Fetching t) (continue (workerBody t r))
                name
                (fetchEvent t r = PageEmpty t /\ categoryName t = name
                 \/ fetchEvent t r = PageFailed t /\ categoryName t = name)
                H) with (2 := Hcarry) as [Hc | HQ].
    + cbn [carries]. intros <-.
      destruct (carries_body t r) as [Hb | [He | He]]; auto.
    + left. right. right. exact Hc.
    + right. exists t.
      destruct HQ as [[-> Hn] | [-> Hn]]; (split; [exact Hn|]);
        rewrite !in_app_iff; cbn [In]; auto.
  - destruct Hend as (t0 & Hn & He). right. exists t0. split; [exact Hn|].
    rewrite !in_app_iff. tauto.
  - (* results sent *)
    left. right. right.
    eapply carried_tail; [exact H | intros ? E; discriminate E | exact Hcarry].
  - (* send on closed results: no worker is running then *)
    pose proof (Forall_lookup_1 _ _ _ _ Hres H) as Hex. discriminate Hex.
  - (* counter operation *)
    left. right. right.
    eapply carried_tail; [exact H | intros ? E; discriminate E | exact Hcarry].
  - (* enqueue *)
    destruct Hqueue as (t0 & Hin0 & Hn). left. right. left.
    exists t0. split; [apply in_or_app; now left | exact Hn].
  - destruct (carried_update _ i _ (continue rest) name
                (categoryName t = name) H) with (2 := Hcarry)
      as [Hc | HQ].
    + intros (t0 & [[= <-] | Hin0] & Hn); [now right|].
      left. destruct rest as [|b rest]; [destruct Hin0|].
      exists t0. auto.
    + left. right. right. exact Hc.
    + left. right. left. exists t.
      split; [apply in_or_app; right; now left | exact HQ].
  - (* enqueue on the closed channel: no worker is running then *)
    destruct Hclosed as [_ Hquiet].
    destruct (quiescent_running _ _ (Forall_lookup_1 _ _ _ _ Hquiet H))
      as [Hqa _]. discriminate Hqa.
  - (* sleep *)
    left. right. right.
    eapply carried_tail; [exact H | intros ? E; discriminate E | exact Hcarry].
Qed.

Lemma init_progress (order : list (string * string)) (W : Z) :
  progressInv order (init order W).
Proof. intros name sl Hin. left. left. cbn. eauto. Qed.

Lemma reachable_progress (order : list (string * string)) (W : Z)
      (s : state) :
  W < 2 ^ 29 -> reachable sortSlice (init order W) s -> progressInv order s.
Proof.
  intros HW Hr. induction Hr as [|s s' Hr IH Hstep].
  - apply init_progress.
  - eapply step_progress; eauto. eapply reachable_inv; eauto.
Qed.

(** *** The final write *)


(** *** Running a schedule *)

Lemma fire_sound (l : label) (s s' : state) :
  fire sortSlice l s = Some s' -> step sortSlice s s'.
Proof.
  destruct l as [| | |i|i r]; cbn [fire].
  - unfold fireMain. destruct (mainSt s) as [todo|t todo| | |] eqn:Em.
    + destruct todo as [|[name sl] todo]; intros [= <-].
      * now apply step_seed_done.
      * now apply step_seed_add.
    + destruct (tasksClosed s) eqn:Ec.
      * intros [= <-]. eapply step_seed_send_closed; eauto.
      * destruct (Nat.ltb_spec (length (tasksCh s)) chanCap);
          intros [= <-]. eapply step_seed_send; eauto.
    + destruct (results s) as [|batch rest] eqn:Er.
      * destruct (resultsClosed s) eqn:Ec; intros [= <-].
        now apply step_final.
      * intros [= <-]. now apply step_collect.
    + discriminate.
    + discriminate.
  - destruct (monitor s) eqn:Em; try discriminate.
    destruct (Z.leb_spec (pending s) 0); intros [= <-].
    now apply step_monitor_close.
  - destruct (monitor s) eqn:Em; try discriminate;
      destruct (resultsClosed s) eqn:Ec; cbn [negb andb];
      try discriminate;
      destruct (forallb isExited (workers s)) eqn:Ef; intros [= <-];
      (apply step_close_results; [congruence | assumption |]);
      apply (proj2 (List.Forall_forall _ _)); intros w Hw;
      pose proof (proj1 (List.forallb_forall _ _) Ef w Hw) as Hx;
      now destruct w.
  - unfold fireWorker.
    destruct (workers s !! i) as [[|t|[|[products|delta|t|] rest]| |]|]
      eqn:Ew; try discriminate.
    + destruct (tasksCh s) as [|t rest] eqn:Eq.
      * destruct (tasksClosed s) eqn:Ec; intros [= <-].
        now apply step_receive_closed.
      * intros [= <-]. now apply step_receive.
    + destruct (resultsClosed s) eqn:Ec.
      * intros [= <-]. eapply step_send_results_closed; eauto.
      * destruct (Nat.ltb_spec (length (results s)) chanCap);
          intros [= <-]. eapply step_send_results; eauto.
    + intros [= <-]. now apply step_pending_add.
    + destruct (tasksClosed s) eqn:Ec.
      * intros [= <-]. eapply step_enqueue_closed; eauto.
      * destruct (Nat.ltb_spec (length (tasksCh s)) chanCap);
          intros [= <-]. eapply step_enqueue; eauto.
    + intros [= <-]. now apply step_sleep.
  - destruct (workers s !! i) as [[|t| | |]|] eqn:Ew; try discriminate.
    intros [= <-]. now apply step_fetch.
Qed.

Lemma schedule_sound (ls : list label) (s0 s s' : state) :
  reachable sortSlice s0 s -> schedule sortSlice ls s = Some s' ->
  reachable sortSlice s0 s'.
Proof.
  revert s. induction ls as [|l ls IH]; intros s Hr; cbn.
  - now intros [= <-].
  - destruct (fire sortSlice l s) as [s1|] eqn:Ef; [|discriminate].
    apply IH. eapply reach_step; [exact Hr|]. eapply fire_sound; exact Ef.
Qed.

End PoolFacts.

(** ** The pending counter: register the follow-up before retiring the task *)

Section PendingCounter.
Import Api Pool.
Open Scope Z_scope.

Lemma owed_le_workers (ws : list wstate) (i : nat) (w : wstate) :
  Forall wfWorker ws -> ws !! i = Some w -> owed w <= owedWorkers ws.
Proof.
  intros Hwf. revert i. induction Hwf as [|x ws Hx Hws IH]; intros i Hi;
    [discriminate|].
  rewrite owedWorkers_cons.
  pose proof (owed_range x Hx). pose proof (owedWorkers_range ws Hws).
  destruct i as [|i]; cbn in Hi.
  - injection Hi as ->. lia.
  - specialize (IH i Hi). lia.
Qed.

Lemma owed_enqueue (rest : list action) (t : task) :
  bodySuffix rest -> In (Enqueue t) rest ->
  1 <= owedActions rest
  /\ (forall rest', rest = Enqueue t :: rest' -> owedActions rest = 2).
Proof.
  intros Hs Hin. destruct Hs; cbn in Hin |- *;
    repeat match goal with
           | H : _ \/ _ |- _ => destruct H
           | H : False |- _ => destruct H
           end;
    try discriminate; split; try lia; intros rest' E; try discriminate E;
    reflexivity.
Qed.

(** C1, as amended.  In every state the pool can reach, for fewer than
    [2^29] workers: the counter equals the number of tasks queued, held by
    a worker, or counted and about to be sent.  A worker whose page had
    products sends them, increments the counter for the follow-up,
    enqueues it, and only then decrements for its own task; so the
    counter is positive, and the queue open, as long as a worker still has
    a follow-up to enqueue, and at least 2 when the enqueue is its next
    operation.  No goroutine sends on a closed channel.  Once the seeding
    loop is over (which is when the monitor starts), the counter is at
    most zero only when the queue is empty, every worker is idle, and the
    pagination of every category has ended: on an empty page, or on a
    page whose fetch failed after its retries. *)
Theorem pending_counter_safety :
  forall (sortSlice : list Product -> list Product)
         (order : list (string * string)) (numWorkers : Z) (s : state),
    numWorkers < 2 ^ 29 ->
    reachable sortSlice (init order numWorkers) s ->
    pending s = liveTasks s
    /\ (forall t ap aps,
           workerBody t (FetchOk (ap :: aps))
           = [SendResults (parseProducts (ap :: aps) (categoryName t));
              PendingAdd 1; Enqueue (nextTask t); PendingAdd (-1); Sleep])
    /\ (forall i rest t,
           workers s !! i = Some (Running rest) -> In (Enqueue t) rest ->
           0 < pending s /\ tasksClosed s = false
           /\ (forall rest', rest = Enqueue t :: rest' -> 2 <= pending s))
    /\ (mainSt s <> MainPanicked
        /\ Forall (fun w => w <> Panicked) (workers s))
    /\ (monitor s <> NotStarted -> pending s <= 0 ->
        tasksCh s = [] /\ Forall quiescent (workers s)
        /\ forall name sl, In (name, sl) order -> ended s name).
Proof.
  intros sortSlice order W s HW Hr.
  pose proof (reachable_inv sortSlice order W s HW Hr) as Hinv.
  pose proof (reachable_progress sortSlice order W s HW Hr) as Hprog.
  destruct Hinv as [Hmain Hlen Hwf Hq Hpend Hclosed Hres].
  assert (Hmain0 : 0 <= owedMain (mainSt s))
    by (destruct (mainSt s); cbn; lia).
  pose proof (owedWorkers_range _ Hwf) as Hws.
  repeat apply conj.
  - exact Hpend.
  - reflexivity.
  - intros i rest t H H0.
    pose proof (Forall_lookup_1 _ _ _ _ Hwf H) as Hwfi. cbn in Hwfi.
    pose proof (owed_le_workers _ _ _ Hwf H) as Hle. cbn [owed] in Hle.
    destruct (owed_enqueue _ _ Hwfi H0) as [H1 H2].
    repeat apply conj.
    + rewrite Hpend. unfold liveTasks. lia.
    + destruct (tasksClosed s) eqn:Ec; [|reflexivity].
      destruct (Hclosed eq_refl) as [_ Hquiet].
      destruct (Forall_lookup_1 _ _ _ _ Hquiet H) as [E | [E | E]];
        try discriminate E.
      injection E as ->. destruct H0 as [E | []]. discriminate E.
    + intros rest' E. rewrite (H2 rest' E) in Hle.
      rewrite Hpend. unfold liveTasks. lia.
  - unfold mainOk in Hmain. intros E. now rewrite E in Hmain.
  - eapply Forall_impl; [exact Hwf|]. intros w Hw ->. exact Hw.
  - intros Hmon Hle. rewrite Hpend in Hle.
    destruct (live_zero_quiet s Hwf Hle) as [Hq0 Hquiet].
    repeat apply conj; [exact Hq0 | exact Hquiet |].
    intros name sl Hin.
    destruct (Hprog name sl Hin) as [[Hseed | [Hqueue | Hcarry]] | Hend];
      [| | |exact Hend]; exfalso.
    + unfold mainOk in Hmain.
      destruct (mainSt s); cbn in Hseed; try contradiction;
        now destruct Hmain.
    + rewrite Hq0 in Hqueue. now destruct Hqueue as (t & [] & _).
    + destruct Hcarry as (i & w & Hi & Hc).
      destruct (Forall_lookup_1 _ _ _ _ Hquiet Hi) as [-> | [-> | ->]];
        cbn in Hc; try contradiction.
      destruct Hc as (t & [E | []] & _). discriminate E.
Qed.

End PendingCounter.

(** The run [Examples.fullRun]: one category, one worker, a page with a
    product and then an empty page.  At its end the counter is zero and the
    category has ended. *)
Lemma pending_counter_witness :
  exists s,
    Api.schedule Examples.sorter Examples.fullRun (Api.init Examples.fundas 1) = Some s
    /\ Api.pending s = 0%Z
    /\ Api.tasksCh s = []
    /\ Forall Pool.quiescent (Api.workers s)
    /\ Pool.ended s "Fundas".
Proof.
  destruct (Api.schedule Examples.sorter Examples.fullRun (Api.init Examples.fundas 1)) as [s|] eqn:E;
    [|vm_compute in E; discriminate E].
  exists s. split; [reflexivity|].
  assert (Hr : Api.reachable Examples.sorter (Api.init Examples.fundas 1) s).
  { eapply schedule_sound; [apply Api.reach_init | exact E]. }
  assert (Hs : Api.monitor s <> Api.NotStarted /\ (Api.pending s <= 0)%Z
               /\ Api.pending s = 0%Z).
  { vm_compute in E. injection E as <-. cbn. repeat split; [discriminate|lia]. }
  destruct Hs as (Hmon & Hle & Hz).
  destruct (pending_counter_safety Examples.sorter Examples.fundas 1 s
              ltac:(reflexivity) Hr)
    as (_ & _ & _ & _ & Hzero).
  destruct (Hzero Hmon Hle) as (Hq & Hquiet & Hended).
  repeat split; try assumption.
  apply (Hended "Fundas" "fundas"). now left.
Defined.

(** C1: with one worker and the single category "Fundas" whose first page
    cannot be fetched, the seeding is over, the counter is back at zero,
    and no empty page of the category was ever seen: the only fetch
    failed.  And with two categories the counter reads zero, while the
    seeding loop still runs, before "Fundas" is even enqueued. *)
Lemma pending_zero_counterexample :
  (exists s,
      Api.reachable Examples.sorter (Api.init Examples.fundas 1) s
      /\ Api.monitor s = Api.Polling
      /\ Api.pending s = 0%Z
      /\ Api.history s = [Api.PageFailed (Api.mkTask "fundas" "Fundas" 1)]
      /\ (Pool.endedOnEmptyPage s "Fundas" -> False))
  /\ (exists s,
         Api.reachable Examples.sorter (Api.init Examples.twoCategories 1) s
         /\ Api.mainSt s = Api.Seeding [("Fundas", "fundas")]
         /\ Api.pending s = 0%Z
         /\ (Pool.ended s "Fundas" -> False)).
Proof.
  split.
  - destruct (Api.schedule Examples.sorter Examples.failedRun (Api.init Examples.fundas 1))
      as [s|] eqn:E; [|vm_compute in E; discriminate E].
    exists s. split.
    { eapply schedule_sound; [apply Api.reach_init | exact E]. }
    vm_compute in E. injection E as <-. cbn. repeat split.
    intros (t & _ & [E | []]). discriminate E.
  - destruct (Api.schedule Examples.sorter Examples.earlyWorker (Api.init Examples.twoCategories 1))
      as [s|] eqn:E; [|vm_compute in E; discriminate E].
    exists s. split.
    { eapply schedule_sound; [apply Api.reach_init | exact E]. }
    vm_compute in E. injection E as <-. cbn. repeat split.
    intros (t & Hn & [[E | []] | [E | []]]);
      [injection E as <-; discriminate Hn | discriminate E].
Qed.

(** ** The aggregated output of the my-shop scrapers *)

Section MyshopOutput.
Import Myshop.








End MyshopOutput.



(** ** The order of the final write *)




(** ** Category discovery that fails or finds nothing *)

Section Discovery.
Import Myshop.

Lemma run_without_categories (sortSlice : list Product -> list Product)
      (listing : string -> string -> list productEntry)
      (scrape : productEntry -> option Product)
      (numWorkers : Z) (res : runResult) :
  run sortSlice (Some ∅) listing scrape numWorkers res
  <-> res = RunDone (Z.to_nat numWorkers) [] (sortSlice []).
Proof.
  unfold run. split.
  - intros (order & products & Horder & Hproducts & ->).
    rewrite map_to_list_empty in Horder.
    apply Permutation_nil_r in Horder. subst order.
    cbn in Hproducts |- *.
    assert (products = []) as ->; [|reflexivity].
    destruct (0 <? numWorkers)%Z; [|exact Hproducts].
    now apply Permutation_nil_r in Hproducts.
  - intros ->. exists [], []. split; [|split].
    + now rewrite map_to_list_empty.
    + destruct (0 <? numWorkers)%Z; reflexivity.
    + reflexivity.
Qed.

(** C9, as amended.  In the API scraper a failed discovery request, or a
    discovery that returns no category, ends [main] in [log.Fatalf]: [run]
    is called only with at least one category, so no worker is started
    and nothing is collected otherwise.  In the two my-shop scrapers
    discovery fails exactly when the request for the shop page failed
    after its retries, and [run] then returns the error without starting
    a worker, issuing a job or writing; but a shop page without category
    links gives an empty map and no error, and [run] goes on: it starts
    its workers, issues no job, and writes the sorted empty list. *)
Theorem discovery_failure :
  (forall fuel reply,
      (Api.fetchCategories fuel reply = Api.Failed ->
       exists msg, Api.main fuel reply = Api.Fatal msg)
      /\ (Api.fetchCategories fuel reply = Api.Returned ∅ ->
          exists msg, Api.main fuel reply = Api.Fatal msg)
      /\ (forall cats,
             Api.main fuel reply = Api.CallRun cats ->
             cats <> ∅ /\ Api.fetchCategories fuel reply = Api.Returned cats))
  /\ (Regex.fetchCategories None = None
      /\ Goquery.fetchCategories None = None
      /\ (forall pg, Regex.fetchCategories (Some pg) <> None)
      /\ (forall links, Goquery.fetchCategories (Some links) <> None))
  /\ (forall sortSlice listing scrape numWorkers res,
         run sortSlice None listing scrape numWorkers res
         <-> res = RunError)
  /\ (Regex.fetchCategories (Some (Regex.mkShopPage [] [])) = Some ∅
      /\ Goquery.fetchCategories (Some []) = Some ∅)
  /\ (forall sortSlice listing scrape numWorkers res,
         run sortSlice (Some ∅) listing scrape numWorkers res
         <-> res = RunDone (Z.to_nat numWorkers) [] (sortSlice [])).
Proof.
  repeat apply conj.
  - intros fuel reply. unfold Api.main. repeat apply conj.
    + intros ->. eauto.
    + intros ->. rewrite map_size_empty. cbn. eauto.
    + intros cats.
      destruct (Api.fetchCategories fuel reply) as [c| |]; try discriminate.
      destruct (Nat.eqb_spec (size c) 0) as [E | E]; [discriminate|].
      intros [= <-]. split; [|reflexivity].
      intros ->. now rewrite map_size_empty in E.
  - reflexivity.
  - reflexivity.
  - intros pg. discriminate.
  - intros links. discriminate.
  - intros. reflexivity.
  - reflexivity.
  - reflexivity.
  - intros. apply run_without_categories.
Qed.

End Discovery.

(** C9: the shop page of the selector scraper has no category link.
    Discovery returns the empty map without an error, and [run] with three
    workers does not end in an error: it starts the three workers and writes
    the empty list. *)
Lemma zero_categories_counterexample :
  Goquery.fetchCategories (Some []) = Some ∅
  /\ Myshop.run Examples.sorter (Some ∅) Examples.shopListing
                Examples.shopScrape 3 (Myshop.RunDone 3 [] [])
  /\ (Myshop.run Examples.sorter (Some ∅) Examples.shopListing
                 Examples.shopScrape 3 Myshop.RunError -> False).
Proof.
  split; [reflexivity|]. split.
  - apply run_without_categories. reflexivity.
  - intros H. apply run_without_categories in H. discriminate H.
Qed.
(** ** The retry loop of the three fetch functions *)

(** The waits of the loop: 2 s and 4 s before the second and the third
    attempt, and 3 s, 9 s and 27 s after a reply 429. *)
Lemma backoff_values :
  Retry.backoff 1 = (2 * Retry.Second)%Z
  /\ Retry.backoff 2 = (4 * Retry.Second)%Z
  /\ Retry.rateLimitBackoff 0 = (3 * Retry.Second)%Z
  /\ Retry.rateLimitBackoff 1 = (9 * Retry.Second)%Z
  /\ Retry.rateLimitBackoff 2 = (27 * Retry.Second)%Z.
Proof. vm_compute. repeat split. Qed.

Section RetryFacts.
Import Retry.
Context {A : Type}.
Variable replies : Z -> reply A.

Lemma slept_app (e1 e2 : list effect) :
  slept (e1 ++ e2) = (slept e1 + slept e2)%Z.
Proof.
  induction e1 as [|[|d] e1 IH]; cbn; [reflexivity | exact IH |].
  change (fold_right _ 0%Z (e1 ++ e2)) with (slept (e1 ++ e2)).
  change (fold_right _ 0%Z e1) with (slept e1).
  rewrite IH. lia.
Qed.

Lemma requests_app (e1 e2 : list effect) :
  requests (e1 ++ e2) = requests e1 + requests e2.
Proof. unfold requests. now rewrite List.filter_app, length_app. Qed.

(** The four kinds of reply, by what the loop does next. *)
Lemma reply_kinds (r : reply A) :
  let sent := match r with BadRequest => 0 | _ => 1 end in
  (r = BadRequest /\ sent = 0 /\ retried r = false /\ rateLimited r = false)
  \/ (r <> BadRequest /\ sent = 1 /\ retried r = false
      /\ rateLimited r = false)
  \/ (r <> BadRequest /\ sent = 1 /\ retried r = true
      /\ rateLimited r = false)
  \/ (r <> BadRequest /\ sent = 1 /\ retried r = true
      /\ rateLimited r = true).
Proof.
  destruct r as [| | |status decoded]; cbn; auto.
  - right. right. left. repeat split. discriminate.
  - right. right. left. repeat split. discriminate.
  - destruct (Z.eqb_spec status 429) as [->|]; cbn.
    + right. right. right. repeat split. discriminate.
    + destruct (Z.eqb_spec status 200) as [->|]; cbn.
      * destruct decoded as [a|];
          [right; left | right; right; left]; repeat split; discriminate.
      * right. right. left. repeat split. discriminate.
Qed.

(** One turn of the loop: what it sleeps, what it requests, and whether
    a further attempt follows. *)
Lemma attempt_turn (left : nat) (attempt : Z) :
  let r := replies attempt in
  let rest := attemptsFrom replies left (attempt + 1) in
  let this := attemptsFrom replies (S left) attempt in
  slept this.2
  = ((if (0 <? attempt)%Z then backoff attempt else 0)
     + (if retried r
        then (if rateLimited r then rateLimitBackoff attempt else 0)
             + slept rest.2
        else 0))%Z
  /\ requests this.2
     = (match r with BadRequest => 0 | _ => 1 end)
       + (if retried r then requests rest.2 else 0)
  /\ (retried r = true -> this.1 = rest.1)
  /\ (retried r = false -> r <> BadRequest -> this.1 <> None).
Proof.
  cbn zeta. cbn [attemptsFrom].
  destruct (attemptsFrom replies left (attempt + 1)) as [result later].
  destruct (replies attempt) as [| | |status decoded];
    cbn [retried rateLimited].
  1-3: cbn [fst snd]; rewrite ?slept_app, ?requests_app;
       destruct (0 <? attempt)%Z; cbn; repeat split; try lia; congruence.
  destruct (Z.eqb_spec status 429) as [->|]; cbn [orb negb].
  { cbn [fst snd]; rewrite ?slept_app, ?requests_app;
      destruct (0 <? attempt)%Z; cbn; repeat split; try lia; congruence. }
  destruct (Z.eqb_spec status 200) as [->|]; cbn [orb negb].
  2: { cbn [fst snd]; rewrite ?slept_app, ?requests_app;
       destruct (0 <? attempt)%Z; cbn; repeat split; try lia; congruence. }
  destruct decoded as [a|];
    cbn [fst snd]; rewrite ?slept_app, ?requests_app;
    destruct (0 <? attempt)%Z; cbn; repeat split; try lia; congruence.
Qed.

(** The attempts from [attempt] on return the value of the first one that
    succeeds, when the ones before it are retried. *)
Lemma attemptsFrom_result (left : nat) (attempt : Z) (a : A) :
  (attemptsFrom replies left attempt).1 = Some a <->
  exists k, (attempt <= k < attempt + Z.of_nat left)%Z
            /\ replies k = Response 200 (Some a)
            /\ forall j, (attempt <= j < k)%Z -> retried (replies j) = true.
Proof.
  revert attempt. induction left as [|left IH]; intros attempt.
  - cbn. split; [discriminate|]. intros (k & Hk & _). lia.
  - cbn [attemptsFrom].
    assert (Hgo : forall effects,
      (let '(result, later) := attemptsFrom replies left (attempt + 1) in
       (result,
        (if (0 <? attempt)%Z then [SleepFor (backoff attempt)] else [])
          ++ effects ++ later)).1
      = (attemptsFrom replies left (attempt + 1)).1).
    { intros effects.
      now destruct (attemptsFrom replies left (attempt + 1)). }
    assert (Hnext : retried (replies attempt) = true ->
      ((attemptsFrom replies left (attempt + 1)).1 = Some a <->
       exists k, (attempt <= k < attempt + Z.of_nat (S left))%Z
            /\ replies k = Response 200 (Some a)
            /\ forall j, (attempt <= j < k)%Z ->
                         retried (replies j) = true)).
    { intros Hr. rewrite IH. split.
      - intros (k & Hk & Hrep & Hbefore). exists k.
        repeat split; try lia; auto.
        intros j Hj. destruct (Z.eq_dec j attempt) as [->|]; auto.
        apply Hbefore. lia.
      - intros (k & Hk & Hrep & Hbefore).
        assert (k <> attempt).
        { intros ->. rewrite Hrep in Hr. discriminate Hr. }
        exists k. repeat split; try lia; auto.
        intros j Hj. apply Hbefore. lia. }
    assert (Hstop : forall j, (attempt <= j)%Z ->
              retried (replies attempt) = false ->
              (forall i, (attempt <= i < j)%Z ->
                         retried (replies i) = true) ->
              j = attempt).
    { intros j Hj Hr Hbefore. destruct (Z.eq_dec j attempt); auto.
      rewrite Hbefore in Hr by lia. discriminate. }
    destruct (replies attempt) as [| | |status [a'|]] eqn:Er.
    + cbn. split; [discriminate|].
      intros (k & Hk & Hrep & Hbefore).
      rewrite (Hstop k) in Hrep by (auto; lia). congruence.
    + rewrite Hgo. now apply Hnext.
    + rewrite Hgo. now apply Hnext.
    + cbn [retried] in *.
      destruct (Z.eqb_spec status 429) as [->|];
        [rewrite Hgo; now apply Hnext|].
      destruct (Z.eqb_spec status 200) as [->|]; cbn [negb orb] in *;
        [|rewrite Hgo; now apply Hnext].
      cbn. split.
      * intros [= ->]. exists attempt. repeat split; try lia; auto.
      * intros (k & Hk & Hrep & Hbefore).
        rewrite (Hstop k) in Hrep by (auto; lia). congruence.
    + cbn [retried] in *.
      destruct (Z.eqb_spec status 429) as [->|];
        [rewrite Hgo; now apply Hnext|].
      destruct (Z.eqb_spec status 200) as [->|]; cbn [negb orb] in *;
        rewrite Hgo; now apply Hnext.
Qed.

End RetryFacts.

(** X1: [fetchPage], [fetchHTML] and [fetchDoc] return a value exactly
    when one of the three attempts gets a reply 200 that decodes and every
    attempt before it ended in an error after which the loop goes on (a
    network or read error, a status other than 200, a body that does not
    decode); the value is the one of that attempt.  A request that cannot
    be built ends the loop at once, with an error. *)
Theorem fetch_first_success :
  forall (A : Type) (replies : Z -> Retry.reply A) (a : A),
    (Retry.fetch replies).1 = Some a <->
    exists k, (0 <= k < Retry.maxRetries)%Z
              /\ replies k = Retry.Response 200 (Some a)
              /\ forall j, (0 <= j < k)%Z ->
                           Retry.retried (replies j) = true.
Proof.
  intros A replies a. unfold Retry.fetch.
  rewrite attemptsFrom_result. reflexivity.
Qed.

(** X2: the effort of a fetch is bounded.  It sends at most three
    requests and sleeps at most 45 seconds in all; it sleeps exactly 45
    seconds when all three replies are 429 (3 s, 2 s, 9 s, 4 s and, after
    the last attempt, 27 s before it returns the error); it does not
    sleep when the first attempt decides; and when it fails although
    every request could be built, it has sent all three requests and
    waited the two back-offs of 2 s and 4 s. *)
Theorem fetch_effort_bounded :
  forall (A : Type) (replies : Z -> Retry.reply A),
    let effects := (Retry.fetch replies).2 in
    Retry.requests effects <= 3
    /\ (0 <= Retry.slept effects <= 45 * Retry.Second)%Z
    /\ (Retry.slept effects = (45 * Retry.Second)%Z <->
        Retry.rateLimited (replies 0%Z) && Retry.rateLimited (replies 1%Z)
        && Retry.rateLimited (replies 2%Z) = true)
    /\ (Retry.retried (replies 0%Z) = false -> Retry.slept effects = 0%Z)
    /\ ((Retry.fetch replies).1 = None ->
        (forall k, (0 <= k < 3)%Z -> replies k <> Retry.BadRequest) ->
        Retry.requests effects = 3
        /\ (6 * Retry.Second <= Retry.slept effects)%Z).
Proof.
  intros A replies. cbn zeta.
  destruct backoff_values as (B1 & B2 & R0 & R1 & R2).
  unfold Retry.fetch, Retry.maxRetries. change (Z.to_nat 3) with 3.
  destruct (attempt_turn replies 2 0) as (S0 & Q0 & N0 & M0).
  destruct (attempt_turn replies 1 1) as (S1 & Q1 & N1 & M1).
  destruct (attempt_turn replies 0 2) as (S2 & Q2 & N2 & M2).
  cbn zeta in *.
  change (0 + 1)%Z with 1%Z in *. change (1 + 1)%Z with 2%Z in *.
  change (0 <? 0)%Z with false in *. change (0 <? 1)%Z with true in *.
  change (0 <? 2)%Z with true in *.
  change (Retry.attemptsFrom replies 0 (2 + 1))
    with (@None A, @nil Retry.effect) in *.
  cbn [fst snd] in S2, Q2, N2.
  change (Retry.slept []) with 0%Z in *.
  change (Retry.requests []) with 0 in *.
  rewrite S0, S1, S2, Q0, Q1, Q2, B1, B2, R0, R1, R2. unfold Retry.Second.
  destruct (reply_kinds (replies 0%Z))
    as [(E0 & G0 & T0 & L0) | [(E0 & G0 & T0 & L0)
        | [(E0 & G0 & T0 & L0) | (E0 & G0 & T0 & L0)]]];
  destruct (reply_kinds (replies 1%Z))
    as [(E1 & G1 & T1 & L1) | [(E1 & G1 & T1 & L1)
        | [(E1 & G1 & T1 & L1) | (E1 & G1 & T1 & L1)]]];
  destruct (reply_kinds (replies 2%Z))
    as [(E2 & G2 & T2 & L2) | [(E2 & G2 & T2 & L2)
        | [(E2 & G2 & T2 & L2) | (E2 & G2 & T2 & L2)]]];
  rewrite ?G0, ?G1, ?G2, ?T0, ?T1, ?T2, ?L0, ?L1, ?L2;
  cbn [andb];
  (split; [lia|]); (split; [lia|]);
  (split; [split; intros; (lia || discriminate || reflexivity)|]);
  (split; [intros; (lia || discriminate || reflexivity)|]);
  intros Hnone Hbad;
  try (exfalso; apply (Hbad 0%Z); [lia | assumption]);
  try (exfalso; apply (Hbad 1%Z); [lia | assumption]);
  try (exfalso; apply (Hbad 2%Z); [lia | assumption]);
  try (split; lia).
  all: exfalso.
  all: try (exact (M0 T0 E0 Hnone)).
  all: try (rewrite (N0 T0) in Hnone; exact (M1 T1 E1 Hnone)).
  all: rewrite (N0 T0), (N1 T1) in Hnone; exact (M2 T2 E2 Hnone).
Qed.

(** ** Category discovery in the API scraper *)

Section ApiDiscovery.
Import Api.
Open Scope Z_scope.

Variable reply : Z -> option (list APICategory).

Lemma wrapInt64_small (z : Z) : - 2 ^ 63 <= z < 2 ^ 63 -> wrapInt64 z = z.
Proof. intros H. unfold wrapInt64. rewrite Z.mod_small; lia. Qed.

(** The loop over the categories of one page: an entry of the map was
    there before or comes from a category that passes the filter. *)
Lemma keep_fold_sound (cs : list APICategory) (P : string -> string -> Prop)
      (m : gmap string string) :
  (forall name sl, m !! name = Some sl -> P name sl) ->
  (forall c, In c cs -> Parent c = 0 -> 0 < Count c ->
             ignoreSlugs (Slug c) = false -> P (CategoryName c) (Slug c)) ->
  forall name sl,
    fold_left
      (fun m c =>
         if (Parent c =? 0)%Z && (0 <? Count c)%Z
            && negb (ignoreSlugs (Slug c))
         then <[CategoryName c := Slug c]> m else m) cs m !! name = Some sl ->
    P name sl.
Proof.
  revert m. induction cs as [|c cs IH]; intros m Hm Hcs; cbn [fold_left].
  - exact Hm.
  - apply IH.
    + intros name sl.
      destruct (Z.eqb_spec (Parent c) 0) as [Hp|]; cbn [andb]; [|apply Hm].
      destruct (Z.ltb_spec 0 (Count c)) as [Hc|]; cbn [andb]; [|apply Hm].
      destruct (ignoreSlugs (Slug c)) eqn:Hi; cbn [negb]; [apply Hm|].
      destruct (decide (CategoryName c = name)) as [<-|Hne].
      * rewrite lookup_insert_eq. intros [= <-]. apply Hcs; auto. now left.
      * rewrite lookup_insert_ne by exact Hne. apply Hm.
    + intros c' Hin. apply Hcs. now right.
Qed.

(** The same loop keeps the names it had and adds the name of every
    category that passes the filter. *)
Lemma keep_fold_complete (cs : list APICategory) (m : gmap string string) :
  let m' :=
    fold_left
      (fun m c =>
         if (Parent c =? 0)%Z && (0 <? Count c)%Z
            && negb (ignoreSlugs (Slug c))
         then <[CategoryName c := Slug c]> m else m) cs m in
  (forall name, is_Some (m !! name) -> is_Some (m' !! name))
  /\ (forall c, In c cs -> Parent c = 0 -> 0 < Count c ->
                ignoreSlugs (Slug c) = false ->
                is_Some (m' !! CategoryName c)).
Proof.
  revert m. induction cs as [|c cs IH]; intros m; cbn [fold_left].
  - split; [auto | intros c []].
  - destruct (IH (if (Parent c =? 0)%Z && (0 <? Count c)%Z
                     && negb (ignoreSlugs (Slug c))
                  then <[CategoryName c := Slug c]> m else m))
      as [Hmono Hin].
    cbn zeta in *.
    split.
    + intros name Hs. apply Hmono.
      destruct ((Parent c =? 0)%Z && (0 <? Count c)%Z
                && negb (ignoreSlugs (Slug c))); [|exact Hs].
      destruct (decide (CategoryName c = name)) as [<-|Hne].
      * rewrite lookup_insert_eq. eauto.
      * now rewrite lookup_insert_ne.
    + intros c' [<- | Hc'] Hp Hc Hi; [|now apply Hin].
      apply Hmono.
      rewrite (proj2 (Z.eqb_eq _ _) Hp), (proj2 (Z.ltb_lt _ _) Hc), Hi.
      cbn. rewrite lookup_insert_eq. eauto.
Qed.

Lemma fetchCategoriesFrom_sound (P : string -> string -> Prop)
      (fuel : nat) (page : Z) (acc cats : gmap string string) :
  (forall p cs c, reply p = Some cs -> In c cs -> Parent c = 0 ->
                  0 < Count c -> ignoreSlugs (Slug c) = false ->
                  P (CategoryName c) (Slug c)) ->
  (forall name sl, acc !! name = Some sl -> P name sl) ->
  fetchCategoriesFrom fuel reply page acc = Returned cats ->
  forall name sl, cats !! name = Some sl -> P name sl.
Proof.
  intros HP. revert page acc.
  induction fuel as [|fuel IH]; intros page acc Hacc;
    cbn [fetchCategoriesFrom]; [discriminate|].
  destruct (reply page) as [[|c cs]|] eqn:Er; [| |discriminate].
  - now intros [= <-].
  - apply IH. apply keep_fold_sound; [exact Hacc|].
    intros c' Hin Hp Hc Hi. eapply HP; eauto.
Qed.

(** The pages from [page] on, when [k] of them have categories and the
    next one is empty or fails. *)
Lemma fetchCategoriesFrom_pages (k : nat) (fuel : nat) (page : Z)
      (acc : gmap string string) :
  (k < fuel)%nat -> - 2 ^ 63 <= page -> page + Z.of_nat k < 2 ^ 63 ->
  (forall j, page <= j < page + Z.of_nat k ->
             exists c cs, reply j = Some (c :: cs)) ->
  (reply (page + Z.of_nat k) = Some [] ->
   exists cats,
     fetchCategoriesFrom fuel reply page acc = Returned cats
     /\ (forall name, is_Some (acc !! name) -> is_Some (cats !! name))
     /\ forall j cs c, page <= j < page + Z.of_nat k ->
          reply j = Some cs -> In c cs ->
          Parent c = 0 -> 0 < Count c -> ignoreSlugs (Slug c) = false ->
          is_Some (cats !! CategoryName c))
  /\ (reply (page + Z.of_nat k) = None ->
      fetchCategoriesFrom fuel reply page acc = Failed).
Proof.
  revert fuel page acc.
  induction k as [|k IH]; intros fuel page acc Hk Hlo Hhi Hpages.
  - destruct fuel as [|fuel]; [lia|]. cbn [fetchCategoriesFrom].
    rewrite Z.add_0_r. split; intros ->; [|reflexivity].
    exists acc. repeat split; auto. intros; lia.
  - destruct fuel as [|fuel]; [lia|]. cbn [fetchCategoriesFrom].
    destruct (Hpages page) as (c & cs & Er); [lia|]. rewrite Er.
    rewrite wrapInt64_small by lia.
    set (acc' := fold_left _ (c :: cs) acc).
    destruct (keep_fold_complete (c :: cs) acc) as [Hmono Hin].
    fold acc' in Hmono, Hin. cbn zeta in Hmono, Hin.
    destruct (IH fuel (page + 1) acc') as [Hret Hfail]; try lia.
    { intros j Hj. apply Hpages. lia. }
    replace (page + 1 + Z.of_nat k) with (page + Z.of_nat (S k)) in * by lia.
    split; [|exact Hfail].
    intros Hlast. destruct (Hret Hlast) as (cats & Hc & Hm & Hall).
    exists cats. split; [exact Hc|]. split; [auto|].
    intros j cs' c' Hj Hrj Hinc Hp Hcnt Hi.
    destruct (Z.eq_dec j page) as [->|Hne].
    + rewrite Er in Hrj. injection Hrj as <-. apply Hm. now apply Hin.
    + eapply Hall; eauto. lia.
Qed.

End ApiDiscovery.

(** X3: every entry of the map that [fetchCategories] of the API scraper
    returns is the name and the slug of a category of some page of the
    reply that is a root (parent 0), has products (count above 0) and
    whose slug is not the ignored one, "uncategorized". *)
Theorem discovered_categories_are_roots :
  forall (reply : Z -> option (list Api.APICategory)) (fuel : nat)
         (cats : gmap string string) (name sl : string),
    Api.fetchCategories fuel reply = Api.Returned cats ->
    cats !! name = Some sl ->
    sl <> "uncategorized"
    /\ exists p cs c,
         reply p = Some cs /\ In c cs
         /\ Api.CategoryName c = name /\ Api.Slug c = sl
         /\ Api.Parent c = 0%Z /\ (0 < Api.Count c)%Z.
Proof.
  intros reply fuel cats name sl Hf.
  apply (fetchCategoriesFrom_sound reply
           (fun name sl =>
              sl <> "uncategorized"
              /\ exists p cs c,
                   reply p = Some cs /\ In c cs
                   /\ Api.CategoryName c = name /\ Api.Slug c = sl
                   /\ Api.Parent c = 0%Z /\ (0 < Api.Count c)%Z)
           fuel 1%Z ∅ cats); [| |exact Hf].
  - intros p cs c Hr Hin Hp Hc Hi. split.
    + intros E. unfold Api.ignoreSlugs in Hi. rewrite E in Hi.
      discriminate Hi.
    + exists p, cs, c. auto 10.
  - intros n s. rewrite lookup_empty. discriminate.
Qed.

(** The endpoint [Examples.categoryPages]: of the four categories of its
    first page only "Fundas" is kept. *)
Lemma discovered_categories_witness :
  Api.fetchCategories 3 Examples.categoryPages
  = Api.Returned {[ "Fundas" := "fundas" ]}
  /\ "fundas" <> "uncategorized"
  /\ exists p cs c,
       Examples.categoryPages p = Some cs /\ In c cs
       /\ Api.CategoryName c = "Fundas" /\ Api.Slug c = "fundas"
       /\ Api.Parent c = 0%Z /\ (0 < Api.Count c)%Z.
Proof.
  split; [vm_compute; reflexivity|].
  apply (discovered_categories_are_roots Examples.categoryPages 3
           {[ "Fundas" := "fundas" ]} "Fundas" "fundas").
  - vm_compute. reflexivity.
  - vm_compute. reflexivity.
Defined.

(** X4: [fetchCategories] of the API scraper reads the pages 1, 2, ... in
    order and stops at the first page that is empty or fails.  When the
    first [k] pages have categories and the next one is empty, it returns
    a map that holds the name of every root category with products and a
    slug other than "uncategorized" of those pages; when the next one
    fails, the whole discovery fails and what the earlier pages gave is
    lost. *)
Theorem discovery_stops_at_first_empty_page :
  forall (reply : Z -> option (list Api.APICategory)) (k fuel : nat),
    k < fuel -> (Z.of_nat k + 1 < 2 ^ 63)%Z ->
    (forall j, (1 <= j <= Z.of_nat k)%Z ->
               exists c cs, reply j = Some (c :: cs)) ->
    (reply (Z.of_nat k + 1)%Z = Some [] ->
     exists cats,
       Api.fetchCategories fuel reply = Api.Returned cats
       /\ forall j cs c, (1 <= j <= Z.of_nat k)%Z ->
            reply j = Some cs -> In c cs ->
            Api.Parent c = 0%Z -> (0 < Api.Count c)%Z ->
            Api.Slug c <> "uncategorized" ->
            is_Some (cats !! Api.CategoryName c))
    /\ (reply (Z.of_nat k + 1)%Z = None ->
        Api.fetchCategories fuel reply = Api.Failed).
Proof.
  intros reply k fuel Hk Hhi Hpages.
  destruct (fetchCategoriesFrom_pages reply k fuel 1%Z ∅) as [Hret Hfail];
    try lia.
  { intros j Hj. apply Hpages. lia. }
  replace (1 + Z.of_nat k)%Z with (Z.of_nat k + 1)%Z in * by lia.
  split; [|exact Hfail].
  intros Hlast. destruct (Hret Hlast) as (cats & Hc & _ & Hall).
  exists cats. split; [exact Hc|].
  intros j cs c Hj Hr Hin Hp Hcnt Hs.
  apply (Hall j cs c); auto; [lia|].
  unfold Api.ignoreSlugs. now apply String.eqb_neq.
Qed.

(** The endpoint [Examples.categoryPages] has one page of categories and
    then an empty page: two requests are enough. *)
Lemma discovery_stops_witness :
  (Examples.categoryPages 2%Z = Some [] ->
   exists cats,
     Api.fetchCategories 2 Examples.categoryPages = Api.Returned cats
     /\ forall j cs c, (1 <= j <= 1)%Z ->
          Examples.categoryPages j = Some cs -> In c cs ->
          Api.Parent c = 0%Z -> (0 < Api.Count c)%Z ->
          Api.Slug c <> "uncategorized" ->
          is_Some (cats !! Api.CategoryName c))
  /\ (Examples.categoryPages 2%Z = None ->
      Api.fetchCategories 2 Examples.categoryPages = Api.Failed).
Proof.
  apply (discovery_stops_at_first_empty_page Examples.categoryPages 1 2).
  - lia.
  - lia.
  - intros j Hj. assert (j = 1%Z) as -> by lia.
    eexists. eexists. reflexivity.
Defined.
(** ** URLs and images *)

Section Urls.
Import Myshop.

Lemma absURL_empty (rel : string) : absURL rel = "" <-> rel = "".
Proof.
  unfold absURL. split; [|now intros ->].
  destruct rel as [|c rel]; [reflexivity|].
  cbn [String.eqb orb]. destruct (Go.HasPrefix _ _); discriminate.
Qed.

Lemma absURL_http (rel : string) :
  rel <> "" -> Go.HasPrefix (absURL rel) "http" = true.
Proof.
  intros Hne. unfold absURL.
  destruct (String.eqb_spec rel "") as [->|_]; [contradiction|].
  cbn [orb]. destruct (Go.HasPrefix rel "http") eqn:Hp; [exact Hp|].
  reflexivity.
Qed.

End Urls.

(** X5: [absURL] leaves the empty string and an absolute URL as they
    are and puts the base URL before anything else; so its result is
    empty only for the empty string, starts with "http" otherwise, and
    applying it twice changes nothing. *)
Theorem absURL_absolute :
  forall rel : string,
    Myshop.absURL (Myshop.absURL rel) = Myshop.absURL rel
    /\ (Myshop.absURL rel = "" <-> rel = "")
    /\ (rel <> "" -> Go.HasPrefix (Myshop.absURL rel) "http" = true)
    /\ (rel <> "" -> Go.HasPrefix rel "http" = false ->
        Myshop.absURL rel = Myshop.baseURL +:+ rel).
Proof.
  intros rel. split; [|split; [apply absURL_empty|split]].
  - unfold Myshop.absURL.
    destruct (String.eqb_spec rel "") as [->|Hne]; [reflexivity|].
    cbn [orb]. destruct (Go.HasPrefix rel "http") eqn:Hp.
    + rewrite Hp, orb_true_r. reflexivity.
    + reflexivity.
  - apply absURL_http.
  - intros Hne Hp. unfold Myshop.absURL. rewrite Hp.
    destruct (String.eqb_spec rel "") as [->|_]; [contradiction|].
    reflexivity.
Qed.


(** ** The srcset of an API image *)

Section Srcset.
Import Api.





End Srcset.


(** ** The category maps of the my-shop scrapers *)

Section Sidebar.
Import Myshop.



End Sidebar.




(** ** Prices read from text *)

Section Prices.

Lemma takeWhile_all (f : ascii -> bool) (l : list ascii) :
  Forall (fun c => f c = true) (Go.takeWhile f l).
Proof.
  induction l as [|c l IH]; cbn; [constructor|].
  destruct (f c) eqn:E; constructor; assumption.
Qed.

Lemma takeWhile_weaken (f g : ascii -> bool) (l : list ascii) :
  (forall c, In c l -> f c = g c) -> Go.takeWhile f l = Go.takeWhile g l.
Proof.
  induction l as [|c l IH]; intros H; cbn; [reflexivity|].
  rewrite <- (H c) by now left. destruct (f c); [|reflexivity].
  f_equal. apply IH. intros x Hx. apply H. now right.
Qed.

Lemma dropWhile_suffix (f : ascii -> bool) (l : list ascii) (c : ascii) :
  In c (Go.dropWhile f l) -> In c l.
Proof.
  induction l as [|x l IH]; cbn; [auto|].
  destruct (f x); [intros H; right; now apply IH | auto].
Qed.

Lemma dropWhile_head (f : ascii -> bool) (l : list ascii) (c : ascii)
      (rest : list ascii) :
  Go.dropWhile f l = c :: rest -> f c = false.
Proof.
  induction l as [|x l IH]; cbn; [discriminate|].
  destruct (f x) eqn:E; [exact IH | now intros [= <- _]].
Qed.

Lemma removeCommas_chars (s : string) (c : ascii) :
  In c (list_ascii_of_string (Go.removeCommas s)) -> c <> ","%char.
Proof.
  unfold Go.removeCommas. rewrite list_ascii_of_string_of_list_ascii.
  intros H. apply filter_In in H as [_ H].
  intros ->. discriminate H.
Qed.

(** On a text without commas the first number is the empty string, when
    the text has no digit, or a decimal literal. *)
Lemma reFirstNum_literal (s : string) :
  (forall c, In c (list_ascii_of_string s) -> c <> ","%char) ->
  (Goquery.reFirstNum s = ""
   /\ forall c, In c (list_ascii_of_string s) -> Go.isDigit c = false)
  \/ decimalLiteral (Goquery.reFirstNum s).
Proof.
  intros Hnc. unfold Goquery.reFirstNum.
  set (l := Go.dropWhile (fun c => negb (Go.isDigit c))
                         (list_ascii_of_string s)).
  assert (Hl : forall c, In c l -> c <> ","%char).
  { intros c Hc. apply Hnc. eapply dropWhile_suffix. exact Hc. }
  set (digitOrComma := fun c => Go.isDigit c || Ascii.eqb c ","%char).
  assert (Hsame : forall c, In c l -> digitOrComma c = Go.isDigit c).
  { intros c Hc. unfold digitOrComma.
    destruct (Ascii.eqb_spec c ","%char) as [->|_];
      [now apply Hl in Hc | apply orb_false_r]. }
  assert (Hhead : Forall (fun c => Go.isDigit c = true)
                         (Go.takeWhile digitOrComma l)).
  { rewrite (takeWhile_weaken _ _ _ Hsame). apply takeWhile_all. }
  destruct l as [|d l'] eqn:El.
  - left. split; [reflexivity|].
    intros c Hc. subst l.
    clear - El Hc. induction (list_ascii_of_string s) as [|x xs IH];
      [destruct Hc|].
    cbn in El. destruct (Go.isDigit x) eqn:Ex; cbn in El; [discriminate|].
    destruct Hc as [<- | Hc]; [exact Ex | now apply IH].
  - right.
    assert (Hd : Go.isDigit d = true).
    { apply dropWhile_head in El. now apply negb_false_iff in El. }
    assert (Hne : Go.takeWhile digitOrComma (d :: l') <> []).
    { cbn. unfold digitOrComma at 1. rewrite Hd. discriminate. }
    destruct (Go.dropWhile digitOrComma (d :: l')) as [|c rest'].
    + exists (Go.takeWhile digitOrComma (d :: l')), []. auto.
    + destruct (Ascii.eqb_spec c "."%char) as [->|_].
      * exists (Go.takeWhile digitOrComma (d :: l')),
               (Go.takeWhile Go.isDigit rest').
        repeat split; auto. apply takeWhile_all.
      * exists (Go.takeWhile digitOrComma (d :: l')), []. auto.
Qed.

End Prices.

(** X10: [parsePrice] of the selector scraper hands [strconv.ParseFloat]
    a decimal literal and nothing else.  For a text without a digit it
    returns 0 without parsing; otherwise it parses the first number of
    the text with its commas removed, which is a run of digits, or a run
    of digits, a dot and digits.  So the error that it drops can only be
    a range error. *)
Theorem goquery_price_literal :
  forall (ParseFloat : string -> float) (s : string),
    ((forall c, In c (list_ascii_of_string s) -> Go.isDigit c = false)
     /\ Goquery.parsePrice ParseFloat s = 0%float)
    \/ (exists m, decimalLiteral m
                  /\ Goquery.parsePrice ParseFloat s = ParseFloat m).
Proof.
  intros ParseFloat s. unfold Goquery.parsePrice.
  destruct (reFirstNum_literal (Go.removeCommas s)
              (removeCommas_chars s)) as [[-> Hnd] | Hlit].
  - left. split; [|reflexivity].
    intros c Hc.
    destruct (Ascii.eqb_spec c ","%char) as [->|Hne]; [reflexivity|].
    apply Hnd. unfold Go.removeCommas.
    rewrite list_ascii_of_string_of_list_ascii. apply filter_In.
    split; [exact Hc|]. now apply negb_true_iff, Ascii.eqb_neq.
  - right. exists (Goquery.reFirstNum (Go.removeCommas s)).
    split; [exact Hlit|].
    destruct (String.eqb_spec (Goquery.reFirstNum (Go.removeCommas s)) "")
      as [E|_]; [|reflexivity].
    exfalso. destruct Hlit as (ip & fp & Hne & _ & _ & [H | H]);
      rewrite E in H; destruct ip; try contradiction; discriminate H.
Qed.

(** ** The listing phase: [collectFromCategory] *)

Section ListingFacts.
Import Myshop.

Lemma keepNew_ok (Q : productEntry -> Prop) (catName : string)
      (acc : gset string * list productEntry * nat) (u i : string) :
  scanOk Q acc -> Q (mkEntry u i catName) ->
  scanOk Q (keepNew catName acc u i).
Proof.
  intros (Hnd & Hseen & HQ) Hq. unfold keepNew.
  destruct (decide (u ∈ acc.1.1)) as [Hin | Hnin];
    [exact (conj Hnd (conj Hseen HQ))|].
  unfold scanOk. cbn [fst snd]. rewrite List.map_app. cbn [List.map url].
  split; [|split].
  - apply NoDup_app. repeat split.
    + exact Hnd.
    + intros x Hx Hx'. apply list_elem_of_In in Hx, Hx'.
      destruct Hx' as [<- | []]. apply Hnin. now apply Hseen.
    + apply NoDup_singleton.
  - intros x. rewrite elem_of_union, elem_of_singleton, in_app_iff, Hseen.
    cbn. intuition congruence.
  - apply List.Forall_app. split; [exact HQ | now constructor].
Qed.

(** What a new entry does to the set of URLs seen and to the count. *)
Lemma keepNew_size (catName : string)
      (acc : gset string * list productEntry * nat) (u i : string) :
  let acc' := keepNew catName acc u i in
  size acc'.1.1 + acc.2 = size acc.1.1 + acc'.2
  /\ acc.2 <= acc'.2
  /\ forall x, x ∈ acc'.1.1 <-> x ∈ acc.1.1 \/ x = u.
Proof.
  unfold keepNew.
  destruct (decide (u ∈ acc.1.1)) as [Hin | Hnin]; cbn [fst snd].
  - repeat split; auto. intros [H | ->]; auto.
  - rewrite size_union
      by (intros x Hx Hx'; apply elem_of_singleton in Hx; now subst x).
    rewrite size_singleton.
    repeat split; try lia; rewrite elem_of_union, elem_of_singleton; tauto.
Qed.

Section Scan.
Context {B : Type}.
Variables (skip : B -> bool) (fullURL imagen : B -> string).
Variable catName : string.

Lemma scan_ok (Q : productEntry -> Prop) (l : list B)
      (acc : gset string * list productEntry * nat) :
  scanOk Q acc ->
  (forall a, In a l -> skip a = false ->
             Q (mkEntry (fullURL a) (imagen a) catName)) ->
  scanOk Q
    (fold_left
       (fun acc a =>
          if skip a then acc
          else keepNew catName acc (fullURL a) (imagen a)) l acc).
Proof.
  revert acc. induction l as [|a l IH]; intros acc Hacc Hl;
    cbn [fold_left]; [exact Hacc|].
  apply IH; [|intros b Hb; apply Hl; now right].
  destruct (skip a) eqn:Es; [exact Hacc|].
  apply keepNew_ok; [exact Hacc|]. apply Hl; [now left | exact Es].
Qed.

(** The scan of a page adds as many URLs to the set as it counts. *)
Lemma scan_size (l : list B) (acc : gset string * list productEntry * nat) :
  let acc' :=
    fold_left
      (fun acc a =>
         if skip a then acc
         else keepNew catName acc (fullURL a) (imagen a)) l acc in
  size acc'.1.1 + acc.2 = size acc.1.1 + acc'.2
  /\ acc.2 <= acc'.2
  /\ forall x, x ∈ acc'.1.1 ->
               x ∈ acc.1.1
               \/ exists a, In a l /\ skip a = false /\ x = fullURL a.
Proof.
  revert acc. induction l as [|a l IH]; intros acc; cbn [fold_left].
  - cbn zeta. repeat split; auto.
  - specialize (IH (if skip a then acc
                    else keepNew catName acc (fullURL a) (imagen a))).
    cbn zeta in *. destruct IH as (Hsize & Hle & Hin).
    destruct (skip a) eqn:Es.
    + repeat split; auto. intros x Hx.
      destruct (Hin x Hx) as [H | (b & Hb & Hs & ->)]; auto.
      right. exists b. auto using in_cons.
    + destruct (keepNew_size catName acc (fullURL a) (imagen a))
        as (Hsize' & Hle' & Hin').
      cbn zeta in *. repeat split; try lia.
      intros x Hx.
      destruct (Hin x Hx) as [H | (b & Hb & Hs & ->)].
      * apply Hin' in H as [H | ->]; auto.
        right. exists a. repeat split; auto. now left.
      * right. exists b. auto using in_cons.
Qed.

End Scan.

(** Distinct strings of a finite set are no more than its size. *)
Lemma NoDup_within (l : list string) (U : gset string) :
  NoDup l -> (forall u, In u l -> u ∈ U) -> length l <= size U.
Proof.
  intros Hnd Hin. rewrite <- (size_list_to_set (C := gset string) l Hnd).
  apply subseteq_size. intros u Hu. apply elem_of_list_to_set in Hu.
  apply Hin. now apply list_elem_of_In.
Qed.

(** An accepted link is a path under /shop/, so its absolute form is the
    base URL followed by the path. *)
Lemma isProductURL_shop (href : string) :
  Goquery.isProductURL href = true ->
  Go.HasPrefix href "/shop/" = true
  /\ Go.Contains href "/category/" = false
  /\ absURL href = baseURL +:+ href.
Proof.
  unfold Goquery.isProductURL.
  destruct (Go.HasPrefix href "/shop/") eqn:Hp; cbn [negb]; [|discriminate].
  destruct (Go.Contains href "/category/") eqn:Hc; [discriminate|].
  intros _. repeat split.
  unfold absURL. unfold Go.HasPrefix in *.
  destruct href as [|c href]; [discriminate Hp|].
  cbn [String.prefix] in Hp.
  destruct (ascii_dec "/" c) as [<-|]; [|discriminate Hp].
  reflexivity.
Qed.

Section GoqueryListing.
Import Goquery.
Variable fetchDoc : string -> option listingPage.
Variables catName catURL : string.

Lemma goquery_scan_ok (pageURL : string) (anchors : listingPage)
      (seen : gset string) (entries : list productEntry) :
  fetchDoc pageURL = Some anchors ->
  scanOk (goqueryListed fetchDoc catName) (seen, entries, 0) ->
  scanOk (goqueryListed fetchDoc catName)
         (scanListing catName anchors (seen, entries, 0)).
Proof.
  intros Hf Hacc. unfold scanListing.
  apply (scan_ok (fun a => negb (isProductURL a.1))
                 (fun a => absURL a.1) (fun a => absURL a.2));
    [exact Hacc|].
  intros a Hin Hs. apply negb_false_iff in Hs.
  exists pageURL, anchors, a. repeat split; auto.
  now rewrite (proj2 (proj2 (isProductURL_shop _ Hs))).
Qed.

Lemma goquery_collectFrom_ok (fuel : nat) (page : Z) (seen : gset string)
      (entries res : list productEntry) :
  scanOk (goqueryListed fetchDoc catName) (seen, entries, 0) ->
  collectFrom fuel fetchDoc catName catURL page seen entries = Some res ->
  NoDup (List.map url res)
  /\ List.Forall (goqueryListed fetchDoc catName) res.
Proof.
  revert page seen entries.
  induction fuel as [|fuel IH]; intros page seen entries Hacc;
    cbn [collectFrom]; [discriminate|].
  destruct (fetchDoc _) as [anchors|] eqn:Ef.
  2: { intros [= <-]. destruct Hacc as (Hnd & _ & HQ). auto. }
  pose proof (goquery_scan_ok _ _ _ _ Ef Hacc) as Hscan. cbn zeta.
  destruct (scanListing catName anchors (seen, entries, 0))
    as [[seen' entries'] found] eqn:Es. cbn [fst snd].
  assert (Hres : NoDup (List.map url entries')
                 /\ List.Forall (goqueryListed fetchDoc catName) entries').
  { destruct Hscan as (Hnd & _ & HQ). auto. }
  destruct (Nat.eqb found 0); [now intros [= <-]|].
  destruct (negb _); [now intros [= <-]|].
  apply IH. exact Hscan.
Qed.

Lemma goquery_collectFrom_ends (U : gset string) :
  (forall pageURL anchors a,
      fetchDoc pageURL = Some anchors -> In a anchors ->
      isProductURL a.1 = true -> absURL a.1 ∈ U) ->
  forall (fuel : nat) (page : Z) (seen : gset string)
         (entries : list productEntry),
    seen ⊆ U -> size U < size seen + fuel ->
    is_Some (collectFrom fuel fetchDoc catName catURL page seen entries).
Proof.
  intros HU.
  induction fuel as [|fuel IH]; intros page seen entries Hsub Hsize.
  - pose proof (subseteq_size _ _ Hsub). lia.
  - cbn [collectFrom]. destruct (fetchDoc _) as [anchors|] eqn:Ef; [|eauto].
    cbn zeta.
    destruct (scan_size (fun a => negb (isProductURL a.1))
                (fun a => absURL a.1) (fun a => absURL a.2) catName
                anchors (seen, entries, 0)) as (Hsz & _ & Hin).
    fold (scanListing catName anchors (seen, entries, 0)) in Hsz, Hin.
    cbn zeta in Hsz, Hin. cbn [fst snd] in Hsz, Hin.
    destruct (scanListing catName anchors (seen, entries, 0))
      as [[seen' entries'] found]. cbn [fst snd] in *.
    destruct (Nat.eqb_spec found 0) as [|Hfound]; [eauto|].
    destruct (negb _); [eauto|].
    apply IH; [|lia].
    intros x Hx. destruct (Hin x Hx) as [H | (a & Ha & Hs & ->)]; [auto|].
    apply negb_false_iff in Hs. eapply HU; eauto.
Qed.

End GoqueryListing.

Section RegexListing.
Import Regex.
Variable fetchHTML : string -> option listingPage.
Variables catName catURL : string.

Lemma regex_scan_ok (pageURL : string) (pg : listingPage)
      (seen : gset string) (entries : list productEntry) :
  fetchHTML pageURL = Some pg ->
  scanOk (regexListed fetchHTML catName) (seen, entries, 0) ->
  scanOk (regexListed fetchHTML catName)
         (scanListing catName (productMatches pg) (seen, entries, 0)).
Proof.
  intros Hf Hacc. unfold scanListing.
  apply (scan_ok
           (fun m => Go.Contains m.1 "/category/" || Go.Contains m.1 "/cart"
                     || Go.Contains m.1 "/wishlist")
           (fun m => absURL m.1)
           (fun m => match m.2 with
                     | Some src => absURL src
                     | None => ""
                     end));
    [exact Hacc|].
  intros m Hin Hs.
  apply orb_false_iff in Hs as [Hs Hw].
  apply orb_false_iff in Hs as [Hc Hk].
  exists pageURL, pg, m. repeat split; auto.
Qed.

Lemma regex_collectFrom_ok (fuel : nat) (page : Z) (seen : gset string)
      (entries res : list productEntry) :
  scanOk (regexListed fetchHTML catName) (seen, entries, 0) ->
  collectFrom fuel fetchHTML catName catURL page seen entries = Some res ->
  NoDup (List.map url res)
  /\ List.Forall (regexListed fetchHTML catName) res.
Proof.
  revert page seen entries.
  induction fuel as [|fuel IH]; intros page seen entries Hacc;
    cbn [collectFrom]; [discriminate|].
  destruct (fetchHTML _) as [pg|] eqn:Ef.
  2: { intros [= <-]. destruct Hacc as (Hnd & _ & HQ). auto. }
  pose proof (regex_scan_ok _ _ _ _ Ef Hacc) as Hscan. cbn zeta.
  destruct (scanListing catName (productMatches pg) (seen, entries, 0))
    as [[seen' entries'] found] eqn:Es. cbn [fst snd].
  assert (Hres : NoDup (List.map url entries')
                 /\ List.Forall (regexListed fetchHTML catName) entries').
  { destruct Hscan as (Hnd & _ & HQ). auto. }
  destruct (Nat.eqb found 0); [now intros [= <-]|].
  destruct (negb _); [now intros [= <-]|].
  apply IH. exact Hscan.
Qed.

Lemma regex_collectFrom_ends (U : gset string) :
  (forall pageURL pg m,
      fetchHTML pageURL = Some pg -> In m (productMatches pg) ->
      Go.Contains m.1 "/category/" || Go.Contains m.1 "/cart"
      || Go.Contains m.1 "/wishlist" = false ->
      absURL m.1 ∈ U) ->
  forall (fuel : nat) (page : Z) (seen : gset string)
         (entries : list productEntry),
    seen ⊆ U -> size U < size seen + fuel ->
    is_Some (collectFrom fuel fetchHTML catName catURL page seen entries).
Proof.
  intros HU.
  induction fuel as [|fuel IH]; intros page seen entries Hsub Hsize.
  - pose proof (subseteq_size _ _ Hsub). lia.
  - cbn [collectFrom]. destruct (fetchHTML _) as [pg|] eqn:Ef; [|eauto].
    cbn zeta.
    destruct (scan_size
                (fun m => Go.Contains m.1 "/category/"
                          || Go.Contains m.1 "/cart"
                          || Go.Contains m.1 "/wishlist")
                (fun m => absURL m.1)
                (fun m => match m.2 with
                          | Some src => absURL src
                          | None => ""
                          end)
                catName (productMatches pg) (seen, entries, 0))
      as (Hsz & _ & Hin).
    fold (scanListing catName (productMatches pg) (seen, entries, 0))
      in Hsz, Hin.
    cbn zeta in Hsz, Hin. cbn [fst snd] in Hsz, Hin.
    destruct (scanListing catName (productMatches pg) (seen, entries, 0))
      as [[seen' entries'] found]. cbn [fst snd] in *.
    destruct (Nat.eqb_spec found 0) as [|Hfound]; [eauto|].
    destruct (negb _); [eauto|].
    apply IH; [|lia].
    intros x Hx. destruct (Hin x Hx) as [H | (m & Hm & Hs & ->)]; [auto|].
    eapply HU; eauto.
Qed.

End RegexListing.




End ListingFacts.

(** X11: what [collectFromCategory] of the selector scraper returns.  The
    entries have distinct URLs; each carries the name of the category,
    and its URL is the base URL followed by a link that [isProductURL]
    accepts (a path under /shop/ that is no category page) found on a
    page of the category that was fetched, with the image of that link.
    A page whose fetch fails ends the loop with what was found so far. *)
Theorem goquery_listing_entries :
  forall (fetchDoc : string -> option Goquery.listingPage)
         (fuel : nat) (catName catURL : string)
         (entries : list Myshop.productEntry),
    Goquery.collectFromCategory fuel fetchDoc catName catURL
    = Some entries ->
    NoDup (List.map Myshop.url entries)
    /\ (forall e, In e entries ->
          Myshop.category e = catName
          /\ exists pageURL anchors a,
               fetchDoc pageURL = Some anchors /\ In a anchors
               /\ Goquery.isProductURL a.1 = true
               /\ Go.HasPrefix a.1 "/shop/" = true
               /\ Go.Contains a.1 "/category/" = false
               /\ Myshop.url e = Myshop.baseURL +:+ a.1
               /\ Myshop.imagen64 e = Myshop.absURL a.2)
    /\ (fetchDoc catURL = None -> entries = []).
Proof.
  intros fetchDoc fuel catName catURL entries Hc.
  destruct (goquery_collectFrom_ok fetchDoc catName catURL fuel 1%Z ∅ []
              entries) as [Hnd HQ]; [|exact Hc|].
  { split; [constructor|]. split; [|constructor].
    intros u. cbn. split; [intros Hu | intros []].
    now apply elem_of_empty in Hu. }
  split; [exact Hnd|]. split.
  - intros e He.
    destruct (proj1 (List.Forall_forall _ _) HQ e He)
      as (pageURL & anchors & a & Hf & Ha & Hp & ->).
    split; [reflexivity|].
    destruct (isProductURL_shop _ Hp) as (H1 & H2 & _).
    exists pageURL, anchors, a. auto 10.
  - intros Hnone. destruct fuel as [|fuel]; [discriminate Hc|].
    unfold Goquery.collectFromCategory in Hc. cbn in Hc.
    rewrite Hnone in Hc. now injection Hc as <-.
Qed.

(** The category of [Examples.listingDocs]: two pages, two products. *)
Lemma goquery_listing_witness :
  Goquery.collectFromCategory 3 Examples.listingDocs "Cases"
                              Examples.casesURL
  = Some Examples.casesEntries
  /\ NoDup (List.map Myshop.url Examples.casesEntries)
  /\ (forall e, In e Examples.casesEntries ->
        Myshop.category e = "Cases"
        /\ exists pageURL anchors a,
             Examples.listingDocs pageURL = Some anchors /\ In a anchors
             /\ Goquery.isProductURL a.1 = true
             /\ Go.HasPrefix a.1 "/shop/" = true
             /\ Go.Contains a.1 "/category/" = false
             /\ Myshop.url e = Myshop.baseURL +:+ a.1
             /\ Myshop.imagen64 e = Myshop.absURL a.2)
  /\ (Examples.listingDocs Examples.casesURL = None ->
      Examples.casesEntries = []).
Proof.
  split; [vm_compute; reflexivity|].
  apply (goquery_listing_entries Examples.listingDocs 3 "Cases"
           Examples.casesURL Examples.casesEntries).
  vm_compute. reflexivity.
Defined.

(** X12: [collectFromCategory] of the selector scraper ends on a finite
    shop.  When every product link that the pages of the category show
    belongs to a finite set of URLs, the loop has returned after at most
    one page more than the set has URLs, whatever "next page" links the
    pages carry, and it returns no more entries than the set has URLs:
    every page after which it goes on has added a new URL. *)
Theorem goquery_listing_terminates :
  forall (fetchDoc : string -> option Goquery.listingPage)
         (catName catURL : string) (U : gset string) (fuel : nat),
    (forall pageURL anchors a,
        fetchDoc pageURL = Some anchors -> In a anchors ->
        Goquery.isProductURL a.1 = true -> Myshop.absURL a.1 ∈ U) ->
    size U < fuel ->
    exists entries,
      Goquery.collectFromCategory fuel fetchDoc catName catURL
      = Some entries
      /\ length entries <= size U.
Proof.
  intros fetchDoc catName catURL U fuel HU Hfuel.
  destruct (goquery_collectFrom_ends fetchDoc catName catURL U HU
              fuel 1%Z ∅ []) as [entries Hc].
  { intros x Hx. now apply elem_of_empty in Hx. }
  { rewrite size_empty. lia. }
  exists entries. split; [exact Hc|].
  destruct (goquery_listing_entries fetchDoc fuel catName catURL entries Hc)
    as (Hnd & HQ & _).
  rewrite <- (length_map Myshop.url entries).
  apply NoDup_within; [exact Hnd|].
  intros u Hu. apply in_map_iff in Hu as (e & <- & He).
  destruct (HQ e He)
    as (_ & pageURL & anchors & a & Hf & Ha & Hp & _ & _ & -> & _).
  rewrite <- (proj2 (proj2 (isProductURL_shop _ Hp))).
  eapply HU; eauto.
Qed.

(** The shop of [Examples.listingDocs] has two product pages: three
    requests are enough. *)
Lemma goquery_listing_terminates_witness :
  exists entries,
    Goquery.collectFromCategory 3 Examples.listingDocs "Cases"
                                Examples.casesURL
    = Some entries
    /\ length entries <= size Examples.catalogue.
Proof.
  apply (goquery_listing_terminates Examples.listingDocs "Cases"
           Examples.casesURL Examples.catalogue 3).
  - intros pageURL anchors a Hf Ha Hp. unfold Examples.listingDocs in Hf.
    destruct (String.eqb pageURL Examples.casesURL).
    + injection Hf as <-.
      destruct Ha as [<- | [<- | [<- | [<- | []]]]];
        try (vm_compute in Hp; discriminate Hp);
        refine (bool_decide_unpack _ _); vm_compute; exact I.
    + destruct (String.eqb pageURL _); [|discriminate Hf].
      injection Hf as <-.
      destruct Ha as [<- | [<- | []]];
        refine (bool_decide_unpack _ _); vm_compute; exact I.
  - vm_compute. lia.
Defined.

(** X13: what [collectFromCategory] of the scraper with regular
    expressions returns.  The entries have distinct URLs; each carries
    the name of the category and comes from a match of the product
    pattern on a page of the category that was fetched, whose path is no
    category, cart or wishlist path; its image is the one found near the
    match, if any.  A page whose fetch fails ends the loop with what was
    found so far. *)
Theorem regex_listing_entries :
  forall (fetchHTML : string -> option Regex.listingPage)
         (fuel : nat) (catName catURL : string)
         (entries : list Myshop.productEntry),
    Regex.collectFromCategory fuel fetchHTML catName catURL
    = Some entries ->
    NoDup (List.map Myshop.url entries)
    /\ (forall e, In e entries ->
          Myshop.category e = catName
          /\ exists pageURL pg m,
               fetchHTML pageURL = Some pg
               /\ In m (Regex.productMatches pg)
               /\ Go.Contains m.1 "/category/" = false
               /\ Go.Contains m.1 "/cart" = false
               /\ Go.Contains m.1 "/wishlist" = false
               /\ Myshop.url e = Myshop.absURL m.1
               /\ Myshop.imagen64 e
                  = match m.2 with
                    | Some src => Myshop.absURL src
                    | None => ""
                    end)
    /\ (fetchHTML catURL = None -> entries = []).
Proof.
  intros fetchHTML fuel catName catURL entries Hc.
  destruct (regex_collectFrom_ok fetchHTML catName catURL fuel 1%Z ∅ []
              entries) as [Hnd HQ]; [|exact Hc|].
  { split; [constructor|]. split; [|constructor].
    intros u. cbn. split; [intros Hu | intros []].
    now apply elem_of_empty in Hu. }
  split; [exact Hnd|]. split.
  - intros e He.
    destruct (proj1 (List.Forall_forall _ _) HQ e He)
      as (pageURL & pg & m & Hf & Hm & H1 & H2 & H3 & ->).
    split; [reflexivity|]. exists pageURL, pg, m. auto 10.
  - intros Hnone. destruct fuel as [|fuel]; [discriminate Hc|].
    unfold Regex.collectFromCategory in Hc. cbn in Hc.
    rewrite Hnone in Hc. now injection Hc as <-.
Qed.

(** The category of [Examples.listingBodies]: two pages, two products. *)
Lemma regex_listing_witness :
  Regex.collectFromCategory 3 Examples.listingBodies "Cases"
                            Examples.casesURL
  = Some Examples.casesEntries
  /\ NoDup (List.map Myshop.url Examples.casesEntries)
  /\ (forall e, In e Examples.casesEntries ->
        Myshop.category e = "Cases"
        /\ exists pageURL pg m,
             Examples.listingBodies pageURL = Some pg
             /\ In m (Regex.productMatches pg)
             /\ Go.Contains m.1 "/category/" = false
             /\ Go.Contains m.1 "/cart" = false
             /\ Go.Contains m.1 "/wishlist" = false
             /\ Myshop.url e = Myshop.absURL m.1
             /\ Myshop.imagen64 e
                = match m.2 with
                  | Some src => Myshop.absURL src
                  | None => ""
                  end)
  /\ (Examples.listingBodies Examples.casesURL = None ->
      Examples.casesEntries = []).
Proof.
  split; [vm_compute; reflexivity|].
  apply (regex_listing_entries Examples.listingBodies 3 "Cases"
           Examples.casesURL Examples.casesEntries).
  vm_compute. reflexivity.
Defined.

(** X14: [collectFromCategory] of the scraper with regular expressions
    ends on a finite shop: when every path that the product pattern
    matches on the pages of the category, and that is no category, cart
    or wishlist path, belongs to a finite set of URLs, the loop has
    returned after at most one page more than the set has URLs, and it
    returns no more entries than that. *)
Theorem regex_listing_terminates :
  forall (fetchHTML : string -> option Regex.listingPage)
         (catName catURL : string) (U : gset string) (fuel : nat),
    (forall pageURL pg m,
        fetchHTML pageURL = Some pg -> In m (Regex.productMatches pg) ->
        Go.Contains m.1 "/category/" || Go.Contains m.1 "/cart"
        || Go.Contains m.1 "/wishlist" = false ->
        Myshop.absURL m.1 ∈ U) ->
    size U < fuel ->
    exists entries,
      Regex.collectFromCategory fuel fetchHTML catName catURL
      = Some entries
      /\ length entries <= size U.
Proof.
  intros fetchHTML catName catURL U fuel HU Hfuel.
  destruct (regex_collectFrom_ends fetchHTML catName catURL U HU
              fuel 1%Z ∅ []) as [entries Hc].
  { intros x Hx. now apply elem_of_empty in Hx. }
  { rewrite size_empty. lia. }
  exists entries. split; [exact Hc|].
  destruct (regex_listing_entries fetchHTML fuel catName catURL entries Hc)
    as (Hnd & HQ & _).
  rewrite <- (length_map Myshop.url entries).
  apply NoDup_within; [exact Hnd|].
  intros u Hu. apply in_map_iff in Hu as (e & <- & He).
  destruct (HQ e He)
    as (_ & pageURL & pg & m & Hf & Hm & H1 & H2 & H3 & -> & _).
  eapply HU; eauto. now rewrite H1, H2, H3.
Qed.

(** The shop of [Examples.listingBodies] has two product pages: three
    requests are enough. *)
Lemma regex_listing_terminates_witness :
  exists entries,
    Regex.collectFromCategory 3 Examples.listingBodies "Cases"
                              Examples.casesURL
    = Some entries
    /\ length entries <= size Examples.catalogue.
Proof.
  apply (regex_listing_terminates Examples.listingBodies "Cases"
           Examples.casesURL Examples.catalogue 3).
  - intros pageURL pg m Hf Hm Hkept. unfold Examples.listingBodies in Hf.
    destruct (String.eqb pageURL Examples.casesURL).
    + injection Hf as <-.
      destruct Hm as [<- | [<- | [<- | []]]];
        try (vm_compute in Hkept; discriminate Hkept);
        refine (bool_decide_unpack _ _); vm_compute; exact I.
    + destruct (String.eqb pageURL _); [|discriminate Hf].
      injection Hf as <-.
      destruct Hm as [<- | [<- | []]];
        refine (bool_decide_unpack _ _); vm_compute; exact I.
  - vm_compute. lia.
Defined.


(** ** More on the worker pool of the API scraper *)

Section PoolMore.
Import Api Pool.
Variable sortSlice : list Product -> list Product.

Ltac state_simpl :=
  unfold setPending, setTasksCh, setTasksClosed, setResults,
    setResultsClosed, setWorker, setMain, setMonitor, setProducts,
    addEvent in *;
  cbn [pending tasksCh tasksClosed results resultsClosed workers mainSt
       monitor allProducts output history] in *.


(** *** The task queue holds at most one task for each category *)

Lemma holdingAll_insert (ws : list wstate) (i : nat) (w w' : wstate) :
  ws !! i = Some w ->
  holdingAll (<[i := w']> ws) + holding w = holdingAll ws + holding w'.
Proof.
  revert i. induction ws as [|x ws IH]; intros i Hi; [discriminate|].
  destruct i as [|i].
  - injection Hi as ->. cbn. lia.
  - change (<[S i := w']> (x :: ws)) with (x :: <[i := w']> ws).
    cbn [holdingAll fold_right]. fold (holdingAll (<[i := w']> ws)).
    fold (holdingAll ws). specialize (IH i Hi). lia.
Qed.

Lemma holding_continue (rest : list action) :
  holding (continue rest) = if existsb isEnqueue rest then 1 else 0.
Proof. now destruct rest. Qed.

Lemma holding_body (t : task) (r : fetchResult) :
  holding (continue (workerBody t r)) <= 1.
Proof. rewrite holding_continue. destruct (existsb _ _); lia. Qed.

Lemma inBody_continue (a : action) (rest : list action) :
  bodySuffix (a :: rest) -> inBody (continue rest).
Proof. intros H. inversion H; subst; cbn; try constructor; exact I. Qed.

Lemma inBody_body (t : task) (r : fetchResult) :
  inBody (continue (workerBody t r)).
Proof.
  pose proof (workerBody_suffix t r) as H. destruct H; cbn; constructor.
Qed.

Lemma holdingAll_idle (n : nat) : holdingAll (replicate n Receiving) = 0.
Proof. induction n as [|n IH]; cbn; [reflexivity | exact IH]. Qed.

(** A step starts no pagination. *)
Lemma step_paginations (s s' : state) :
  Forall inBody (workers s) -> step sortSlice s s' ->
  Forall inBody (workers s') /\ paginations s' <= paginations s.
Proof.
  intros Hwf Hstep. unfold paginations.
  destruct Hstep; state_simpl;
    repeat match goal with
           | H : mainSt _ = _ |- _ => rewrite H in *
           | H : tasksCh _ = _ |- _ => rewrite H in *
           end;
    try match goal with
        | H : workers _ !! ?i = Some (Running (_ :: ?rest)) |- _ =>
            pose proof (Forall_lookup_1 _ _ _ _ Hwf H) as Hwfi;
            cbn [inBody] in Hwfi;
            pose proof (holdingAll_insert _ _ _ (continue rest) H) as Hc;
            rewrite ?holding_continue in Hc;
            cbn [holding existsb isEnqueue orb] in Hc
        end;
    try match goal with
        | H : workers _ !! ?i = Some ?w |- _ =>
            pose proof (fun w' => holdingAll_insert _ _ _ w' H) as Hany;
            cbn [holding] in Hany
        end.
  all: rewrite ?length_app; cbn [length unseeded holding].
  all: split.
  all: try (apply Forall_insert; [assumption|]).
  all: try assumption.
  all: try exact I.
  all: try apply inBody_body.
  all: try (eapply inBody_continue; eassumption).
  all: try lia.
  all: try (specialize (Hany Exited); cbn in Hany; lia).
  all: try (specialize (Hany Panicked); cbn in Hany; lia).
  all: try (specialize (Hany (Fetching t)); cbn in Hany; lia).
  - pose proof (holding_body t r).
    specialize (Hany (continue (workerBody t r))). lia.
  - inversion Hwfi; subst. cbn in Hc. cbn [continue]. lia.
Qed.

Lemma reachable_paginations (order : list (string * string)) (W : Z)
      (s : state) :
  reachable sortSlice (init order W) s ->
  Forall inBody (workers s) /\ paginations s <= length order.
Proof.
  intros Hr. induction Hr as [|s s' _ [IHwf IH] Hstep].
  - split.
    + cbn. apply Forall_replicate. exact I.
    + unfold paginations. cbn. rewrite holdingAll_idle. lia.
  - destruct (step_paginations s s' IHwf Hstep). split; [assumption | lia].
Qed.

(** *** Only discovered categories are fetched and written *)

Lemma workerTagged_continue (order : list (string * string))
      (a : action) (rest : list action) :
  Forall (actionTagged order) (a :: rest) ->
  workerTagged order (continue rest).
Proof.
  intros H. inversion H; subst. destruct rest; [exact I | assumption].
Qed.

Lemma workerTagged_body (order : list (string * string)) (t : task)
      (r : fetchResult) :
  discoveredTask order t ->
  workerTagged order (continue (workerBody t r)).
Proof.
  intros Ht. destruct r as [|aps]; cbn; [repeat constructor|].
  destruct (Nat.eqb (length aps) 0); cbn; [repeat constructor|].
  repeat constructor; [|exact Ht].
  unfold parseProducts. apply Forall_map, List.Forall_forall.
  intros ap _. exists (slug t). exact Ht.
Qed.

Lemma step_tagged (order : list (string * string)) (s s' : state) :
  (forall l, Permutation (sortSlice l) l) ->
  tagInv order s -> step sortSlice s s' -> tagInv order s'.
Proof.
  intros Hsort [Hq Hm Hw Hr Ha Ho Hh] Hstep.
  destruct Hstep; state_simpl;
    repeat match goal with
           | H : mainSt _ = _ |- _ => rewrite H in *
           | H : tasksCh _ = _ |- _ => rewrite H in *
           | H : results _ = _ |- _ => rewrite H in *
           end;
    try match goal with
        | H : workers _ !! ?i = Some ?w |- _ =>
            pose proof (Forall_lookup_1 _ _ _ _ Hw H) as Hwi;
            cbn [workerTagged] in Hwi
        end;
    constructor; state_simpl; cbn [mainTagged] in *;
    rewrite ?H; cbn [mainTagged];
    try assumption; try exact I.
  all: try (apply Forall_insert; [assumption|]).
  all: try exact I.
  all: try (eapply workerTagged_continue; eassumption).
  all: try (now apply workerTagged_body).
  all: try (apply Forall_app; split; [assumption|]).
  all: try (repeat constructor; tauto).
  all: try (inversion Hq; subst; assumption).
  all: try (inversion Hr; subst; assumption).
  all: try (inversion Hwi; subst; repeat constructor; assumption).
  all: try (rewrite (Hsort _); assumption).
  - split; [|intros c Hc; apply Hm; now right].
    unfold discoveredTask. cbn. apply Hm. now left.
  - destruct r as [|aps]; cbn; [repeat constructor; exact Hwi|].
    destruct (Nat.eqb (length aps) 0); repeat constructor; exact Hwi.
Qed.

Lemma init_tagged (order : list (string * string)) (W : Z) :
  tagInv order (init order W).
Proof.
  constructor; cbn; try constructor.
  - intros c Hc. exact Hc.
  - apply Forall_replicate. exact I.
Qed.

Lemma reachable_tagged (order : list (string * string)) (W : Z)
      (s : state) :
  (forall l, Permutation (sortSlice l) l) ->
  reachable sortSlice (init order W) s -> tagInv order s.
Proof.
  intros Hsort Hr. induction Hr as [|s s' _ IH Hstep].
  - apply init_tagged.
  - eapply step_tagged; eauto.
Qed.

(** *** No product is lost on its way to the file *)









(** *** The pages of a category are fetched in order *)

Lemma follows_later (h : list event) (e : event) (t : task) :
  follows h t -> follows (h ++ [e]) t.
Proof.
  intros [H1 | (t0 & Ht & Hin)]; [now left | right].
  exists t0. split; [exact Ht | apply in_or_app; now left].
Qed.

Lemma history_later (h : list event) (e : event) :
  (forall n e', h !! n = Some e' -> follows (take n h) (eventTask e')) ->
  follows h (eventTask e) ->
  forall n e', (h ++ [e]) !! n = Some e' ->
               follows (take n (h ++ [e])) (eventTask e').
Proof.
  intros Hh He n e' Hn.
  apply lookup_app_Some in Hn as [Hn | [Hlen Hn]].
  - rewrite take_app_le by (apply lookup_lt_Some in Hn; lia). now apply Hh.
  - destruct (n - length h) as [|k] eqn:Ek; [|destruct k; discriminate Hn].
    injection Hn as <-. assert (n = length h) as -> by lia.
    rewrite take_app_length. exact He.
Qed.

(** What a worker that moves on does to the live tasks. *)
Lemma live_worker (s : state) (i : nat) (wi wi' : wstate) (t : task) :
  workers s !! i = Some wi ->
  (exists j, <[i := wi']> (workers s) !! j = Some (Fetching t))
  \/ (exists j acts, <[i := wi']> (workers s) !! j = Some (Running acts)
                     /\ In (Enqueue t) acts) ->
  (exists j, workers s !! j = Some (Fetching t))
  \/ (exists j acts, workers s !! j = Some (Running acts)
                     /\ In (Enqueue t) acts)
  \/ wi' = Fetching t
  \/ (exists acts, wi' = Running acts /\ In (Enqueue t) acts).
Proof.
  intros Hi [(j & Hj) | (j & acts & Hj & Hin)].
  - destruct (decide (i = j)) as [-> | Hne].
    + rewrite list_lookup_insert_eq in Hj
        by (now apply lookup_lt_Some in Hi).
      injection Hj as ->. auto.
    + rewrite list_lookup_insert_ne in Hj by exact Hne. eauto.
  - destruct (decide (i = j)) as [-> | Hne].
    + rewrite list_lookup_insert_eq in Hj
        by (now apply lookup_lt_Some in Hi).
      injection Hj as ->. eauto 10.
    + rewrite list_lookup_insert_ne in Hj by exact Hne. eauto 10.
Qed.

Lemma continue_running (rest acts : list action) :
  continue rest = Running acts -> acts = rest.
Proof. destruct rest; [discriminate | now intros [= <-]]. Qed.

Lemma continue_fetching (rest : list action) (t : task) :
  continue rest <> Fetching t.
Proof. now destruct rest. Qed.

Lemma step_pages (s s' : state) :
  pagesInv s -> step sortSlice s s' -> pagesInv s'.
Proof.
  intros [Hlive Hhist] Hstep. unfold pagesInv, liveTask in *.
  destruct Hstep; state_simpl.
  all: try (split; [|exact Hhist]).
  all: try (intros t0 Ht0;
            repeat match goal with
                   | H : mainSt _ = _ |- _ => rewrite H in *
                   | H : tasksCh _ = _ |- _ => rewrite H in *
                   end;
            destruct Ht0 as [Hq | [(todo' & Hm) | Hw]];
            try discriminate Hm;
            try (apply Hlive; left; exact Hq);
            try (apply Hlive; right; left; eauto; fail);
            try (apply Hlive; right; right; exact Hw);
            try (destruct (live_worker s i _ _ t0 H Hw)
                   as [Hf | [Hr | [Hf | (acts & Hr & Hin)]]];
                 [apply Hlive; auto | apply Hlive; auto | |];
                 try discriminate Hf; try discriminate Hr;
                 try (now apply continue_fetching in Hf);
                 try (apply continue_running in Hr; subst acts;
                      apply Hlive; eauto 10 using in_cons))).
  - (* seed: the counter is incremented *)
    injection Hm as <- _. left. reflexivity.
  - (* seed: the task is sent *)
    apply in_app_iff in Hq as [Hq | [<- | []]]; apply Hlive; eauto.
  - (* receive *)
    apply Hlive. left. now right.
  - injection Hf as <-. apply Hlive. left. now left.
  - (* the fetch ends *)
    split.
    + intros t0 [Hq | [Hm | Hw]].
      * apply follows_later, Hlive. auto.
      * apply follows_later, Hlive. auto.
      * destruct (live_worker s i _ _ t0 H Hw)
          as [Hf | [Hr | [Hf | (acts & Hr & Hin)]]].
        -- apply follows_later, Hlive. auto.
        -- apply follows_later, Hlive. auto.
        -- now apply continue_fetching in Hf.
        -- apply continue_running in Hr. subst acts.
           destruct r as [|aps]; cbn in Hin;
             [destruct Hin as [Hin | []]; discriminate Hin|].
           destruct (Nat.eqb (length aps) 0) eqn:El; cbn in Hin.
           ++ destruct Hin as [Hin | []]; discriminate Hin.
           ++ destruct Hin as [Hin | [Hin | [Hin | [Hin | [Hin | []]]]]];
                try discriminate Hin.
              injection Hin as <-. right. exists t. split; [reflexivity|].
              apply in_or_app. right. cbn. rewrite El. now left.
    + apply history_later; [exact Hhist|].
      assert (eventTask (fetchEvent t r) = t) as ->.
      { destruct r as [|aps]; cbn; [reflexivity|].
        now destruct (Nat.eqb (length aps) 0). }
      apply Hlive. eauto 10.
  - (* enqueue *)
    apply in_app_iff in Hq as [Hq | [<- | []]]; apply Hlive;
      eauto 10 using in_eq.
Qed.

Lemma init_pages (order : list (string * string)) (W : Z) :
  pagesInv (init order W).
Proof.
  split.
  - intros t [[] | [(todo & Hm) | [(i & Hi) | (i & acts & Hi & _)]]];
      try discriminate Hm; cbn in Hi;
      apply lookup_replicate in Hi as [Hi _]; discriminate Hi.
  - intros n e Hn. destruct n; discriminate Hn.
Qed.

Lemma reachable_pages (order : list (string * string)) (W : Z)
      (s : state) :
  reachable sortSlice (init order W) s -> pagesInv s.
Proof.
  intros Hr. induction Hr as [|s s' _ IH Hstep];
    [apply init_pages | eapply step_pages; eauto].
Qed.

End PoolMore.

(** X16: the task queue never holds more tasks than there are
    categories, because every category has at most one task under way:
    queued, being fetched, or about to be enqueued as the next page.  So
    with at most 100 categories (the capacity of the channel) no send on
    the task queue ever finds it full: neither the seeding loop nor a
    worker that enqueues the next page can block. *)
Theorem task_queue_never_full :
  forall (sortSlice : list Product -> list Product)
         (order : list (string * string)) (numWorkers : Z)
         (s : Api.state),
    length order <= Api.chanCap ->
    Api.reachable sortSlice (Api.init order numWorkers) s ->
    length (Api.tasksCh s) <= length order
    /\ (forall t todo, Api.mainSt s = Api.SeedSend t todo ->
                       length (Api.tasksCh s) < Api.chanCap)
    /\ (forall i t rest,
           Api.workers s !! i = Some (Api.Running (Api.Enqueue t :: rest)) ->
           length (Api.tasksCh s) < Api.chanCap).
Proof.
  intros sortSlice order W s Hlen Hr.
  destruct (reachable_paginations sortSlice order W s Hr) as [_ Hp].
  unfold Pool.paginations in Hp. split; [lia|]. split.
  - intros t todo Hm. rewrite Hm in Hp. cbn in Hp. lia.
  - intros i t rest Hw.
    pose proof (holdingAll_insert _ _ _ Api.Receiving Hw) as Hi.
    cbn in Hi. lia.
Qed.

(** The run [Examples.batchInHand]: the only task is with the worker and
    the queue is empty. *)
Lemma task_queue_witness :
  exists s,
    Api.schedule Examples.sorter Examples.batchInHand
                 (Api.init Examples.fundas 1) = Some s
    /\ length (Api.tasksCh s) <= length Examples.fundas
    /\ (forall t todo, Api.mainSt s = Api.SeedSend t todo ->
                       length (Api.tasksCh s) < Api.chanCap)
    /\ (forall i t rest,
           Api.workers s !! i = Some (Api.Running (Api.Enqueue t :: rest)) ->
           length (Api.tasksCh s) < Api.chanCap).
Proof.
  destruct (Api.schedule Examples.sorter Examples.batchInHand
                         (Api.init Examples.fundas 1)) as [s|] eqn:E;
    [|vm_compute in E; discriminate E].
  exists s. split; [reflexivity|].
  apply (task_queue_never_full Examples.sorter Examples.fundas 1 s).
  - vm_compute. lia.
  - eapply schedule_sound; [apply Api.reach_init | exact E].
Defined.

(** X17: the workers fetch pages of discovered categories only, each
    under the slug that the category map gives its name, and every
    product in the file carries the name of a discovered category as its
    [Categoria]: the name of the category under which its page was
    fetched. *)
Theorem output_of_discovered_categories :
  forall (sortSlice : list Product -> list Product)
         (order : list (string * string)) (numWorkers : Z)
         (s : Api.state),
    sortsWith productLess sortSlice ->
    Api.reachable sortSlice (Api.init order numWorkers) s ->
    (forall p, In p (Api.output s) ->
               exists sl, In (Categoria p, sl) order)
    /\ (forall e, In e (Api.history s) ->
                  In (Api.categoryName (Pool.eventTask e),
                      Api.slug (Pool.eventTask e)) order).
Proof.
  intros sortSlice order W s Hsort Hr.
  destruct (reachable_tagged sortSlice order W s
              (fun l => proj1 (Hsort l)) Hr) as [_ _ _ _ _ Ho Hh].
  split.
  - intros p Hp. exact (proj1 (List.Forall_forall _ _) Ho p Hp).
  - intros e He. exact (proj1 (List.Forall_forall _ _) Hh e He).
Qed.

(** The run [Examples.fullRun]: the product written is one of
    "Fundas". *)
Lemma output_of_discovered_witness :
  exists s,
    Api.schedule Examples.sorter Examples.fullRun
                 (Api.init Examples.fundas 1) = Some s
    /\ List.map Categoria (Api.output s) = ["Fundas"]
    /\ (forall p, In p (Api.output s) ->
                  exists sl, In (Categoria p, sl) Examples.fundas)
    /\ (forall e, In e (Api.history s) ->
                  In (Api.categoryName (Pool.eventTask e),
                      Api.slug (Pool.eventTask e)) Examples.fundas).
Proof.
  destruct (Api.schedule Examples.sorter Examples.fullRun
                         (Api.init Examples.fundas 1)) as [s|] eqn:E;
    [|vm_compute in E; discriminate E].
  exists s. split; [reflexivity|].
  split; [vm_compute in E; injection E as <-; reflexivity|].
  apply (output_of_discovered_categories Examples.sorter Examples.fundas
           1 s).
  - exact insertionSort_products.
  - eapply schedule_sound; [apply Api.reach_init | exact E].
Defined.



(** X19: the pages of a category are fetched in order.  Every fetch that
    ended is the fetch of a first page, or of the page that follows one
    whose fetch ended earlier with products, for the same category and
    slug: no page is skipped, and none is fetched after an empty or
    failed page. *)
Theorem pages_fetched_in_order :
  forall (sortSlice : list Product -> list Product)
         (order : list (string * string)) (numWorkers : Z)
         (s : Api.state) (n : nat) (e : Api.event),
    Api.reachable sortSlice (Api.init order numWorkers) s ->
    Api.history s !! n = Some e ->
    Api.page (Pool.eventTask e) = 1%Z
    \/ exists t0, Pool.eventTask e = Api.nextTask t0
                  /\ In (Api.PageBatch t0) (take n (Api.history s)).
Proof.
  intros sortSlice order W s n e Hr.
  exact (proj2 (reachable_pages sortSlice order W s Hr) n e).
Qed.

(** The run [Examples.fullRun]: the second fetch, of page 2, follows the
    first, which returned products. *)
Lemma pages_in_order_witness :
  exists s,
    Api.schedule Examples.sorter Examples.fullRun
                 (Api.init Examples.fundas 1) = Some s
    /\ Api.history s !! 1 = Some (Api.PageEmpty (Api.mkTask "fundas" "Fundas" 2))
    /\ (Api.page (Api.mkTask "fundas" "Fundas" 2) = 1%Z
        \/ exists t0, Api.mkTask "fundas" "Fundas" 2 = Api.nextTask t0
                      /\ In (Api.PageBatch t0) (take 1 (Api.history s))).
Proof.
  destruct (Api.schedule Examples.sorter Examples.fullRun
                         (Api.init Examples.fundas 1)) as [s|] eqn:E;
    [|vm_compute in E; discriminate E].
  exists s. split; [reflexivity|].
  assert (Hh : Api.history s !! 1
               = Some (Api.PageEmpty (Api.mkTask "fundas" "Fundas" 2))).
  { vm_compute in E. injection E as <-. reflexivity. }
  split; [exact Hh|].
  apply (pages_fetched_in_order Examples.sorter Examples.fundas 1 s 1
           (Api.PageEmpty (Api.mkTask "fundas" "Fundas" 2))).
  - eapply schedule_sound; [apply Api.reach_init | exact E].
  - exact Hh.
Defined.

(** X20: the comparison that the three [run] functions hand to
    [sort.Slice] is a strict weak ordering, as [sort.Slice] requires of
    it: no product is less than itself, never both [p] less than [q] and
    [q] less than [p], less-than is transitive, and so is being not
    less; two products neither of which is less than the other have the
    same category and the same name. *)
Theorem productLess_strict_weak_order :
  (forall p, productLess p p = false)
  /\ (forall p q, productLess p q = true -> productLess q p = false)
  /\ (forall p q r, productLess p q = true -> productLess q r = true ->
                    productLess p r = true)
  /\ (forall p q r, productLess p q = false -> productLess q r = false ->
                    productLess p r = false)
  /\ (forall p q, productLess p q = false -> productLess q p = false ->
                  Categoria p = Categoria q /\ Nombre p = Nombre q).
Proof.
  repeat split.
  - intros p. destruct (productLess p p) eqn:E; [|reflexivity].
    pose proof (productLess_asym p p E). congruence.
  - apply productLess_asym.
  - intros p q r H1 H2. apply productLess_key in H1, H2.
    apply productLess_key. eapply keyCompare_lt_trans; eauto.
  - apply productLess_negtrans.
  - pose proof (productLess_tie p q H H0) as E. now injection E.
  - pose proof (productLess_tie p q H H0) as E. now injection E.
Qed.

(** ** Product links of the goquery scraper *)

Section ProductLinks.

Lemma append_cons (c : ascii) (p x : string) :
  String c p +:+ x = String c (p +:+ x).
Proof. reflexivity. Qed.

Lemma append_nil (x : string) : "" +:+ x = x.
Proof. reflexivity. Qed.

Lemma prefix_append (p x : string) : String.prefix p (p +:+ x) = true.
Proof.
  induction p as [|c p IH]; [now destruct x|].
  rewrite append_cons. cbn [String.prefix].
  destruct (ascii_dec c c); [exact IH | contradiction].
Qed.

Lemma substring_all (x : string) : String.substring 0 (String.length x) x = x.
Proof. induction x as [|d x IH]; cbn; [reflexivity | now rewrite IH]. Qed.

Lemma TrimPrefix_append (p x : string) : Go.TrimPrefix (p +:+ x) p = x.
Proof.
  unfold Go.TrimPrefix, Go.HasPrefix. rewrite prefix_append.
  induction p as [|c p IH].
  - rewrite append_nil. cbn [String.length]. rewrite Nat.sub_0_r.
    apply substring_all.
  - rewrite append_cons. cbn. exact IH.
Qed.

Lemma prefix_inv (p s : string) :
  String.prefix p s = true -> exists x, s = p +:+ x.
Proof.
  revert s. induction p as [|c p IH]; intros s.
  - intros _. now exists s.
  - destruct s as [|d s]; cbn [String.prefix]; [discriminate|].
    destruct (ascii_dec c d) as [<-|]; [|discriminate].
    intros H. destruct (IH s H) as [x ->]. now exists x.
Qed.

Lemma list_of_append (a b : string) :
  list_ascii_of_string (a +:+ b)
  = list_ascii_of_string a ++ list_ascii_of_string b.
Proof.
  induction a as [|c a IH]; [reflexivity|].
  rewrite append_cons. cbn. now rewrite IH.
Qed.

Lemma string_of_app (a b : list ascii) :
  string_of_list_ascii (a ++ b)
  = string_of_list_ascii a +:+ string_of_list_ascii b.
Proof.
  induction a as [|c a IH]; [reflexivity|].
  cbn. rewrite append_cons. now rewrite IH.
Qed.

Lemma splitFrom_parts (sep : ascii) (l cur : list ascii) :
  exists p ps, Go.splitFrom sep cur l = p :: ps.
Proof.
  revert cur. induction l as [|c l IH]; intros cur; cbn; [eauto|].
  destruct (Ascii.eqb c sep); [eauto | apply IH].
Qed.

(** A text without the separator is one part. *)
Lemma splitFrom_whole (sep : ascii) (l cur : list ascii) :
  ~ In sep l ->
  Go.splitFrom sep cur l = [string_of_list_ascii (rev cur ++ l)].
Proof.
  revert cur. induction l as [|c l IH]; intros cur Hn; cbn.
  - now rewrite app_nil_r.
  - destruct (Ascii.eqb_spec c sep) as [E|_];
      [exfalso; apply Hn; now left|].
    rewrite IH by (intros Hin; apply Hn; now right).
    cbn. now rewrite <- app_assoc.
Qed.

(** The last part is what follows the last separator. *)
Lemma splitFrom_last (sep : ascii) (pre rest cur : list ascii) :
  ~ In sep rest ->
  2 <= length (Go.splitFrom sep cur (pre ++ sep :: rest))
  /\ List.last (Go.splitFrom sep cur (pre ++ sep :: rest)) ""
     = string_of_list_ascii rest.
Proof.
  intros Hn. revert cur. induction pre as [|c pre IH]; intros cur.
  - cbn [app Go.splitFrom]. rewrite Ascii.eqb_refl.
    rewrite (splitFrom_whole sep rest [] Hn). cbn. split; [lia | reflexivity].
  - cbn [app Go.splitFrom]. destruct (Ascii.eqb c sep); [|apply IH].
    destruct (IH []) as [I1 I2].
    destruct (splitFrom_parts sep (pre ++ sep :: rest) []) as (p & ps & E).
    rewrite E in *. cbn [length] in *. split; [lia|].
    exact I2.
Qed.

(** Two parts or more: the text has a separator, and a last one. *)
Lemma splitFrom_two (sep : ascii) (l cur : list ascii) :
  2 <= length (Go.splitFrom sep cur l) ->
  exists pre rest, l = pre ++ sep :: rest /\ ~ In sep rest.
Proof.
  revert cur. induction l as [|c l IH]; intros cur; cbn [Go.splitFrom].
  - cbn. lia.
  - destruct (Ascii.eqb_spec c sep) as [E|Hne].
    + subst c. intros _.
      destruct (in_dec ascii_dec sep l) as [Hin | Hnin].
      * destruct (IH []) as (pre & rest & -> & Hn).
        { apply in_split in Hin as (l1 & l2 & ->).
          clear IH. revert l2. generalize (@nil ascii) as cur0.
          induction l1 as [|x l1 IH1]; intros cur0 l2; cbn [app Go.splitFrom].
          - rewrite Ascii.eqb_refl.
            destruct (splitFrom_parts sep l2 []) as (p & ps & ->). cbn. lia.
          - destruct (Ascii.eqb x sep); [|apply IH1].
            destruct (splitFrom_parts sep (l1 ++ sep :: l2) [])
              as (p & ps & ->). cbn. lia. }
        exists (sep :: pre), rest. auto.
      * exists [], l. auto.
    + intros H. destruct (IH _ H) as (pre & rest & -> & Hn).
      exists (c :: pre), rest. auto.
Qed.

End ProductLinks.

(** X21: [isProductURL] accepts exactly the links that start with
    "/shop/", do not contain "/category/", have a hyphen after the
    prefix, and whose text after the last hyphen is read by
    [strconv.Atoi] as an integer: the link is "/shop/" + pre + "-" + id
    with no hyphen in id. *)
Theorem product_link_shape :
  forall href : string,
    Goquery.isProductURL href = true <->
    Go.Contains href "/category/" = false
    /\ exists pre id : string,
         href = "/shop/" +:+ pre +:+ "-" +:+ id
         /\ ~ In "-"%char (list_ascii_of_string id)
         /\ is_Some (Go.Atoi id).
Proof.
  intros href. unfold Goquery.isProductURL. split.
  - destruct (Go.HasPrefix href "/shop/") eqn:Hp; cbn [negb]; [|discriminate].
    destruct (Go.Contains href "/category/") eqn:Hc; [discriminate|].
    destruct (prefix_inv _ _ Hp) as [x ->].
    rewrite TrimPrefix_append. unfold Go.Split.
    destruct (Nat.ltb_spec
                (length (Go.splitFrom "-" [] (list_ascii_of_string x))) 2)
      as [|Hlen]; [discriminate|].
    destruct (splitFrom_two _ _ _ Hlen) as (pre & rest & Hx & Hn).
    rewrite Hx. rewrite (proj2 (splitFrom_last "-" pre rest [] Hn)).
    intros Ha. split; [reflexivity|].
    exists (string_of_list_ascii pre), (string_of_list_ascii rest).
    rewrite list_ascii_of_string_of_list_ascii.
    split; [|split; [exact Hn|]].
    + f_equal. rewrite <- (string_of_list_ascii_of_string x), Hx.
      rewrite string_of_app. reflexivity.
    + destruct (Go.Atoi (string_of_list_ascii rest)); [eauto | discriminate].
  - intros (Hc & pre & id & -> & Hn & [n Ha]).
    unfold Go.HasPrefix. rewrite prefix_append. cbn [negb]. rewrite Hc.
    rewrite TrimPrefix_append. unfold Go.Split.
    rewrite !list_of_append.
    change (list_ascii_of_string "-") with ["-"%char].
    cbn [app].
    destruct (splitFrom_last "-" (list_ascii_of_string pre)
                (list_ascii_of_string id) [] Hn) as [H1 H2].
    rewrite H2, string_of_list_ascii_of_string, Ha.
    destruct (Nat.ltb_spec
                (length (Go.splitFrom "-" []
                           (list_ascii_of_string pre
                            ++ "-"%char :: list_ascii_of_string id))) 2);
      [lia | reflexivity].
Qed.

(** ** The seeding loop against a full task queue *)

Section Deadlock.
Import Api Pool.
Variable sortSlice : list Product -> list Product.
Variable order : list (string * string).
Variable start : state.

Ltac state_simpl :=
  unfold setPending, setTasksCh, setTasksClosed, setResults,
    setResultsClosed, setWorker, setMain, setMonitor, setProducts,
    addEvent in *;
  cbn [pending tasksCh tasksClosed results resultsClosed workers mainSt
       monitor allProducts output history] in *.

Lemma reach_two (s0 s s1 s2 : state) :
  reachable sortSlice s0 s -> step sortSlice s s1 -> step sortSlice s1 s2 ->
  reachable sortSlice s0 s2.
Proof. intros. eapply reach_step; [eapply reach_step|]; eauto. Qed.

Lemma drop_next (m : nat) (c : string * string)
      (todo : list (string * string)) :
  drop m order = c :: todo -> drop (S m) order = todo.
Proof.
  intros Ed. replace (S m) with (m + 1) by lia.
  rewrite <- drop_drop, Ed. reflexivity.
Qed.

Lemma drop_some (m : nat) :
  m < length order -> exists c todo, drop m order = c :: todo.
Proof.
  intros Hlen. destruct (drop m order) as [|c todo] eqn:Ed; [|eauto].
  apply (f_equal (@length _)) in Ed. rewrite length_drop in Ed.
  cbn in Ed. lia.
Qed.

(** The seeding loop seeds one more category. *)
Lemma seed_one (n q m k r : nat) (wk : wstate) (s : state) :
  reachable sortSlice start s ->
  seedingShape order n q m k wk r s ->
  q < chanCap -> m < length order ->
  exists s', reachable sortSlice start s'
             /\ seedingShape order n (S q) (S m) k wk r s'.
Proof.
  intros Hr (Hq & Hm & Hn & Hlow & Hk & Hhigh & Hc & Hrc & Hmon & Hres)
         Hlt Hlen.
  destruct (drop_some m Hlen) as ([name sl] & todo & Ed).
  rewrite Ed in Hm.
  eexists. split.
  - eapply reach_two; [exact Hr | |].
    + apply step_seed_add. exact Hm.
    + eapply step_seed_send; state_simpl; [reflexivity | exact Hc |].
      rewrite Hq. exact Hlt.
  - unfold seedingShape. state_simpl.
    rewrite length_app, Hq, (drop_next m _ _ Ed). cbn [length].
    repeat split; auto. lia.
Qed.

(** Worker [k] moves on: the workers before and after it are as they
    were. *)
Lemma worker_moves (ws : list wstate) (k : nat) (wk wk' : wstate) :
  ws !! k = Some wk ->
  (forall i w, i < k -> ws !! i = Some w -> atEnqueue w) ->
  (forall i w, k < i -> ws !! i = Some w -> w = Receiving) ->
  length (<[k := wk']> ws) = length ws
  /\ (forall i w, i < k -> <[k := wk']> ws !! i = Some w -> atEnqueue w)
  /\ (forall w, <[k := wk']> ws !! k = Some w -> w = wk')
  /\ (forall i w, k < i -> <[k := wk']> ws !! i = Some w -> w = Receiving).
Proof.
  intros Hk Hlow Hhigh. split; [apply length_insert|].
  split; [|split].
  - intros i w Hi. rewrite list_lookup_insert_ne by lia. now apply Hlow.
  - intros w. rewrite list_lookup_insert_eq
      by (now apply lookup_lt_Some in Hk).
    now intros [= <-].
  - intros i w Hi. rewrite list_lookup_insert_ne by lia. now apply Hhigh.
Qed.

Lemma shape_at (n q m k r : nat) (wk : wstate) (s : state) :
  seedingShape order n q m k wk r s -> k < n ->
  workers s !! k = Some wk.
Proof.
  intros (_ & _ & Hn & _ & Hk & _) Hkn.
  destruct (workers s !! k) as [w|] eqn:E.
  - now rewrite (Hk w eq_refl).
  - apply lookup_ge_None in E. lia.
Qed.

(** A step of worker [k] that leaves the seeding loop, the monitor and
    the closed flags alone. *)
Lemma shape_moves (n q q' m k r r' : nat) (wk wk' : wstate)
      (s s' : state) :
  seedingShape order n q m k wk r s -> k < n ->
  workers s' = <[k := wk']> (workers s) ->
  length (tasksCh s') = q' -> length (results s') = r' ->
  mainSt s' = mainSt s -> tasksClosed s' = tasksClosed s ->
  resultsClosed s' = resultsClosed s -> monitor s' = monitor s ->
  seedingShape order n q' m k wk' r' s'.
Proof.
  intros Hs Hkn Hw Hq' Hr' Em Ec Erc Emon.
  pose proof (shape_at _ _ _ _ _ _ _ Hs Hkn) as Hwk.
  destruct Hs as (Hq & Hm & Hn & Hlow & Hk & Hhigh & Hc & Hrc & Hmon & Hres).
  destruct (worker_moves (workers s) k wk wk' Hwk Hlow Hhigh)
    as (L1 & L2 & L3 & L4).
  unfold seedingShape. rewrite Hw, Em, Ec, Erc, Emon, L1.
  repeat split; auto.
Qed.

(** Worker [k] takes a task, fetches a page with a product, sends the
    batch and counts the follow-up: it is then about to enqueue it. *)
Lemma work_one (ap : APIProduct) (n q m k r : nat) (s : state) :
  reachable sortSlice start s ->
  seedingShape order n (S q) m k Receiving r s ->
  k < n -> r < chanCap ->
  exists s' wk,
    reachable sortSlice start s' /\ atEnqueue wk
    /\ seedingShape order n q m k wk (S r) s'.
Proof.
  intros Hr Hs Hkn Hrlt.
  pose proof (shape_at _ _ _ _ _ _ _ Hs Hkn) as Hwk.
  destruct (tasksCh s) as [|t queue] eqn:Et;
    [destruct Hs as (Hq & _); rewrite Et in Hq; discriminate Hq|].
  assert (Hq : length queue = q).
  { destruct Hs as (Hq & _). rewrite Et in Hq. now injection Hq. }
  (* the receive *)
  pose proof (step_receive sortSlice s k t queue Hwk Et) as H1.
  assert (S1 : seedingShape order n q m k (Fetching t) r
                 (setWorker k (Fetching t) (setTasksCh queue s))).
  { eapply shape_moves; [exact Hs | exact Hkn | reflexivity | exact Hq
                        | | | | |]; try reflexivity.
    now destruct Hs as (_ & _ & _ & _ & _ & _ & _ & _ & _ & Hres). }
  pose proof (reach_step _ _ _ _ Hr H1) as R1.
  revert H1 S1 R1.
  generalize (setWorker k (Fetching t) (setTasksCh queue s)).
  intros s1 _ S1 R1.
  (* the fetch *)
  pose proof (step_fetch sortSlice s1 k t (FetchOk [ap])
                (shape_at _ _ _ _ _ _ _ S1 Hkn)) as H2.
  cbn [workerBody length Nat.eqb continue] in H2.
  set (products := parseProducts [ap] (categoryName t)) in *.
  set (body := [PendingAdd 1; Enqueue (nextTask t); PendingAdd (-1);
                Sleep]) in *.
  match type of H2 with
  | step _ _ ?s' =>
      assert (S2 : seedingShape order n q m k
                     (Running (SendResults products :: body)) r s')
  end.
  { pose proof S1 as (Hq1 & _ & _ & _ & _ & _ & _ & _ & _ & Hres1).
    eapply shape_moves; [exact S1 | exact Hkn | reflexivity | exact Hq1
                        | exact Hres1 | | | |]; reflexivity. }
  pose proof (reach_step _ _ _ _ R1 H2) as R2.
  revert H2 S2 R2.
  match goal with
  | |- step _ _ ?s' -> _ => generalize s'
  end.
  intros s2 _ S2 R2.
  (* the send of the batch *)
  assert (H3 : step sortSlice s2
                 (setWorker k (continue body)
                    (setResults (results s2 ++ [products]) s2))).
  { apply step_send_results.
    - exact (shape_at _ _ _ _ _ _ _ S2 Hkn).
    - now pose proof S2 as (_ & _ & _ & _ & _ & _ & _ & Hrc & _).
    - pose proof S2 as (_ & _ & _ & _ & _ & _ & _ & _ & _ & Hres).
      now rewrite Hres. }
  assert (S3 : seedingShape order n q m k (Running body) (S r)
                 (setWorker k (continue body)
                    (setResults (results s2 ++ [products]) s2))).
  { pose proof S2 as (Hq2 & _ & _ & _ & _ & _ & _ & _ & _ & Hres2).
    eapply shape_moves; [exact S2 | exact Hkn | reflexivity | exact Hq2
                        | | | | |]; try reflexivity.
    cbn [results setWorker setResults]. rewrite length_app, Hres2.
    cbn [length]. lia. }
  pose proof (reach_step _ _ _ _ R2 H3) as R3.
  revert H3 S3 R3.
  generalize (setWorker k (continue body)
                (setResults (results s2 ++ [products]) s2)).
  intros s3 _ S3 R3.
  (* the count of the follow-up *)
  pose proof (step_pending_add sortSlice s3 k 1 (tl body)
                (shape_at _ _ _ _ _ _ _ S3 Hkn)) as H4.
  exists (setWorker k (continue (tl body))
            (setPending (wrapInt32 (pending s3 + 1)) s3)),
         (Running (tl body)).
  split; [exact (reach_step _ _ _ _ R3 H4)|].
  split; [unfold atEnqueue; subst body; cbn [tl]; eauto|].
  pose proof S3 as (Hq3 & _ & _ & _ & _ & _ & _ & _ & _ & Hres3).
  eapply shape_moves; [exact S3 | exact Hkn | reflexivity | exact Hq3
                      | exact Hres3 | | | |]; reflexivity.
Qed.

(** From worker [k] to worker [k+1]. *)
Lemma next_worker (n q m k r : nat) (wk : wstate) (s : state) :
  atEnqueue wk ->
  seedingShape order n q m k wk r s ->
  seedingShape order n q m (S k) Receiving r s.
Proof.
  intros Hwk (Hq & Hm & Hn & Hlow & Hk & Hhigh & Hc & Hrc & Hmon & Hres).
  unfold seedingShape. repeat split; auto.
  - intros i w Hi Hw. destruct (decide (i = k)) as [->|Hne].
    + now rewrite (Hk w Hw).
    + apply (Hlow i); [lia | exact Hw].
  - intros w Hw. apply (Hhigh (S k)); [lia | exact Hw].
  - intros i w Hi. apply Hhigh. lia.
Qed.

(** With the queue full, the seeding loop at its send and every worker at
    the send of a follow-up, no goroutine can move: the monitor and the
    collection loop start only after the seeding loop. *)
Lemma blocked_stuck (s : state) (t : task) (todo : list (string * string)) :
  mainSt s = SeedSend t todo ->
  length (tasksCh s) = chanCap ->
  tasksClosed s = false ->
  monitor s = NotStarted ->
  (forall i w, workers s !! i = Some w -> atEnqueue w) ->
  stuck sortSlice s.
Proof.
  intros Hm Hq Hc Hmon Hws s' Hstep.
  destruct Hstep;
    try match goal with
        | H : workers _ !! _ = Some _ |- _ =>
            destruct (Hws _ _ H) as (? & ? & E); try discriminate E;
            try (injection E as E; try discriminate E)
        end;
    try congruence; try lia.
Qed.

(** The seeding loop seeds [j] more categories while the queue has room. *)
Lemma seed_many (n k r : nat) (wk : wstate) (j : nat) :
  forall (q m : nat) (s : state),
    reachable sortSlice start s ->
    seedingShape order n q m k wk r s ->
    q + j <= chanCap -> m + j <= length order ->
    exists s', reachable sortSlice start s'
               /\ seedingShape order n (q + j) (m + j) k wk r s'.
Proof.
  induction j as [|j IH]; intros q m s Hr Hs Hq Hm.
  - exists s. now rewrite !Nat.add_0_r.
  - destruct (seed_one n q m k r wk s Hr Hs) as (s1 & R1 & S1); [lia..|].
    destruct (IH (S q) (S m) s1 R1 S1) as (s2 & R2 & S2); [lia..|].
    exists s2. split; [exact R2|].
    now replace (q + S j) with (S q + j) by lia;
      replace (m + S j) with (S m + j) by lia.
Qed.

(** With the queue full, [j] more workers each take a task, reach the
    send of their follow-up, and the seeding loop fills the queue
    again. *)
Lemma work_many (ap : APIProduct) (n : nat) (j : nat) :
  forall (m k : nat) (s : state),
    reachable sortSlice start s ->
    seedingShape order n chanCap m k Receiving k s ->
    k + j <= n -> k + j <= chanCap -> m + j <= length order ->
    exists s', reachable sortSlice start s'
               /\ seedingShape order n chanCap (m + j) (k + j) Receiving
                    (k + j) s'.
Proof.
  induction j as [|j IH]; intros m k s Hr Hs Hn Hc Hm.
  - exists s. now rewrite !Nat.add_0_r.
  - destruct (work_one ap n (pred chanCap) m k k s Hr Hs)
      as (s1 & wk & R1 & Hwk & S1); [lia..|].
    apply (next_worker _ _ _ _ _ _ _ Hwk) in S1.
    destruct (seed_one n (pred chanCap) m (S k) (S k) Receiving s1 R1 S1)
      as (s2 & R2 & S2); [unfold chanCap; cbn [pred]; lia | lia |].
    destruct (IH (S m) (S k) s2 R2 S2) as (s3 & R3 & S3); [lia..|].
    exists s3. split; [exact R3|].
    now replace (m + S j) with (S m + j) by lia;
      replace (k + S j) with (S k + j) by lia.
Qed.

Lemma init_shape (numWorkers : Z) :
  seedingShape order (Z.to_nat numWorkers) 0 0 0 Receiving 0
    (init order numWorkers).
Proof.
  unfold seedingShape, init. cbn.
  rewrite length_replicate.
  repeat split; auto.
  - intros i w Hi. lia.
  - intros w Hw. now apply lookup_replicate in Hw.
  - intros i w _ Hw. now apply lookup_replicate in Hw.
Qed.

End Deadlock.


(** X22: with more than 100 + numWorkers categories (and at most 100
    workers) [run] can deadlock while it seeds.  The workers are started
    before the seeding loop and the monitor and the collection loop only
    after it; when every worker has fetched a first page with products
    and the seeding loop has refilled the queue of 100 tasks, each worker
    blocks on the send of its follow-up task and the seeding loop on the
    send of the next category, and no goroutine is left to receive. *)
Theorem seeding_can_deadlock :
  forall (sortSlice : list Product -> list Product)
         (order : list (string * string)) (numWorkers : Z),
    Z.to_nat numWorkers <= Api.chanCap ->
    Api.chanCap + Z.to_nat numWorkers < length order ->
    exists s : Api.state,
      Api.reachable sortSlice (Api.init order numWorkers) s
      /\ (exists t todo, Api.mainSt s = Api.SeedSend t todo)
      /\ length (Api.tasksCh s) = Api.chanCap
      /\ (forall i w, Api.workers s !! i = Some w -> Pool.atEnqueue w)
      /\ Pool.stuck sortSlice s.
Proof.
  intros sortSlice order numWorkers Hw Hlen.
  set (n := Z.to_nat numWorkers) in *.
  set (start := Api.init order numWorkers).
  destruct (seed_many sortSlice order start n 0 0 Api.Receiving
              Api.chanCap 0 0 start (Api.reach_init _ _)
              (init_shape order numWorkers))
    as (s1 & R1 & S1); [lia..|].
  destruct (work_many sortSlice order start Examples.apiOnSale n n
              Api.chanCap 0 s1 R1 S1) as (s2 & R2 & S2); [lia..|].
  cbn [Nat.add] in S2.
  destruct S2 as (Hq & Hm & Hn & Hlow & Hk & Hhigh & Hc & Hrc & Hmon & Hres).
  destruct (drop_some order (Api.chanCap + n)) as ([name sl] & todo & Ed);
    [lia|].
  rewrite Ed in Hm.
  pose proof (Api.step_seed_add sortSlice s2 name sl todo Hm) as H3.
  assert (Hall : forall i w, Api.workers s2 !! i = Some w ->
                             Pool.atEnqueue w).
  { intros i w Hi. apply (Hlow i w); [|exact Hi].
    apply lookup_lt_Some in Hi. lia. }
  eexists. split; [exact (Api.reach_step _ _ _ _ R2 H3)|].
  split; [cbn; eauto|].
  split; [exact Hq|].
  split; [exact Hall|].
  eapply blocked_stuck; [reflexivity | exact Hq | exact Hc | exact Hmon
                        | exact Hall].
Qed.

(** One worker and the 102 categories of [Examples.manyCategories]. *)
Lemma seeding_deadlock_witness :
  Z.to_nat 1 <= Api.chanCap
  /\ Api.chanCap + Z.to_nat 1 < length Examples.manyCategories
  /\ exists s : Api.state,
       Api.reachable Examples.sorter
                     (Api.init Examples.manyCategories 1) s
       /\ (exists t todo, Api.mainSt s = Api.SeedSend t todo)
       /\ length (Api.tasksCh s) = Api.chanCap
       /\ (forall i w, Api.workers s !! i = Some w -> Pool.atEnqueue w)
       /\ Pool.stuck Examples.sorter s.
Proof.
  split; [vm_compute; lia|]. split; [vm_compute; lia|].
  apply seeding_can_deadlock; vm_compute; lia.
Defined.
